(** * The turn loop of ii-agent's [FunctionCallAgent]

    A shallow embedding of [src/ii_agent/agents/function_call.py]: the
    duplicate-name validation of the tool set, the turn loop [run_impl],
    the run entry point [run_agent_async], [cancel], and the event
    consumer [_process_messages].

    Python objects become records, attribute assignment becomes explicit
    state passing through a small state-and-exception monad, [raise]
    becomes the [Raise] outcome and [try ... except] a handler.  The
    collaborators the agent only calls (the model client, the tools, the
    database, the websocket) are scripted: what the n-th call answers,
    and whether [cancel()] ran while the agent was suspended in it.  The
    agent runs on one asyncio event loop, so [cancel()] can only run
    while [run_impl] is suspended in one of its two [await]s.  Calls to
    the logger are left out. *)

From Stdlib Require Import Bool List String Ascii ZArith Lia.
From Stdlib Require Import Sorting.Sorted Sorting.Permutation Sorting.Mergesort.
From Stdlib Require Import Orders RelationClasses.
Import ListNotations.
Local Open Scope string_scope.
Local Open Scope list_scope.

Set Implicit Arguments.

(** ** Exceptions and outcomes *)

(** The exception classes that occur.  [CancelledError] derives from
    [BaseException], everything else from [Exception]. *)
Inductive exn : Type :=
| ValueError (msg : string)
| Exception (msg : string)
| CancelledError.

Definition is_Exception (e : exn) : bool :=
  match e with
  | CancelledError => false
  | _ => true
  end.

Inductive result (A : Type) : Type :=
| Ok (a : A)
| Raise (e : exn).

Arguments Ok {A} a.
Arguments Raise {A} e.

(** ** A state-and-exception monad

    [M S A] is a computation on a mutable object of type [S] that either
    returns an [A] or raises; the state it leaves behind survives a
    raise, as attribute writes do in Python. *)
Definition M (S A : Type) : Type := S -> result A * S.

Definition ret {S A} (x : A) : M S A := fun s => (Ok x, s).

Definition bind {S A B} (m : M S A) (k : A -> M S B) : M S B :=
  fun s =>
    match m s with
    | (Ok x, s') => k x s'
    | (Raise e, s') => (Raise e, s')
    end.

Definition raise {S A} (e : exn) : M S A := fun s => (Raise e, s).

Definition get {S} : M S S := fun s => (Ok s, s).

Definition modify {S} (f : S -> S) : M S unit := fun s => (Ok tt, f s).

(** [try m except handler]: [handler e = None] means no clause matches
    [e], which then propagates. *)
Definition try_except {S A} (m : M S A) (handler : exn -> option (M S A)) : M S A :=
  fun s =>
    match m s with
    | (Ok x, s') => (Ok x, s')
    | (Raise e, s') =>
        match handler e with
        | Some h => h s'
        | None => (Raise e, s')
        end
    end.

Declare Scope monad_scope.
Delimit Scope monad_scope with monad.
Notation "x <- m ;; k" := (bind m (fun x => k))
  (at level 61, m at next level, right associativity) : monad_scope.
Notation "m ;; k" := (bind m (fun _ => k))
  (at level 61, right associativity) : monad_scope.
Local Open Scope monad_scope.

(** ** Strings *)

Definition nl : string := String (ascii_of_nat 10) EmptyString.

Fixpoint join (sep : string) (parts : list string) : string :=
  match parts with
  | [] => EmptyString
  | [p] => p
  | p :: rest => p ++ sep ++ join sep rest
  end.

(** Strings are the UTF-8 bytes of Python's strings.  The white space
    of [str.split] and [str.strip] is that of [str.isspace]: these code
    points. *)
Definition white_space_code_points : list N :=
  [9; 10; 11; 12; 13; 28; 29; 30; 31; 32; 133; 160; 5760;
   8192; 8193; 8194; 8195; 8196; 8197; 8198; 8199; 8200; 8201; 8202;
   8232; 8233; 8239; 8287; 12288]%N.

(** The UTF-8 encoding of a code point below 65536. *)
Definition utf8 (code_point : N) : list ascii :=
  if (code_point <? 128)%N then [ascii_of_N code_point]
  else if (code_point <? 2048)%N then
    [ascii_of_N (192 + code_point / 64); ascii_of_N (128 + code_point mod 64)]
  else
    [ascii_of_N (224 + code_point / 4096);
     ascii_of_N (128 + (code_point / 64) mod 64);
     ascii_of_N (128 + code_point mod 64)].

Definition white_space : list (list ascii) := map utf8 white_space_code_points.

Fixpoint starts_with (p s : list ascii) : bool :=
  match p, s with
  | [], _ => true
  | x :: p', y :: s' => Ascii.eqb x y && starts_with p' s'
  | _ :: _, [] => false
  end.

(** The number of bytes of the white-space character [s] starts with,
    0 when it starts with none. *)
Definition space_len (s : list ascii) : nat :=
  match find (fun p => starts_with p s) white_space with
  | Some p => List.length p
  | None => 0
  end.

(** A string as [split] and [strip] see it: its white-space characters,
    and between them the bytes of its other characters. *)
Inductive Piece : Type :=
| Space (bytes : list ascii)
| Byte (b : ascii).

Definition bytes_of (u : Piece) : list ascii :=
  match u with
  | Space bytes => bytes
  | Byte b => [b]
  end.

(** [fuel] bounds the number of pieces, which the length of [s] does. *)
Fixpoint pieces_aux (fuel : nat) (s : list ascii) : list Piece :=
  match fuel, s with
  | S fuel', c :: rest =>
      match space_len s with
      | O => Byte c :: pieces_aux fuel' rest
      | S k => Space (firstn (S k) s) :: pieces_aux fuel' (skipn k rest)
      end
  | _, _ => []
  end.

Definition pieces (s : list ascii) : list Piece := pieces_aux (List.length s) s.

(** The word read so far (kept reversed), if any. *)
Definition flush_word (cur : list ascii) : list string :=
  match cur with
  | [] => []
  | _ :: _ => [string_of_list_ascii (rev cur)]
  end.

(** [s.split()]: the maximal runs of characters that are not white
    space. *)
Fixpoint split_ws_aux (cur : list ascii) (s : list Piece) : list string :=
  match s with
  | [] => flush_word cur
  | Space _ :: rest => flush_word cur ++ split_ws_aux [] rest
  | Byte b :: rest => split_ws_aux (b :: cur) rest
  end.

Definition split_ws (s : string) : list string :=
  split_ws_aux [] (pieces (list_ascii_of_string s)).

Fixpoint drop_space (s : list Piece) : list Piece :=
  match s with
  | Space _ :: rest => drop_space rest
  | _ => s
  end.

(** [s.strip()]. *)
Definition strip (s : string) : string :=
  string_of_list_ascii
    (flat_map bytes_of
       (rev (drop_space (rev (drop_space (pieces (list_ascii_of_string s))))))).

(** [for i in range(0, len(words), 8): out += sep.join(words[i:i+8]) + nl]. *)
Fixpoint wrap_words (fuel : nat) (words : list string) : string :=
  match fuel, words with
  | O, _ => EmptyString
  | _, [] => EmptyString
  | S fuel', _ => join " " (firstn 8 words) ++ nl ++ wrap_words fuel' (skipn 8 words)
  end.

(** [file.split(dot)[-1]]: what follows the last dot, the whole name when
    there is none. *)
Fixpoint last_segment_aux (cur : list ascii) (s : list ascii) : list ascii :=
  match s with
  | [] => rev cur
  | c :: rest =>
      if Ascii.eqb c "."%char then last_segment_aux [] rest
      else last_segment_aux (c :: cur) rest
  end.

Definition last_segment (file : string) : string :=
  string_of_list_ascii (last_segment_aux [] (list_ascii_of_string file)).

(** ** [sorted] on tool names

    Python compares [str] by code point; on byte strings this is
    [String.leb].  The order is total and antisymmetric, so the sorted
    permutation of a list is unique and the sorting algorithm does not
    show. *)
Module StringOrder <: TotalLeBool.
Definition t := string.
Definition leb := String.leb.
Definition leb_total : forall a1 a2, leb a1 a2 = true \/ leb a2 a1 = true :=
  String.leb_total.
End StringOrder.

Module StringSort := Sort StringOrder.

Definition sorted (names : list string) : list string := StringSort.sort names.

(** ** Data model *)

(** [ToolCallParameters]: identifier, tool name, structured input (a
    JSON object, kept as its key/value pairs). *)
Record ToolCallParameters : Type := {
  tool_call_id : string;
  tool_name : string;
  tool_input : list (string * string)
}.

(** The content blocks a model response is made of. *)
Inductive Block : Type :=
| TextResult (text : string)
| AnthropicThinkingBlock (thinking : string)
| ToolCall (call : ToolCallParameters).

(** The image block [run_impl] builds for an attached picture:
    [source.type] is always base64. *)
Record ImageBlock : Type := {
  media_type : string;
  data : string
}.

(** One Turn of the Ledger. *)
Inductive Turn : Type :=
| UserTurn (text : string) (images : list ImageBlock)
| AssistantTurn (blocks : list Block)
| ToolResultTurn (call_id : string) (name : string) (output : string).

(** Modelled from the spec: [EventType] is declared in
    [ii_agent.core.event], which is not among the sources; these are the
    six types the spec's section 3 lists. *)
Inductive EventType : Type :=
| USER_MESSAGE
| TOOL_CALL
| TOOL_RESULT
| AGENT_THINKING
| AGENT_RESPONSE
| AGENT_RESPONSE_INTERRUPTED.

Definition EventType_eqb (x y : EventType) : bool :=
  match x, y with
  | USER_MESSAGE, USER_MESSAGE
  | TOOL_CALL, TOOL_CALL
  | TOOL_RESULT, TOOL_RESULT
  | AGENT_THINKING, AGENT_THINKING
  | AGENT_RESPONSE, AGENT_RESPONSE
  | AGENT_RESPONSE_INTERRUPTED, AGENT_RESPONSE_INTERRUPTED => true
  | _, _ => false
  end.

(** A value of an event's [content] dict. *)
Inductive Value : Type :=
| VStr (s : string)
| VObj (fields : list (string * string)).

Record RealtimeEvent : Type := {
  type : EventType;
  content : list (string * Value)
}.

Record ToolParam : Type := {
  name : string;
  input_schema : string
}.

Record LLMTool : Type := {
  get_tool_param : ToolParam
}.

Record ToolImplOutput : Type := {
  tool_output : string;
  tool_result_message : string
}.

(** ** Constants of the module *)

Definition TOOL_RESULT_INTERRUPT_MESSAGE : string :=
  "Tool execution interrupted by user.".
Definition AGENT_INTERRUPT_MESSAGE : string :=
  "Agent interrupted by user.".
Definition TOOL_CALL_INTERRUPT_FAKE_MODEL_RSP : string :=
  "Tool execution interrupted by user. You can resume by providing a new instruction.".
Definition AGENT_INTERRUPT_FAKE_MODEL_RSP : string :=
  "Agent interrupted by user. You can resume by providing a new instruction.".

(** ** The History Ledger *)

(** Modelled from the spec: [MessageHistory] ([ii_agent.llm.message_history])
    is not among the sources; this is the Ledger of the spec's section 4.1.
    [turns] is the ordered sequence of Turns.  [appended] is a
    specification-only log of every Turn appended, in order, which
    [truncate] and [clear] leave alone: it is what "the Turns appended
    during a run" refers to. *)
Record MessageHistory : Type := {
  turns : list Turn;
  appended : list Turn
}.

Definition append_turn (t : Turn) (h : MessageHistory) : MessageHistory :=
  {| turns := turns h ++ [t]; appended := appended h ++ [t] |}.

(** Modelled from the spec: "appends a user Turn". *)
Definition history_add_user_prompt (text : string) (images : list ImageBlock)
    (h : MessageHistory) : MessageHistory :=
  append_turn (UserTurn text images) h.

(** Modelled from the spec: "appends the raw model output as one Turn,
    preserving block order and type". *)
Definition history_add_assistant_turn (blocks : list Block) (h : MessageHistory) : MessageHistory :=
  append_turn (AssistantTurn blocks) h.

(** The tool invocations among some content blocks, in order. *)
Fixpoint tool_calls_of (blocks : list Block) : list ToolCallParameters :=
  match blocks with
  | [] => []
  | ToolCall c :: rest => c :: tool_calls_of rest
  | _ :: rest => tool_calls_of rest
  end.

(** The tool invocations of all the assistant Turns of a sequence. *)
Fixpoint invocations (ts : list Turn) : list ToolCallParameters :=
  match ts with
  | [] => []
  | AssistantTurn blocks :: rest => tool_calls_of blocks ++ invocations rest
  | _ :: rest => invocations rest
  end.

(** The identifiers answered by the tool-result Turns of a sequence. *)
Fixpoint answered (ts : list Turn) : list string :=
  match ts with
  | [] => []
  | ToolResultTurn id _ _ :: rest => id :: answered rest
  | _ :: rest => answered rest
  end.

Definition mem_string (x : string) (l : list string) : bool :=
  existsb (String.eqb x) l.

(** Modelled from the spec: "appends a tool-result Turn correlated to
    [call] by its identifier"; "on malformed append (e.g., a tool-result
    with no matching call) it surfaces a contract-violation error rather
    than silently dropping data".  The spec names neither the class nor
    the text of that error; a [ValueError] stands for it. *)
Definition history_add_tool_call_result (call : ToolCallParameters) (result_text : string)
    (h : MessageHistory) : result MessageHistory :=
  if mem_string (tool_call_id call) (map tool_call_id (invocations (turns h)))
  then Ok (append_turn (ToolResultTurn (tool_call_id call) (tool_name call) result_text) h)
  else Raise (ValueError "Tool result has no matching tool call").

(** The most recent assistant Turn of [ts] (given most recent first)
    together with the Turns that came after it. *)
Fixpoint last_assistant (rev_ts : list Turn) (later : list Turn)
    : option (list Block * list Turn) :=
  match rev_ts with
  | [] => None
  | AssistantTurn blocks :: _ => Some (blocks, later)
  | t :: rest => last_assistant rest (t :: later)
  end.

(** Modelled from the spec: "returns the tool invocations in the most
    recent assistant Turn that have not yet received a matching
    tool-result Turn". *)
Definition history_get_pending_tool_calls (h : MessageHistory) : list ToolCallParameters :=
  match last_assistant (rev (turns h)) [] with
  | None => []
  | Some (blocks, later) =>
      filter (fun c => negb (mem_string (tool_call_id c) (answered later)))
             (tool_calls_of blocks)
  end.

(** Modelled from the spec: "empties the Ledger". *)
Definition history_clear (h : MessageHistory) : MessageHistory :=
  {| turns := []; appended := appended h |}.

(** ** Reading a log of appended Turns *)

(** An assistant Turn with no block at all. *)
Definition fully_empty (t : Turn) : bool :=
  match t with
  | AssistantTurn [] => true
  | _ => false
  end.

(** Whether a tool-result Turn for [id] and [nm] may come right after
    [prev]: [prev] is an assistant Turn whose one tool invocation has
    that identifier and name. *)
Definition answers (prev : option Turn) (id nm : string) : Prop :=
  match prev with
  | Some (AssistantTurn blocks) =>
      exists c, tool_calls_of blocks = [c] /\ tool_call_id c = id /\ tool_name c = nm
  | _ => False
  end.

(** Every tool-result Turn of the log comes right after the assistant
    Turn whose one tool invocation it answers; [prev] is the Turn before
    the log, if any. *)
Fixpoint results_follow (prev : option Turn) (log : list Turn) : Prop :=
  match log with
  | [] => True
  | t :: rest =>
      match t with
      | ToolResultTurn id nm _ => answers prev id nm
      | _ => True
      end /\ results_follow (Some t) rest
  end.

(** What the Turns appended by a stretch of the loop satisfy: tool
    results follow their calls, there are no more tool-result Turns than
    tool invocations, and no assistant Turn is fully empty. *)
Definition sound_log (log : list Turn) : Prop :=
  (forall prev, results_follow prev log)
  /\ List.length (answered log) <= List.length (invocations log)
  /\ existsb fully_empty log = false.

(** ** The agent object *)

(** Modelled from the spec: [AgentToolManager] ([ii_agent.tools]), the
    tool registry and executor, is not among the sources; per the spec's
    section 4.2 it holds the tool set and a stop signal with its final
    answer.  [run_tool_calls] is a specification-only log of the calls
    handed to [run_tool]. *)
Record AgentToolManager : Type := {
  tools : list LLMTool;
  stop_signalled : bool;
  final_answer : string;
  run_tool_calls : list ToolCallParameters
}.

Definition get_tools (tm : AgentToolManager) : list LLMTool := tools tm.

(** Modelled from the spec: "a tool may signal that the overall task is
    finished; the executor surfaces this as a boolean plus an associated
    message". *)
Definition should_stop (tm : AgentToolManager) : bool := stop_signalled tm.

Definition get_final_answer (tm : AgentToolManager) : string := final_answer tm.

(** Modelled from the spec: "clears any accumulated stop/final-answer
    state between runs on the same agent instance". *)
Definition reset (tm : AgentToolManager) : AgentToolManager :=
  {| tools := tools tm; stop_signalled := false; final_answer := EmptyString;
     run_tool_calls := run_tool_calls tm |}.

(** The attributes of a [FunctionCallAgent] that its methods read or
    write.  [generate_calls] counts the calls made to [client.generate];
    [message_queue] holds the events put on the queue, oldest first. *)
Record FunctionCallAgent : Type := {
  generate_calls : nat;
  tool_manager : AgentToolManager;
  max_turns : Z;
  interrupted : bool;
  history : MessageHistory;
  session_id : option string;
  message_queue : list RealtimeEvent;
  websocket : option nat
}.

Definition set_generate_calls (n : nat) (a : FunctionCallAgent) : FunctionCallAgent :=
  {| generate_calls := n; tool_manager := tool_manager a; max_turns := max_turns a;
     interrupted := interrupted a; history := history a; session_id := session_id a;
     message_queue := message_queue a; websocket := websocket a |}.

Definition set_tool_manager (tm : AgentToolManager) (a : FunctionCallAgent) : FunctionCallAgent :=
  {| generate_calls := generate_calls a; tool_manager := tm; max_turns := max_turns a;
     interrupted := interrupted a; history := history a; session_id := session_id a;
     message_queue := message_queue a; websocket := websocket a |}.

Definition set_interrupted (b : bool) (a : FunctionCallAgent) : FunctionCallAgent :=
  {| generate_calls := generate_calls a; tool_manager := tool_manager a;
     max_turns := max_turns a; interrupted := b; history := history a;
     session_id := session_id a; message_queue := message_queue a;
     websocket := websocket a |}.

Definition set_history (h : MessageHistory) (a : FunctionCallAgent) : FunctionCallAgent :=
  {| generate_calls := generate_calls a; tool_manager := tool_manager a;
     max_turns := max_turns a; interrupted := interrupted a; history := h;
     session_id := session_id a; message_queue := message_queue a;
     websocket := websocket a |}.

Definition set_message_queue (q : list RealtimeEvent) (a : FunctionCallAgent) : FunctionCallAgent :=
  {| generate_calls := generate_calls a; tool_manager := tool_manager a;
     max_turns := max_turns a; interrupted := interrupted a; history := history a;
     session_id := session_id a; message_queue := q; websocket := websocket a |}.

Definition set_websocket (w : option nat) (a : FunctionCallAgent) : FunctionCallAgent :=
  {| generate_calls := generate_calls a; tool_manager := tool_manager a;
     max_turns := max_turns a; interrupted := interrupted a; history := history a;
     session_id := session_id a; message_queue := message_queue a; websocket := w |}.

(** [__init__]: stores its arguments; [interrupted] starts false.  It
    does not look at the tool names. *)
Definition init (tool_list : list LLMTool) (init_history : MessageHistory)
    (sid : option string) (turn_budget : Z) (ws : option nat) : FunctionCallAgent :=
  {| generate_calls := 0;
     tool_manager := {| tools := tool_list; stop_signalled := false;
                        final_answer := EmptyString; run_tool_calls := [] |};
     max_turns := turn_budget; interrupted := false; history := init_history;
     session_id := sid; message_queue := []; websocket := ws |}.

(** ** The world the agent calls into *)

(** What one call of [client.generate] answers, and whether [cancel()]
    ran while the loop was suspended in it. *)
Record GenerateStep : Type := {
  gen_blocks : list Block;
  gen_cancelled : bool
}.

(** What one call of [tool_manager.run_tool] answers, whether the tool
    signalled that the task is finished (and with which final answer),
    and whether [cancel()] ran while the loop was suspended in it. *)
Record ToolStep : Type := {
  tool_text : string;
  tool_stop : option string;
  tool_cancelled : bool
}.

(** Everything [run_impl] depends on and the sources do not define.
    [COMPLETE_MESSAGE] is the constant of [ii_agent.utils.constants];
    [truncate] is the Ledger's truncation policy on the sequence of
    Turns; [relative_path], [workspace_path] are the workspace manager's,
    [encode_image] reads and encodes a file.  [on_generate n] scripts the
    call number [n] of the model client, [on_run_tool n call] the call
    number [n] of the executor. *)
Record World : Type := {
  COMPLETE_MESSAGE : string;
  truncate : list Turn -> list Turn;
  relative_path : string -> string;
  workspace_path : string -> string;
  encode_image : string -> string;
  on_generate : nat -> GenerateStep;
  on_run_tool : nat -> ToolCallParameters -> ToolStep
}.

Record ToolInput : Type := {
  instruction : string;
  files : option (list string)
}.

(** ** [_validate_tool_parameters] *)

(** The loop over adjacent positions of the sorted names:
    [for i in range(len(sorted_names) - 1)], comparing [sorted_names[i]]
    with [sorted_names[i + 1]]. *)
Fixpoint check_adjacent (sorted_names : list string) : result unit :=
  match sorted_names with
  | a :: ((b :: _) as rest) =>
      if String.eqb a b
      then Raise (ValueError ("Tool " ++ a ++ " is duplicated"))
      else check_adjacent rest
  | _ => Ok tt
  end.

(** The error [_validate_tool_parameters] raises for the name [x]. *)
Definition duplicated (x : string) : exn :=
  ValueError ("Tool " ++ x ++ " is duplicated").

Definition validate_tools (tool_list : list LLMTool) : result (list ToolParam) :=
  let tool_params := map get_tool_param tool_list in
  let tool_names := map name tool_params in
  let sorted_names := sorted tool_names in
  match check_adjacent sorted_names with
  | Ok _ => Ok tool_params
  | Raise e => Raise e
  end.

Definition _validate_tool_parameters : M FunctionCallAgent (list ToolParam) :=
  fun a =>
    match validate_tools (get_tools (tool_manager a)) with
    | Ok ps => (Ok ps, a)
    | Raise e => (Raise e, a)
    end.

(** Modelled from the spec: [truncate] "drops complete oldest Turns"
    by a token-budget policy the spec leaves to the provider; the policy
    is the world's [truncate]. *)
Definition history_truncate (W : World) (h : MessageHistory) : MessageHistory :=
  {| turns := truncate W (turns h); appended := appended h |}.

(** ** The methods of the agent *)

Section Agent.

Variable W : World.

Definition Agent := M FunctionCallAgent.

(** [self.message_queue.put_nowait(event)]. *)
Definition put_nowait (e : RealtimeEvent) : Agent unit :=
  modify (fun a => set_message_queue (message_queue a ++ [e]) a).

Definition text_content (text : string) : list (string * Value) :=
  [("text", VStr text)].

(** [cancel]. *)
Definition cancel (a : FunctionCallAgent) : FunctionCallAgent :=
  set_interrupted true a.

(** [clear]. *)
Definition clear (a : FunctionCallAgent) : FunctionCallAgent :=
  set_interrupted false (set_history (history_clear (history a)) a).

(** [add_tool_call_result]. *)
Definition add_tool_call_result (tool_call : ToolCallParameters) (tool_result : string)
    : Agent unit :=
  (fun a =>
     match history_add_tool_call_result tool_call tool_result (history a) with
     | Ok h => (Ok tt, set_history h a)
     | Raise e => (Raise e, a)
     end);;
  put_nowait {| type := TOOL_RESULT;
                content := [("tool_call_id", VStr (tool_call_id tool_call));
                            ("tool_name", VStr (tool_name tool_call));
                            ("result", VStr tool_result)] |}.

(** [add_fake_assistant_turn]. *)
Definition add_fake_assistant_turn (text : string) : Agent unit :=
  modify (fun a => set_history (history_add_assistant_turn [TextResult text] (history a)) a);;
  a <- get;;
  let rsp_type := if interrupted a then AGENT_RESPONSE_INTERRUPTED else AGENT_RESPONSE in
  put_nowait {| type := rsp_type; content := text_content text |}.

(** [await loop.run_in_executor(None, partial(self.client.generate, ...))]:
    the answer of the model client to its next call; while the loop is
    suspended, [cancel()] may run. *)
Definition client_generate (all_tool_params : list ToolParam) : Agent (list Block) :=
  fun a =>
    let step := on_generate W (generate_calls a) in
    let a := set_generate_calls (S (generate_calls a)) a in
    let a := if gen_cancelled step then cancel a else a in
    (Ok (gen_blocks step), a).

(** [await self.tool_manager.run_tool(tool_call, self.history)]: the
    executor's answer, a string in every case, is the world's; the tool
    may signal stop with a final answer, and [cancel()] may run while
    the loop is suspended.  Per the spec's section 5 the tool reads the
    Ledger and does not write it. *)
Definition run_tool (tool_call : ToolCallParameters) : Agent string :=
  fun a =>
    let tm := tool_manager a in
    let step := on_run_tool W (List.length (run_tool_calls tm)) tool_call in
    let tm := {| tools := tools tm;
                 stop_signalled := match tool_stop step with
                                   | Some _ => true
                                   | None => stop_signalled tm
                                   end;
                 final_answer := match tool_stop step with
                                 | Some answer => answer
                                 | None => final_answer tm
                                 end;
                 run_tool_calls := run_tool_calls tm ++ [tool_call] |} in
    let a := set_tool_manager tm a in
    let a := if tool_cancelled step then cancel a else a in
    (Ok (tool_text step), a).

(** The text of the [AGENT_THINKING] event of a reasoning block: the
    words folded eight to a line, inside a fence. *)
Definition thinking_text (thinking : string) : string :=
  let words := split_ws thinking in
  let wrapped_thinking := wrap_words (List.length words) words in
  ("```Thinking:" ++ nl ++ strip wrapped_thinking ++ nl ++ "```")%string.

(** One [AGENT_THINKING] event per text or reasoning block, in order. *)
Fixpoint thinking_events (model_response : list Block) : list RealtimeEvent :=
  match model_response with
  | [] => []
  | TextResult text :: rest =>
      {| type := AGENT_THINKING; content := text_content text |} :: thinking_events rest
  | AnthropicThinkingBlock thinking :: rest =>
      {| type := AGENT_THINKING; content := text_content (thinking_text thinking) |}
        :: thinking_events rest
  | ToolCall _ :: rest => thinking_events rest
  end.

Definition emit_all (events : list RealtimeEvent) : Agent unit :=
  modify (fun a => set_message_queue (message_queue a ++ events) a).

(** The image block of an attached file, if its extension is one of the
    picture formats. *)
Definition image_block_of (file : string) : list ImageBlock :=
  let ext := last_segment file in
  let ext := if String.eqb ext "jpg" then "jpeg" else ext in
  if mem_string ext ["png"; "gif"; "jpeg"; "webp"]
  then [{| media_type := "image/" ++ ext;
           data := encode_image W (workspace_path W file) |}]
  else [].

(** The user prompt [run_impl] builds from its input: the instruction,
    followed by the list of attached files when there are any, and the
    image blocks. *)
Definition user_prompt (tool_input : ToolInput) : string * list ImageBlock :=
  match files tool_input with
  | None | Some [] => (instruction tool_input, [])
  | Some fs =>
      ((instruction tool_input ++ nl ++ nl ++ "Attached files:" ++ nl
          ++ String.concat EmptyString
               (map (fun file => " - " ++ relative_path W file ++ nl) fs))%string,
       flat_map image_block_of fs)
  end.

Definition completed (answer : string) : ToolImplOutput :=
  {| tool_output := answer; tool_result_message := "Task completed" |}.

Definition same_message (text : string) : ToolImplOutput :=
  {| tool_output := text; tool_result_message := text |}.

(** The body of the [while] loop of [run_impl]: [Some out] when the body
    executes [return out], [None] when it reaches its end and the loop
    goes round again.  The decrement of [remaining_turns] is in
    [turns_loop].  [count_tokens] is only logged; the projected
    messages, the token limit and the system prompt are arguments of
    [generate], whose answer the world scripts. *)
Definition turn : Agent (option ToolImplOutput) :=
  modify (fun a => set_history (history_truncate W (history a)) a);;
  all_tool_params <- _validate_tool_parameters;;
  a <- get;;
  if interrupted a then
    add_fake_assistant_turn AGENT_INTERRUPT_FAKE_MODEL_RSP;;
    ret (Some (same_message AGENT_INTERRUPT_MESSAGE))
  else
    model_response <- client_generate all_tool_params;;
    let model_response :=
      match model_response with
      | [] => [TextResult (COMPLETE_MESSAGE W)]
      | _ :: _ => model_response
      end in
    modify (fun a => set_history (history_add_assistant_turn model_response (history a)) a);;
    a <- get;;
    let pending_tool_calls := history_get_pending_tool_calls (history a) in
    emit_all (thinking_events model_response);;
    match pending_tool_calls with
    | [] =>
        put_nowait {| type := AGENT_RESPONSE; content := text_content "Task completed" |};;
        ret (Some (completed EmptyString))
    | _ :: _ :: _ =>
        raise (ValueError "Only one tool call per turn is supported")
    | [tool_call] =>
        put_nowait {| type := TOOL_CALL;
                      content := [("tool_call_id", VStr (tool_call_id tool_call));
                                  ("tool_name", VStr (tool_name tool_call));
                                  ("tool_input", VObj (tool_input tool_call))] |};;
        a <- get;;
        if interrupted a then
          add_tool_call_result tool_call TOOL_RESULT_INTERRUPT_MESSAGE;;
          add_fake_assistant_turn TOOL_CALL_INTERRUPT_FAKE_MODEL_RSP;;
          ret (Some (same_message TOOL_RESULT_INTERRUPT_MESSAGE))
        else
          tool_result <- run_tool tool_call;;
          add_tool_call_result tool_call tool_result;;
          a <- get;;
          if should_stop (tool_manager a) then
            add_fake_assistant_turn (get_final_answer (tool_manager a));;
            ret (Some (completed (get_final_answer (tool_manager a))))
          else ret None
    end.

Definition MAX_TURNS_MESSAGE : string := "Agent did not complete after max turns".

(** [while remaining_turns > 0: ...; remaining_turns -= 1; ...] followed
    by the code after the loop. *)
Fixpoint turns_loop (remaining_turns : nat) : Agent ToolImplOutput :=
  match remaining_turns with
  | O =>
      put_nowait {| type := AGENT_RESPONSE; content := text_content MAX_TURNS_MESSAGE |};;
      ret (same_message MAX_TURNS_MESSAGE)
  | S remaining_turns' =>
      r <- turn;;
      match r with
      | Some out => ret out
      | None => turns_loop remaining_turns'
      end
  end.

(** [run_impl].  The counter [remaining_turns] starts at [max_turns], a
    Python [int]: the loop runs no turn when it is not positive. *)
Definition run_impl (tool_input : ToolInput) : Agent ToolImplOutput :=
  let (instruction, image_blocks) := user_prompt tool_input in
  modify (fun a => set_history (history_add_user_prompt instruction image_blocks (history a)) a);;
  modify (set_interrupted false);;
  a <- get;;
  turns_loop (Z.to_nat (max_turns a)).

(** Modelled from the spec: [run_async] is inherited from a base class
    that is not among the sources; per the spec's section 6 a run yields
    its final result text, the [tool_output] of what [run_impl] returns. *)
Definition run_async (tool_input : ToolInput) : Agent string :=
  out <- run_impl tool_input;;
  ret (tool_output out).

(** What [run_agent_async] does before it hands over to [run_async]. *)
Definition run_agent_async_entry (resume : bool) : Agent unit :=
  modify (fun a => set_tool_manager (reset (tool_manager a)) a);;
  if negb resume then modify clear else ret tt.

(** [run_agent_async].  The optional orientation instruction is stored
    in the tool input and read by nothing in [run_impl]. *)
Definition run_agent_async (instruction : string) (files : option (list string))
    (resume : bool) : Agent string :=
  run_agent_async_entry resume;;
  run_async {| instruction := instruction; files := files |}.

(** ** The states a turn goes through

    Names for the agent after each step of [turn], used to state what a
    turn leaves behind. *)

Definition tool_names (a : FunctionCallAgent) : list string :=
  map name (map get_tool_param (get_tools (tool_manager a))).

Definition emitted (events : list RealtimeEvent) (a : FunctionCallAgent) : FunctionCallAgent :=
  set_message_queue (message_queue a ++ events) a.

Definition truncated (a : FunctionCallAgent) : FunctionCallAgent :=
  set_history (history_truncate W (history a)) a.

Definition with_assistant_turn (blocks : list Block) (a : FunctionCallAgent) : FunctionCallAgent :=
  set_history (history_add_assistant_turn blocks (history a)) a.

Definition response_event (a : FunctionCallAgent) (text : string) : RealtimeEvent :=
  {| type := if interrupted a then AGENT_RESPONSE_INTERRUPTED else AGENT_RESPONSE;
     content := text_content text |}.

Definition with_fake_turn (text : string) (a : FunctionCallAgent) : FunctionCallAgent :=
  emitted [response_event a text] (with_assistant_turn [TextResult text] a).

Definition tool_call_event (c : ToolCallParameters) : RealtimeEvent :=
  {| type := TOOL_CALL;
     content := [("tool_call_id", VStr (tool_call_id c)); ("tool_name", VStr (tool_name c));
                 ("tool_input", VObj (tool_input c))] |}.

Definition tool_result_event (c : ToolCallParameters) (text : string) : RealtimeEvent :=
  {| type := TOOL_RESULT;
     content := [("tool_call_id", VStr (tool_call_id c)); ("tool_name", VStr (tool_name c));
                 ("result", VStr text)] |}.

Definition with_tool_result (c : ToolCallParameters) (text : string)
    (a : FunctionCallAgent) : FunctionCallAgent :=
  emitted [tool_result_event c text]
    (set_history (append_turn (ToolResultTurn (tool_call_id c) (tool_name c) text) (history a)) a).

(** The blocks the turn appends: the answer of the model client to the
    agent's next call, or the placeholder when that answer is empty. *)
Definition response_of (a : FunctionCallAgent) : list Block :=
  match gen_blocks (on_generate W (generate_calls a)) with
  | [] => [TextResult (COMPLETE_MESSAGE W)]
  | _ :: _ => gen_blocks (on_generate W (generate_calls a))
  end.

Definition generated (a : FunctionCallAgent) : FunctionCallAgent :=
  let a' := set_generate_calls (S (generate_calls a)) a in
  if gen_cancelled (on_generate W (generate_calls a)) then cancel a' else a'.

(** After the model call: Ledger truncated, response appended, thinking
    events emitted. *)
Definition after_model (a : FunctionCallAgent) : FunctionCallAgent :=
  emitted (thinking_events (response_of a))
    (with_assistant_turn (response_of a) (generated (truncated a))).

Definition tool_step_of (c : ToolCallParameters) (a : FunctionCallAgent) : ToolStep :=
  on_run_tool W (List.length (run_tool_calls (tool_manager a))) c.

(** After the tool ran and its result was appended. *)
Definition after_tool (c : ToolCallParameters) (a : FunctionCallAgent) : FunctionCallAgent :=
  let a1 := emitted [tool_call_event c] (after_model a) in
  with_tool_result c (tool_text (tool_step_of c a1)) (snd (run_tool c a1)).

(** Turn number [k] counted from agent state [a] goes round: the model
    answers with exactly one tool invocation, the tool does not signal
    stop, and [cancel()] runs during neither. *)
Definition quiet_turn (a : FunctionCallAgent) (k : nat) : Prop :=
  (exists c, tool_calls_of (gen_blocks (on_generate W (generate_calls a + k))) = [c])
  /\ gen_cancelled (on_generate W (generate_calls a + k)) = false
  /\ forall c,
       tool_stop (on_run_tool W (List.length (run_tool_calls (tool_manager a)) + k) c) = None
       /\ tool_cancelled (on_run_tool W (List.length (run_tool_calls (tool_manager a)) + k) c)
          = false.

(** [cancel()] never runs while the loop is suspended. *)
Definition never_cancelled : Prop :=
  (forall n, gen_cancelled (on_generate W n) = false)
  /\ (forall n c, tool_cancelled (on_run_tool W n c) = false).

(** The ways a turn can go: the step relation of the loop's state
    machine (spec section 4.3), with the agent each step leaves. *)
Inductive turn_spec (a : FunctionCallAgent)
    : result (option ToolImplOutput) -> FunctionCallAgent -> Prop :=
| Turn_duplicate e :
    validate_tools (get_tools (tool_manager a)) = Raise e ->
    turn_spec a (Raise e) (truncated a)
| Turn_interrupted ps :
    validate_tools (get_tools (tool_manager a)) = Ok ps ->
    interrupted a = true ->
    turn_spec a (Ok (Some (same_message AGENT_INTERRUPT_MESSAGE)))
      (with_fake_turn AGENT_INTERRUPT_FAKE_MODEL_RSP (truncated a))
| Turn_complete ps :
    validate_tools (get_tools (tool_manager a)) = Ok ps ->
    interrupted a = false ->
    tool_calls_of (response_of a) = [] ->
    turn_spec a (Ok (Some (completed EmptyString)))
      (emitted [{| type := AGENT_RESPONSE; content := text_content "Task completed" |}]
         (after_model a))
| Turn_violation ps c1 c2 cs :
    validate_tools (get_tools (tool_manager a)) = Ok ps ->
    interrupted a = false ->
    tool_calls_of (response_of a) = c1 :: c2 :: cs ->
    turn_spec a (Raise (ValueError "Only one tool call per turn is supported"))
      (after_model a)
| Turn_tool_interrupted ps c :
    validate_tools (get_tools (tool_manager a)) = Ok ps ->
    interrupted a = false ->
    tool_calls_of (response_of a) = [c] ->
    interrupted (after_model a) = true ->
    turn_spec a (Ok (Some (same_message TOOL_RESULT_INTERRUPT_MESSAGE)))
      (with_fake_turn TOOL_CALL_INTERRUPT_FAKE_MODEL_RSP
         (with_tool_result c TOOL_RESULT_INTERRUPT_MESSAGE
            (emitted [tool_call_event c] (after_model a))))
| Turn_stop ps c :
    validate_tools (get_tools (tool_manager a)) = Ok ps ->
    interrupted a = false ->
    tool_calls_of (response_of a) = [c] ->
    interrupted (after_model a) = false ->
    should_stop (tool_manager (after_tool c a)) = true ->
    turn_spec a (Ok (Some (completed (get_final_answer (tool_manager (after_tool c a))))))
      (with_fake_turn (get_final_answer (tool_manager (after_tool c a))) (after_tool c a))
| Turn_continue ps c :
    validate_tools (get_tools (tool_manager a)) = Ok ps ->
    interrupted a = false ->
    tool_calls_of (response_of a) = [c] ->
    interrupted (after_model a) = false ->
    should_stop (tool_manager (after_tool c a)) = false ->
    turn_spec a (Ok None) (after_tool c a).

(** What [run_impl] can return, read against the agent [a'] it leaves. *)
Definition normal_outcome (out : ToolImplOutput) (a' : FunctionCallAgent) : Prop :=
  (should_stop (tool_manager a') = true
   /\ out = completed (get_final_answer (tool_manager a')))
  \/ out = completed EmptyString
  \/ out = same_message MAX_TURNS_MESSAGE
  \/ out = same_message AGENT_INTERRUPT_MESSAGE
  \/ out = same_message TOOL_RESULT_INTERRUPT_MESSAGE.

(** What the loop itself can raise, for an agent with the tools of [a]. *)
Definition loop_error (a : FunctionCallAgent) (e : exn) : Prop :=
  (exists x, e = duplicated x /\ 2 <= count_occ string_dec (tool_names a) x)
  \/ e = ValueError "Only one tool call per turn is supported".

(** A run ended by an interruption. *)
Definition interruption (out : ToolImplOutput) : Prop :=
  out = same_message AGENT_INTERRUPT_MESSAGE
  \/ out = same_message TOOL_RESULT_INTERRUPT_MESSAGE.

(** The agent as the loop of [run_impl] finds it: the user prompt
    appended, the flag reset. *)
Definition entered (tool_input : ToolInput) (a : FunctionCallAgent) : FunctionCallAgent :=
  set_interrupted false
    (set_history
       (history_add_user_prompt (fst (user_prompt tool_input)) (snd (user_prompt tool_input))
          (history a))
       a).

End Agent.

(** ** The event consumer [_process_messages] *)

(** What lies outside the agent on the consumer's side: the rows
    [Events.save_event] has written, and the events [websocket.send_json]
    has delivered. *)
Record Outside : Type := {
  events_table : list (string * RealtimeEvent);
  wire : list RealtimeEvent
}.

(** One [message_queue.get()]: the message, and what the database and
    the transport do when handed it ([None]: the call succeeds). *)
Record Delivery : Type := {
  message : RealtimeEvent;
  save_raises : option exn;
  send_raises : option exn
}.

Definition Consumer := M (FunctionCallAgent * Outside).

(** [Events.save_event(self.session_id, message)]. *)
Definition save_event (sid : string) (d : Delivery) : Consumer unit :=
  fun s =>
    match save_raises d with
    | Some e => (Raise e, s)
    | None =>
        (Ok tt, (fst s, {| events_table := events_table (snd s) ++ [(sid, message d)];
                           wire := wire (snd s) |}))
    end.

(** [await self.websocket.send_json(message.model_dump())]. *)
Definition send_json (d : Delivery) : Consumer unit :=
  fun s =>
    match send_raises d with
    | Some e => (Raise e, s)
    | None =>
        (Ok tt, (fst s, {| events_table := events_table (snd s);
                           wire := wire (snd s) ++ [message d] |}))
    end.

Definition is_some {A} (o : option A) : bool :=
  match o with
  | Some _ => true
  | None => false
  end.

(** The body of the inner [try]: persist, then forward. *)
Definition handle_message (d : Delivery) : Consumer unit :=
  s <- get;;
  match session_id (fst s) with
  | Some sid => save_event sid d
  | None => ret tt
  end;;
  s <- get;;
  (if negb (EventType_eqb (type (message d)) USER_MESSAGE) && is_some (websocket (fst s))
   then
     try_except (send_json d)
       (fun e =>
          if is_Exception e
          then Some (modify (fun s => (set_websocket None (fst s), snd s)))
          else None)
   else ret tt);;
  ret tt (* task_done *).

(** One round of the [while True] loop: [true] to go on, [false] for
    [break].  [except asyncio.CancelledError: break], then
    [except Exception: log]. *)
Definition process_one (d : Delivery) : Consumer bool :=
  try_except (handle_message d;; ret true)
    (fun e =>
       match e with
       | CancelledError => Some (ret false)
       | _ => Some (ret true)
       end).

(** The [while True] loop over what the queue delivers; when nothing is
    left the pending [get()] ends with the task's cancellation, which is
    the [break]. *)
Fixpoint process_loop (deliveries : list Delivery) : Consumer unit :=
  match deliveries with
  | [] => ret tt
  | d :: rest =>
      continue <- process_one d;;
      if continue then process_loop rest else ret tt
  end.

(** [_process_messages]: both clauses of the outer [try] log and fall
    through to the end of the function. *)
Definition _process_messages (deliveries : list Delivery) : Consumer unit :=
  try_except (process_loop deliveries) (fun _ => Some (ret tt)).

(** The database with one more row. *)
Definition saved (sid : string) (m : RealtimeEvent) (o : Outside) : Outside :=
  {| events_table := events_table o ++ [(sid, m)]; wire := wire o |}.

(** ** Concrete agents and worlds *)

Definition demo_call (id : string) : ToolCallParameters :=
  {| tool_call_id := id; tool_name := "bash"; tool_input := [("command", "ls")] |}.

Definition demo_tool (nm : string) : LLMTool :=
  {| get_tool_param := {| name := nm; input_schema := "{}" |} |}.

(** A world that answers from two scripts, and keeps the whole Ledger. *)
Definition scripted (gens : list GenerateStep) (tool_steps : list ToolStep) : World :=
  {| COMPLETE_MESSAGE := "Completed the task.";
     truncate := fun ts => ts;
     relative_path := fun f => f;
     workspace_path := fun f => f;
     encode_image := fun f => f;
     on_generate := fun n => nth n gens {| gen_blocks := []; gen_cancelled := false |};
     on_run_tool := fun n _ =>
       nth n tool_steps {| tool_text := "ok"; tool_stop := None; tool_cancelled := false |} |}.

Definition says (blocks : list Block) : GenerateStep :=
  {| gen_blocks := blocks; gen_cancelled := false |}.

Definition fresh_agent (tool_list : list LLMTool) (turn_budget : Z) : FunctionCallAgent :=
  init tool_list {| turns := []; appended := [] |} (Some "session") turn_budget (Some 0).

Definition hello : ToolInput := {| instruction := "hello"; files := None |}.
(** ** Runs whose collaborators may raise *)

(** The tool input as the dict it is: what it has under [instruction]
    and under [files], [None] for a key it does not have.  The input
    schema of the agent requires [instruction] only.  What is there is
    of the type [run_agent_async] puts there: a string, and [None] or a
    list of file names. *)
Record InputDict : Type := {
  dict_instruction : option string;
  dict_files : option (option (list string))
}.

Definition dict_of (tool_input : ToolInput) : InputDict :=
  {| dict_instruction := Some (instruction tool_input);
     dict_files := Some (files tool_input) |}.

(** What the collaborators of [run_impl] raise, [None] where the call
    returns: the workspace manager asked for the relative path of a
    file; [workspace_path] and [encode_image] for a picture; the call
    number [n] of the model client, the system prompt and the projected
    messages it is given included; the call number [n] of the executor.
    A cancellation of the task comes out of the two awaits the same way.
    [run_impl] has no [try]. *)
Record Faults : Type := {
  relative_path_raises : string -> option exn;
  encode_image_raises : string -> option exn;
  generate_raises : nat -> option exn;
  run_tool_raises : nat -> ToolCallParameters -> option exn
}.

(** Collaborators that never raise. *)
Definition quiet (F : Faults) : Prop :=
  (forall file, relative_path_raises F file = None)
  /\ (forall file, encode_image_raises F file = None)
  /\ (forall n, generate_raises F n = None)
  /\ (forall n call, run_tool_raises F n call = None).

(** The first exception of a loop of calls, one per element. *)
Fixpoint first_raise {A} (raises : A -> option exn) (l : list A) : option exn :=
  match l with
  | [] => None
  | x :: rest =>
      match raises x with
      | Some e => Some e
      | None => first_raise raises rest
      end
  end.

Section Faulty.

Variable W : World.
Variable F : Faults.

(** The files [run_impl] encodes. *)
Definition is_picture (file : string) : bool :=
  match image_block_of W file with
  | [] => false
  | _ :: _ => true
  end.

(** The user prompt, when the workspace manager and the encoder may
    raise: the first loop asks for the relative path of every file, the
    second encodes the pictures. *)
Definition user_prompt_with (tool_input : ToolInput) : result (string * list ImageBlock) :=
  match files tool_input with
  | None | Some [] => Ok (user_prompt W tool_input)
  | Some fs =>
      match first_raise (relative_path_raises F) fs with
      | Some e => Raise e
      | None =>
          match first_raise (encode_image_raises F) (filter is_picture fs) with
          | Some e => Raise e
          | None => Ok (user_prompt W tool_input)
          end
      end
  end.

(** The call of the model client, when it may raise: the exception
    comes out of the [await]. *)
Definition client_generate_with (all_tool_params : list ToolParam) : Agent (list Block) :=
  fun a =>
    match generate_raises F (generate_calls a) with
    | Some e => (Raise e, snd (client_generate W all_tool_params a))
    | None => client_generate W all_tool_params a
    end.

(** The call of the executor, when it may raise. *)
Definition run_tool_with (tool_call : ToolCallParameters) : Agent string :=
  fun a =>
    match run_tool_raises F (List.length (run_tool_calls (tool_manager a))) tool_call with
    | Some e => (Raise e, snd (run_tool W tool_call a))
    | None => run_tool W tool_call a
    end.

(** The body of the loop of [run_impl], as [turn], with these calls. *)
Definition turn_with : Agent (option ToolImplOutput) :=
  modify (fun a => set_history (history_truncate W (history a)) a);;
  all_tool_params <- _validate_tool_parameters;;
  a <- get;;
  if interrupted a then
    add_fake_assistant_turn AGENT_INTERRUPT_FAKE_MODEL_RSP;;
    ret (Some (same_message AGENT_INTERRUPT_MESSAGE))
  else
    model_response <- client_generate_with all_tool_params;;
    let model_response :=
      match model_response with
      | [] => [TextResult (COMPLETE_MESSAGE W)]
      | _ :: _ => model_response
      end in
    modify (fun a => set_history (history_add_assistant_turn model_response (history a)) a);;
    a <- get;;
    let pending_tool_calls := history_get_pending_tool_calls (history a) in
    emit_all (thinking_events model_response);;
    match pending_tool_calls with
    | [] =>
        put_nowait {| type := AGENT_RESPONSE; content := text_content "Task completed" |};;
        ret (Some (completed EmptyString))
    | _ :: _ :: _ =>
        raise (ValueError "Only one tool call per turn is supported")
    | [tool_call] =>
        put_nowait {| type := TOOL_CALL;
                      content := [("tool_call_id", VStr (tool_call_id tool_call));
                                  ("tool_name", VStr (tool_name tool_call));
                                  ("tool_input", VObj (tool_input tool_call))] |};;
        a <- get;;
        if interrupted a then
          add_tool_call_result tool_call TOOL_RESULT_INTERRUPT_MESSAGE;;
          add_fake_assistant_turn TOOL_CALL_INTERRUPT_FAKE_MODEL_RSP;;
          ret (Some (same_message TOOL_RESULT_INTERRUPT_MESSAGE))
        else
          tool_result <- run_tool_with tool_call;;
          add_tool_call_result tool_call tool_result;;
          a <- get;;
          if should_stop (tool_manager a) then
            add_fake_assistant_turn (get_final_answer (tool_manager a));;
            ret (Some (completed (get_final_answer (tool_manager a))))
          else ret None
    end.

Fixpoint turns_loop_with (remaining_turns : nat) : Agent ToolImplOutput :=
  match remaining_turns with
  | O =>
      put_nowait {| type := AGENT_RESPONSE; content := text_content MAX_TURNS_MESSAGE |};;
      ret (same_message MAX_TURNS_MESSAGE)
  | S remaining_turns' =>
      r <- turn_with;;
      match r with
      | Some out => ret out
      | None => turns_loop_with remaining_turns'
      end
  end.

(** [run_impl] on the dict it is given, with collaborators that may
    raise.  The two subscripts come first; a missing key is a
    [KeyError] (an exception of a class other than [ValueError] is an
    [Exception] with the name of its class). *)
Definition run_impl_with (tool_input : InputDict) : Agent ToolImplOutput :=
  match dict_instruction tool_input with
  | None => raise (Exception "KeyError")
  | Some instruction =>
      match dict_files tool_input with
      | None => raise (Exception "KeyError")
      | Some files =>
          match user_prompt_with {| instruction := instruction; files := files |} with
          | Raise e => raise e
          | Ok (instruction, image_blocks) =>
              modify (fun a =>
                        set_history
                          (history_add_user_prompt instruction image_blocks (history a)) a);;
              modify (set_interrupted false);;
              a <- get;;
              turns_loop_with (Z.to_nat (max_turns a))
          end
      end
  end.

End Faulty.

(** What a collaborator raised. *)
Definition collaborator_error (F : Faults) (e : exn) : Prop :=
  (exists file, relative_path_raises F file = Some e \/ encode_image_raises F file = Some e)
  \/ (exists n, generate_raises F n = Some e)
  \/ (exists n call, run_tool_raises F n call = Some e).


(** ** Reading the events of a run *)

(** The two event types that close a run for its observers. *)
Definition is_response (e : RealtimeEvent) : bool :=
  match type e with
  | AGENT_RESPONSE | AGENT_RESPONSE_INTERRUPTED => true
  | _ => false
  end.

Definition from_client (e : RealtimeEvent) : bool :=
  EventType_eqb (type e) USER_MESSAGE.

(** In a sequence of events that comes after [prev]: every tool-result
    event comes right after the tool-call event of the same call, and
    every tool-call event is followed at once by a tool-result event of
    that call. *)
Fixpoint paired (prev : option RealtimeEvent) (events : list RealtimeEvent) : Prop :=
  match events with
  | [] => True
  | e :: rest =>
      match type e with
      | TOOL_RESULT =>
          exists c text, prev = Some (tool_call_event c) /\ e = tool_result_event c text
      | TOOL_CALL =>
          exists c text rest',
            e = tool_call_event c /\ rest = tool_result_event c text :: rest'
      | _ => True
      end
      /\ paired (Some e) rest
  end.

(** ** Reading file names and prompts *)

(** A string without a dot. *)
Definition no_dot (s : string) : bool :=
  forallb (fun c => negb (Ascii.eqb c "."%char)) (list_ascii_of_string s).

(** The extensions [run_impl] takes for pictures. *)
Definition picture_extensions : list string := ["png"; "gif"; "jpeg"; "webp"; "jpg"].

Definition number_of_files (tool_input : ToolInput) : nat :=
  match files tool_input with
  | None => 0
  | Some fs => List.length fs
  end.

Definition is_byte (u : Piece) : bool :=
  match u with
  | Byte _ => true
  | Space _ => false
  end.

(** A word: not empty and without white space. *)
Definition is_word (w : string) : Prop :=
  w <> EmptyString /\ forallb is_byte (pieces (list_ascii_of_string w)) = true.

(** The second and later bytes of the encoding of a character. *)
Definition continuation (c : ascii) : bool :=
  ((128 <=? nat_of_ascii c) && (nat_of_ascii c <? 192))%nat.

(** U+00A0, the no-break space. *)
Definition no_break_space : string :=
  String (ascii_of_nat 194) (String (ascii_of_nat 160) EmptyString).

(** A string that does not go on in the middle of a character. *)
Definition fresh_start (s : list ascii) : Prop :=
  forall c rest, s = c :: rest -> continuation c = false.

Definition all_space (us : list Piece) : Prop := Forall (fun u => is_byte u = false) us.

(** A piece as [pieces] makes them: its white space is a white-space
    character. *)
Definition proper (u : Piece) : Prop :=
  match u with
  | Space bytes => In bytes white_space
  | Byte _ => True
  end.

(** ** The search clients of [tools/clients/web_search_client.py] *)

#[local] Set Warnings "-register-all".

(** A parsed JSON value.  Numbers are integers here. *)
Inductive json : Type :=
| JNull
| JBool (b : bool)
| JNum (n : Z)
| JStr (s : string)
| JList (items : list json)
| JDict (fields : list (string * json)).

(** The truth value Python gives a parsed JSON value. *)
Definition truthy (v : json) : bool :=
  match v with
  | JNull => false
  | JBool b => b
  | JNum n => negb (n =? 0)%Z
  | JStr s => negb (String.eqb s EmptyString)
  | JList items => negb (Nat.eqb (List.length items) 0)
  | JDict fields => negb (Nat.eqb (List.length fields) 0)
  end.

(** The value of a key in an object (the keys of a parsed object are
    distinct). *)
Fixpoint lookup (key : string) (fields : list (string * json)) : option json :=
  match fields with
  | [] => None
  | (k, v) :: rest => if String.eqb k key then Some v else lookup key rest
  end.

(** [v[key]] for a string key: only an object can be subscripted by a
    string, and the key must be there. *)
Definition subscript (v : json) (key : string) : result json :=
  match v with
  | JDict fields =>
      match lookup key fields with
      | Some x => Ok x
      | None => Raise (Exception "KeyError")
      end
  | _ => Raise (Exception "TypeError")
  end.

(** [v.get(key, default)]: only an object has the method. *)
Definition get_default (v : json) (key : string) (default : json) : result json :=
  match v with
  | JDict fields =>
      match lookup key fields with
      | Some x => Ok x
      | None => Ok default
      end
  | _ => Raise (Exception "AttributeError")
  end.

(** What [for x in v] ranges over: the items of a list, the keys of an
    object, the characters of a string; nothing else can be iterated. *)
Definition iterate (v : json) : result (list json) :=
  match v with
  | JList items => Ok items
  | JDict fields => Ok (map (fun kv => JStr (fst kv)) fields)
  | JStr s => Ok (map (fun c => JStr (String c EmptyString)) (list_ascii_of_string s))
  | _ => Raise (Exception "TypeError")
  end.

Definition and_then {A B} (m : result A) (k : A -> result B) : result B :=
  match m with
  | Ok x => k x
  | Raise e => Raise e
  end.

(** [try: body except Exception: return fallback]. *)
Definition except_Exception {A} (body : result A) (fallback : A) : result A :=
  match body with
  | Ok x => Ok x
  | Raise e => if is_Exception e then Ok fallback else Raise e
  end.

(** What the GET request of a client comes to: the request itself
    raises, or there is a response with its status and what
    [response.json()] gives. *)
Inductive Http : Type :=
| Unreachable (e : exn)
| Response (status : Z) (body : result json).

(** One search result as the clients return it: a dict. *)
Definition SearchResult := list (string * json).

(** The loop of [SerpAPISearchClient._search_query_by_serp_api] over the
    organic results. *)
Fixpoint serp_results (max_results results_processed : Z) (results : list json)
    (search_response : list SearchResult) : result (list SearchResult) :=
  match results with
  | [] => Ok search_response
  | result :: rest =>
      if (results_processed >=? max_results)%Z then Ok search_response
      else
        and_then (subscript result "title") (fun title =>
        and_then (subscript result "link") (fun link =>
        and_then (subscript result "snippet") (fun snippet =>
          serp_results max_results (results_processed + 1) rest
            (search_response
               ++ [[("title", title); ("url", link); ("content", snippet)]]))))
  end.

(** [SerpAPISearchClient._search_query_by_serp_api], given what its GET
    request comes to. *)
Definition _search_query_by_serp_api (max_results : Z) (http : Http)
    : result (list SearchResult) :=
  except_Exception
    match http with
    | Unreachable e => Raise e
    | Response status body =>
        if (status =? 200)%Z then
          and_then body (fun search_results =>
            if truthy search_results then
              and_then (subscript search_results "organic_results") (fun results =>
              and_then (iterate results) (fun items =>
                serp_results max_results 0 items []))
            else Ok [])
        else Ok []
    end
    [].

(** The loop of [JinaSearchClient._search_query_by_jina] over the
    results. *)
Fixpoint jina_results (search_results : list json)
    (search_response : list SearchResult) : result (list SearchResult) :=
  match search_results with
  | [] => Ok search_response
  | result :: rest =>
      and_then (get_default result "title" (JStr EmptyString)) (fun title =>
      and_then (get_default result "url" (JStr EmptyString)) (fun url =>
      and_then (get_default result "description" (JStr EmptyString)) (fun description =>
        jina_results rest
          (search_response
             ++ [[("title", title); ("url", url); ("content", description)]]))))
  end.

(** [JinaSearchClient._search_query_by_jina]: without an API key no
    request is made; [http] is what the request comes to otherwise. *)
Definition _search_query_by_jina (api_key : string) (http : Http)
    : result (list SearchResult) :=
  if String.eqb api_key EmptyString then Ok []
  else
    except_Exception
      match http with
      | Unreachable e => Raise e
      | Response status body =>
          if (status =? 200)%Z then
            and_then body (fun search_results_data =>
            and_then (subscript search_results_data "data") (fun search_results =>
              if truthy search_results then
                and_then (iterate search_results) (fun items => jina_results items [])
              else Ok []))
          else Ok []
      end
      [].

(** What the factories read of the settings: [settings.search_config]
    and its three optional secrets.  The class [Settings]
    ([ii_agent.core.storage.models.settings]) is not among the sources;
    a secret is kept as the string [get_secret_value()] gives, and an
    empty secret is false as a condition. *)
Record SearchConfig : Type := {
  serpapi_api_key : option string;
  jina_api_key : option string;
  tavily_api_key : option string
}.

Record Settings : Type := {
  search_config : option SearchConfig
}.

(** The client [create_search_client] builds. *)
Inductive SearchClient : Type :=
| SerpAPISearchClient (max_results : Z) (api_key : string)
| JinaSearchClient (max_results : Z) (api_key : string)
| TavilySearchClient (max_results : Z) (api_key : string)
| DuckDuckGoSearchClient (max_results : Z).

(** [key.get_secret_value() if key else None]. *)
Definition secret_value (key : option string) : option string :=
  match key with
  | Some s => if String.eqb s EmptyString then None else Some s
  | None => None
  end.

(** The key of one provider: from the settings, else from the
    environment, the empty string when it is in neither. *)
Definition api_key_of (settings : option Settings) (field : SearchConfig -> option string)
    (environ : string -> option string) (variable : string) : string :=
  let key :=
    match settings with
    | Some s =>
        match search_config s with
        | Some config => secret_value (field config)
        | None => None
        end
    | None => None
    end in
  match key with
  | Some k => if String.eqb k EmptyString
              then match environ variable with Some v => v | None => EmptyString end
              else k
  | None => match environ variable with Some v => v | None => EmptyString end
  end.

(** What building the DuckDuckGo client comes to: the package
    [duckduckgo_search] cannot be imported, or [DDGS], called with the
    further keywords of the factory, raises, or the client is built. *)
Inductive DDGS : Type :=
| Missing
| Refuses (e : exn)
| Built.

(** The call of [DuckDuckGoSearchClient] with [max_results] and the
    further keywords: [DuckDuckGoSearchClient.__init__].  An exception
    of a class other than [ValueError] is an [Exception] with the name
    of its class. *)
Definition DuckDuckGoSearchClient_init (ddgs : DDGS) (max_results : Z)
    : result SearchClient :=
  match ddgs with
  | Missing => Raise (Exception "ImportError")
  | Refuses e => Raise e
  | Built => Ok (DuckDuckGoSearchClient max_results)
  end.

(** A call of a client class with [max_results], [api_key] and the
    further keywords the factory was given, of which [kwargs] are the
    names.  A keyword given twice is a [TypeError]; the constructors
    take the other keywords and do not read them. *)
Definition with_api_key {A} (kwargs : list string) (client : A) : result A :=
  if mem_string "api_key" kwargs then Raise (Exception "TypeError") else Ok client.

(** [create_search_client]. *)
Definition create_search_client (settings : option Settings)
    (environ : string -> option string) (ddgs : DDGS) (kwargs : list string)
    (max_results : Z) : result SearchClient :=
  let serpapi_key := api_key_of settings serpapi_api_key environ "SERPAPI_API_KEY" in
  let jina_key := api_key_of settings jina_api_key environ "JINA_API_KEY" in
  let tavily_key := api_key_of settings tavily_api_key environ "TAVILY_API_KEY" in
  if negb (String.eqb serpapi_key EmptyString)
  then with_api_key kwargs (SerpAPISearchClient max_results serpapi_key)
  else if negb (String.eqb jina_key EmptyString)
  then with_api_key kwargs (JinaSearchClient max_results jina_key)
  else if negb (String.eqb tavily_key EmptyString)
  then with_api_key kwargs (TavilySearchClient max_results tavily_key)
  else DuckDuckGoSearchClient_init ddgs max_results.

Record ImageSearchClient : Type := {
  image_max_results : Z;
  image_api_key : string
}.

(** [create_image_search_client]. *)
Definition create_image_search_client (settings : option Settings)
    (environ : string -> option string) (kwargs : list string) (max_results : Z)
    : result (option ImageSearchClient) :=
  let serpapi_key := api_key_of settings serpapi_api_key environ "SERPAPI_API_KEY" in
  if negb (String.eqb serpapi_key EmptyString)
  then and_then
         (with_api_key kwargs
            {| image_max_results := max_results; image_api_key := serpapi_key |})
         (fun client => Ok (Some client))
  else Ok None.

(** A provider has a key: a non-empty secret in the settings, or a
    non-empty variable in the environment. *)
Definition has_key (settings : option Settings) (field : SearchConfig -> option string)
    (environ : string -> option string) (variable : string) : Prop :=
  (exists s config v,
     settings = Some s /\ search_config s = Some config
     /\ field config = Some v /\ v <> EmptyString)
  \/ (exists v, environ variable = Some v /\ v <> EmptyString).

(** The entry of the result list made from one organic result. *)
Definition serp_entry (result : json) (entry : SearchResult) : Prop :=
  exists title link snippet,
    subscript result "title" = Ok title
    /\ subscript result "link" = Ok link
    /\ subscript result "snippet" = Ok snippet
    /\ entry = [("title", title); ("url", link); ("content", snippet)].

(** The field of a Jina result, the empty string when it is missing. *)
Definition field_or_empty (key : string) (fields : list (string * json)) : json :=
  match lookup key fields with
  | Some v => v
  | None => JStr EmptyString
  end.

Definition jina_entry (fields : list (string * json)) : SearchResult :=
  [("title", field_or_empty "title" fields);
   ("url", field_or_empty "url" fields);
   ("content", field_or_empty "description" fields)].

(** * Properties *)

(** ** The order on names *)

Lemma ascii_compare_trans (x y z : ascii) (c : comparison) :
  Ascii.compare x y = c -> Ascii.compare y z = c -> Ascii.compare x z = c.
Proof.
  unfold Ascii.compare. destruct c; intros H1 H2.
  - apply N.compare_eq_iff in H1. apply N.compare_eq_iff in H2.
    apply N.compare_eq_iff. congruence.
  - apply N.compare_lt_iff in H1. apply N.compare_lt_iff in H2.
    apply N.compare_lt_iff. eapply N.lt_trans; eassumption.
  - apply N.compare_gt_iff in H1. apply N.compare_gt_iff in H2.
    apply N.compare_gt_iff. eapply N.lt_trans; eassumption.
Qed.

Lemma string_leb_trans (a b c : string) :
  String.leb a b = true -> String.leb b c = true -> String.leb a c = true.
Proof.
  unfold String.leb. revert b c.
  induction a as [|x a IH]; intros [|y b] [|z c]; simpl; try congruence.
  destruct (Ascii.compare x y) eqn:Hxy; destruct (Ascii.compare y z) eqn:Hyz;
    try congruence; intros H1 H2.
  - apply Ascii.compare_eq_iff in Hxy. apply Ascii.compare_eq_iff in Hyz. subst.
    replace (Ascii.compare z z) with Eq
      by (symmetry; unfold Ascii.compare; apply N.compare_refl).
    now apply IH with b.
  - apply Ascii.compare_eq_iff in Hxy. subst. now rewrite Hyz.
  - apply Ascii.compare_eq_iff in Hyz. subst. now rewrite Hxy.
  - now rewrite (ascii_compare_trans _ _ _ Hxy Hyz).
Qed.

(** ** The Ledger *)

Lemma invocations_app (ts1 ts2 : list Turn) :
  invocations (ts1 ++ ts2) = invocations ts1 ++ invocations ts2.
Proof.
  induction ts1 as [|t ts1 IH]; simpl; [reflexivity|].
  destruct t; simpl; rewrite IH; auto using app_assoc.
Qed.

Lemma answered_app (ts1 ts2 : list Turn) :
  answered (ts1 ++ ts2) = answered ts1 ++ answered ts2.
Proof.
  induction ts1 as [|t ts1 IH]; simpl; [reflexivity|].
  destruct t; simpl; rewrite IH; reflexivity.
Qed.

Lemma mem_string_In (x : string) (l : list string) :
  mem_string x l = true <-> In x l.
Proof.
  unfold mem_string. rewrite existsb_exists. split.
  - intros [y [Hy Heq]]. apply String.eqb_eq in Heq. now subst.
  - intros H. exists x. split; [assumption|apply String.eqb_refl].
Qed.

Lemma filter_all {A} (f : A -> bool) (l : list A) :
  (forall x, In x l -> f x = true) -> filter f l = l.
Proof.
  induction l as [|x l IH]; simpl; intros H; [reflexivity|].
  rewrite (H x (or_introl eq_refl)). f_equal. apply IH. auto.
Qed.

Lemma pending_after_assistant_turn (blocks : list Block) (h : MessageHistory) :
  history_get_pending_tool_calls (history_add_assistant_turn blocks h)
  = tool_calls_of blocks.
Proof.
  unfold history_get_pending_tool_calls, history_add_assistant_turn, append_turn.
  simpl. rewrite rev_unit. simpl. apply filter_all. reflexivity.
Qed.

(** ** Duplicate detection *)

Lemma string_leb_transitive : Transitive (fun x y : string => is_true (String.leb x y)).
Proof. intros x y z. apply string_leb_trans. Qed.

Lemma sorted_strongly (names : list string) :
  StronglySorted (fun x y => is_true (String.leb x y)) (sorted names).
Proof. apply StringSort.StronglySorted_sort, string_leb_transitive. Qed.

Lemma sorted_permutation (names : list string) : Permutation names (sorted names).
Proof. apply StringSort.Permuted_sort. Qed.

Lemma check_adjacent_spec (l : list string) :
  StronglySorted (fun x y => is_true (String.leb x y)) l ->
  match check_adjacent l with
  | Ok _ => NoDup l
  | Raise e => exists x, e = duplicated x /\ 2 <= count_occ string_dec l x
  end.
Proof.
  induction 1 as [|a l Hs IH Hall]; simpl; [constructor|].
  destruct l as [|b l]; [repeat constructor; auto|].
  destruct (String.eqb a b) eqn:Hab.
  - apply String.eqb_eq in Hab. subst b. exists a. split; [reflexivity|].
    simpl. destruct (string_dec a a); [lia|congruence].
  - apply String.eqb_neq in Hab.
    destruct (check_adjacent (b :: l)) as [u|e].
    + constructor; [|exact IH]. intros Hin.
      assert (Hba : is_true (String.leb b a)).
      { destruct Hin as [Heq|Hin]; [congruence|].
        inversion Hs as [|? ? _ Hbl]; subst.
        rewrite Forall_forall in Hbl. now apply Hbl. }
      inversion Hall as [|? ? Hle _]; subst.
      apply Hab. now apply String.leb_antisym.
    + destruct IH as [x [He Hx]]. exists x. split; [exact He|].
      change (count_occ string_dec (a :: b :: l) x)
        with (if string_dec a x then S (count_occ string_dec (b :: l) x)
              else count_occ string_dec (b :: l) x).
      destruct (string_dec a x); lia.
Qed.

Lemma validate_tools_spec (tool_list : list LLMTool) :
  let names := map name (map get_tool_param tool_list) in
  match validate_tools tool_list with
  | Ok ps => ps = map get_tool_param tool_list /\ NoDup names
  | Raise e => exists x, e = duplicated x /\ 2 <= count_occ string_dec names x
  end.
Proof.
  intros names. unfold validate_tools. fold names.
  pose proof (check_adjacent_spec (sorted_strongly names)) as H.
  pose proof (sorted_permutation names) as Hp.
  destruct (check_adjacent (sorted names)) as [u|e].
  - split; [reflexivity|]. apply Permutation_NoDup with (sorted names); [|exact H].
    now apply Permutation_sym.
  - destruct H as [x [He Hx]]. exists x. split; [exact He|].
    rewrite (proj1 (Permutation_count_occ string_dec _ _) Hp x). exact Hx.
Qed.

Lemma validate_tools_NoDup (tool_list : list LLMTool) :
  NoDup (map name (map get_tool_param tool_list)) ->
  validate_tools tool_list = Ok (map get_tool_param tool_list).
Proof.
  intros Hnd. pose proof (validate_tools_spec tool_list) as H. simpl in H.
  destruct (validate_tools tool_list) as [ps|e].
  - destruct H as [-> _]. reflexivity.
  - destruct H as [x [_ Hx]].
    rewrite (NoDup_count_occ string_dec) in Hnd. specialize (Hnd x). lia.
Qed.

Lemma check_adjacent_raises (l : list string) :
  (exists e, check_adjacent l = Raise e) <-> exists l1 x l2, l = l1 ++ x :: x :: l2.
Proof.
  induction l as [|a l IH].
  - split; [intros [e He]; discriminate|intros [[|y l1] [x [l2 H]]]; discriminate].
  - destruct l as [|b l].
    + split; [intros [e He]; discriminate|].
      intros [[|y [|z l1]] [x [l2 H]]]; discriminate.
    + cbn [check_adjacent]. destruct (String.eqb a b) eqn:Hab.
      * apply String.eqb_eq in Hab. subst b. split; [|eauto].
        intros _. now exists [], a, l.
      * apply String.eqb_neq in Hab. rewrite IH. split.
        -- intros [l1 [x [l2 H]]]. exists (a :: l1), x, l2. simpl. now rewrite H.
        -- intros [[|y l1] [x [l2 H]]]; injection H as -> H.
           ++ congruence.
           ++ now exists l1, x, l2.
Qed.

(** ** One turn, case by case *)

Arguments client_generate : simpl never.
Arguments run_tool : simpl never.
Arguments add_tool_call_result : simpl never.
Arguments add_fake_assistant_turn : simpl never.
Arguments put_nowait : simpl never.
Arguments emit_all : simpl never.
Arguments history_get_pending_tool_calls : simpl never.
Arguments history_add_assistant_turn : simpl never.
Arguments history_add_tool_call_result : simpl never.
Arguments history_truncate : simpl never.
Arguments thinking_events : simpl never.
Arguments tool_calls_of : simpl never.
Arguments after_model : simpl never.
Arguments after_tool : simpl never.

(** Reading the fields of the states of a turn. *)
Ltac states :=
  unfold after_tool, after_model, with_fake_turn, with_tool_result, with_assistant_turn,
    emitted, truncated, generated, run_tool, cancel, response_event,
    history_add_assistant_turn, history_truncate, append_turn;
  cbn;
  repeat match goal with
         | |- context [if ?b then _ else _] => destruct b; cbn
         end.

Section Turn.

Variable W : World.

Lemma put_nowait_eq (e : RealtimeEvent) (a : FunctionCallAgent) :
  put_nowait e a = (Ok tt, emitted [e] a).
Proof. reflexivity. Qed.

Lemma emit_all_eq (events : list RealtimeEvent) (a : FunctionCallAgent) :
  emit_all events a = (Ok tt, emitted events a).
Proof. reflexivity. Qed.

Lemma add_fake_assistant_turn_eq (text : string) (a : FunctionCallAgent) :
  add_fake_assistant_turn text a = (Ok tt, with_fake_turn text a).
Proof. reflexivity. Qed.

Lemma client_generate_eq (ps : list ToolParam) (a : FunctionCallAgent) :
  client_generate W ps a = (Ok (gen_blocks (on_generate W (generate_calls a))), generated W a).
Proof. reflexivity. Qed.

Lemma run_tool_eq (c : ToolCallParameters) (a : FunctionCallAgent) :
  run_tool W c a = (Ok (tool_text (tool_step_of W c a)), snd (run_tool W c a)).
Proof. reflexivity. Qed.

Lemma add_tool_call_result_eq (c : ToolCallParameters) (text : string)
    (a : FunctionCallAgent) :
  In (tool_call_id c) (map tool_call_id (invocations (turns (history a)))) ->
  add_tool_call_result c text a = (Ok tt, with_tool_result c text a).
Proof.
  intros Hin. unfold add_tool_call_result, bind, history_add_tool_call_result.
  apply mem_string_In in Hin. rewrite Hin. reflexivity.
Qed.

Lemma generated_history (a : FunctionCallAgent) : history (generated W a) = history a.
Proof. unfold generated. destruct (gen_cancelled _); reflexivity. Qed.

Lemma run_tool_history (c : ToolCallParameters) (a : FunctionCallAgent) :
  history (snd (run_tool W c a)) = history a.
Proof. unfold run_tool. simpl. destruct (tool_cancelled _); reflexivity. Qed.

Lemma invoked_after_model (c : ToolCallParameters) (a : FunctionCallAgent) :
  In c (tool_calls_of (response_of W a)) ->
  In (tool_call_id c)
     (map tool_call_id
        (invocations (turns (history (emitted [tool_call_event c] (after_model W a)))))).
Proof.
  intros Hin. apply in_map.
  unfold emitted, after_model, with_assistant_turn, history_add_assistant_turn, append_turn.
  cbn. rewrite invocations_app.
  apply in_or_app. right. simpl. rewrite app_nil_r. exact Hin.
Qed.

Ltac run_turn :=
  unfold turn, bind, modify, _validate_tool_parameters, get_tools, get, ret, raise; cbn.

Lemma turn_duplicate (a : FunctionCallAgent) (e : exn) :
  validate_tools (tools (tool_manager a)) = Raise e ->
  turn W a = (Raise e, truncated W a).
Proof. intros Hv. run_turn. rewrite Hv. reflexivity. Qed.

Lemma turn_interrupted (a : FunctionCallAgent) (ps : list ToolParam) :
  validate_tools (tools (tool_manager a)) = Ok ps ->
  interrupted a = true ->
  turn W a = (Ok (Some (same_message AGENT_INTERRUPT_MESSAGE)),
              with_fake_turn AGENT_INTERRUPT_FAKE_MODEL_RSP (truncated W a)).
Proof.
  intros Hv Hi. run_turn. rewrite Hv. cbn. rewrite Hi.
  rewrite add_fake_assistant_turn_eq. reflexivity.
Qed.

Lemma turn_model (a : FunctionCallAgent) (ps : list ToolParam) :
  validate_tools (tools (tool_manager a)) = Ok ps ->
  interrupted a = false ->
  turn W a =
  match tool_calls_of (response_of W a) with
  | [] => (Ok (Some (completed EmptyString)),
           emitted [{| type := AGENT_RESPONSE; content := text_content "Task completed" |}]
             (after_model W a))
  | [c] =>
      if interrupted (after_model W a)
      then (Ok (Some (same_message TOOL_RESULT_INTERRUPT_MESSAGE)),
            with_fake_turn TOOL_CALL_INTERRUPT_FAKE_MODEL_RSP
              (with_tool_result c TOOL_RESULT_INTERRUPT_MESSAGE
                 (emitted [tool_call_event c] (after_model W a))))
      else if should_stop (tool_manager (after_tool W c a))
      then (Ok (Some (completed (get_final_answer (tool_manager (after_tool W c a))))),
            with_fake_turn (get_final_answer (tool_manager (after_tool W c a))) (after_tool W c a))
      else (Ok None, after_tool W c a)
  | _ :: _ :: _ => (Raise (ValueError "Only one tool call per turn is supported"),
                    after_model W a)
  end.
Proof.
  intros Hv Hi. run_turn. rewrite Hv. cbn. rewrite Hi.
  rewrite client_generate_eq. cbn.
  change (match gen_blocks (on_generate W (generate_calls a)) with
          | [] => _ | _ :: _ => _ end) with (response_of W a).
  rewrite emit_all_eq, pending_after_assistant_turn.
  change (emitted _ (set_history _ _)) with (after_model W a).
  destruct (tool_calls_of (response_of W a)) as [|c [|c2 cs]] eqn:Hcalls.
  - rewrite put_nowait_eq. reflexivity.
  - rewrite put_nowait_eq.
    change {| type := TOOL_CALL; content := _ |} with (tool_call_event c).
    assert (Hin : In c (tool_calls_of (response_of W a)))
      by (rewrite Hcalls; left; reflexivity).
    change (interrupted (emitted [tool_call_event c] (after_model W a)))
      with (interrupted (after_model W a)).
    destruct (interrupted (after_model W a)).
    + rewrite add_tool_call_result_eq by (apply invoked_after_model, Hin).
      rewrite add_fake_assistant_turn_eq. reflexivity.
    + rewrite run_tool_eq.
      rewrite add_tool_call_result_eq
        by (rewrite run_tool_history; apply invoked_after_model, Hin).
      change (with_tool_result c _ _) with (after_tool W c a).
      destruct (should_stop (tool_manager (after_tool W c a))).
      * rewrite add_fake_assistant_turn_eq. reflexivity.
      * reflexivity.
  - reflexivity.
Qed.


Lemma turn_cases (a : FunctionCallAgent) :
  turn_spec W a (fst (turn W a)) (snd (turn W a)).
Proof.
  destruct (validate_tools (get_tools (tool_manager a))) as [ps|e] eqn:Hv.
  2: { rewrite (turn_duplicate a Hv). now constructor. }
  destruct (interrupted a) eqn:Hi.
  { rewrite (turn_interrupted a Hv Hi). now apply Turn_interrupted with ps. }
  rewrite (turn_model a Hv Hi).
  destruct (tool_calls_of (response_of W a)) as [|c [|c2 cs]] eqn:Hcalls.
  - now apply Turn_complete with ps.
  - destruct (interrupted (after_model W a)) eqn:Hi2.
    + now apply Turn_tool_interrupted with ps.
    + destruct (should_stop (tool_manager (after_tool W c a))) eqn:Hs.
      * now apply Turn_stop with ps.
      * now apply Turn_continue with ps.
  - now apply Turn_violation with ps c c2 cs.
Qed.

Lemma after_model_history (a : FunctionCallAgent) :
  history (after_model W a)
  = history_add_assistant_turn (response_of W a) (history_truncate W (history a)).
Proof. states; reflexivity. Qed.

Lemma after_model_tool_manager (a : FunctionCallAgent) :
  tool_manager (after_model W a) = tool_manager a.
Proof. states; reflexivity. Qed.

Lemma after_model_generate_calls (a : FunctionCallAgent) :
  generate_calls (after_model W a) = S (generate_calls a).
Proof. states; reflexivity. Qed.

Lemma after_model_interrupted (a : FunctionCallAgent) :
  interrupted (after_model W a)
  = (interrupted a || gen_cancelled (on_generate W (generate_calls a)))%bool.
Proof. states; try reflexivity; now destruct (interrupted a). Qed.

Lemma after_model_message_queue (a : FunctionCallAgent) :
  message_queue (after_model W a) = message_queue a ++ thinking_events (response_of W a).
Proof. states; reflexivity. Qed.

Lemma turn_generate_calls (a : FunctionCallAgent) :
  generate_calls a <= generate_calls (snd (turn W a)) <= S (generate_calls a).
Proof.
  destruct (turn_cases a); states; lia.
Qed.

(** ** The loop *)

Lemma turns_loop_S (n : nat) (a : FunctionCallAgent) :
  turns_loop W (S n) a =
  match turn W a with
  | (Ok (Some out), a') => (Ok out, a')
  | (Ok None, a') => turns_loop W n a'
  | (Raise e, a') => (Raise e, a')
  end.
Proof.
  cbn [turns_loop]. unfold bind.
  destruct (turn W a) as [[[out|]|e] a']; reflexivity.
Qed.

Lemma turns_loop_O (a : FunctionCallAgent) :
  turns_loop W 0 a =
  (Ok (same_message MAX_TURNS_MESSAGE),
   emitted [{| type := AGENT_RESPONSE; content := text_content MAX_TURNS_MESSAGE |}] a).
Proof. reflexivity. Qed.

Lemma loop_generate_calls (n : nat) (a : FunctionCallAgent) :
  generate_calls a <= generate_calls (snd (turns_loop W n a)) <= generate_calls a + n.
Proof.
  revert a. induction n as [|n IH]; intros a.
  - rewrite turns_loop_O. simpl. lia.
  - rewrite turns_loop_S. pose proof (turn_generate_calls a) as Ht.
    destruct (turn W a) as [[[out|]|e] a']; simpl in *; try lia.
    specialize (IH a'). lia.
Qed.

Lemma turn_tools (a : FunctionCallAgent) :
  get_tools (tool_manager (snd (turn W a))) = get_tools (tool_manager a).
Proof. destruct (turn_cases a); states; reflexivity. Qed.

Lemma response_of_calls (a : FunctionCallAgent) (c : ToolCallParameters)
    (cs : list ToolCallParameters) :
  tool_calls_of (gen_blocks (on_generate W (generate_calls a))) = c :: cs ->
  response_of W a = gen_blocks (on_generate W (generate_calls a)).
Proof.
  unfold response_of. destruct (gen_blocks _); [discriminate|reflexivity].
Qed.

Lemma tool_step_after_model (c : ToolCallParameters) (es : list RealtimeEvent)
    (a : FunctionCallAgent) :
  tool_step_of W c (emitted es (after_model W a)) = tool_step_of W c a.
Proof. unfold tool_step_of. states; reflexivity. Qed.

Lemma after_tool_tool_manager (c : ToolCallParameters) (a : FunctionCallAgent) :
  tool_manager (after_tool W c a) =
  {| tools := tools (tool_manager a);
     stop_signalled := match tool_stop (tool_step_of W c a) with
                       | Some _ => true
                       | None => stop_signalled (tool_manager a)
                       end;
     final_answer := match tool_stop (tool_step_of W c a) with
                     | Some answer => answer
                     | None => final_answer (tool_manager a)
                     end;
     run_tool_calls := run_tool_calls (tool_manager a) ++ [c] |}.
Proof. unfold tool_step_of. states; reflexivity. Qed.

Lemma after_tool_interrupted (c : ToolCallParameters) (a : FunctionCallAgent) :
  interrupted (after_tool W c a)
  = (interrupted (after_model W a) || tool_cancelled (tool_step_of W c a))%bool.
Proof.
  unfold after_tool. rewrite <- (tool_step_after_model c [tool_call_event c] a).
  unfold with_tool_result, emitted, run_tool, tool_step_of, cancel. cbn.
  destruct (tool_cancelled _); cbn; [now rewrite orb_true_r|now rewrite orb_false_r].
Qed.

Lemma after_tool_generate_calls (c : ToolCallParameters) (a : FunctionCallAgent) :
  generate_calls (after_tool W c a) = S (generate_calls a).
Proof. states; reflexivity. Qed.

Lemma after_tool_history (c : ToolCallParameters) (a : FunctionCallAgent) :
  history (after_tool W c a)
  = append_turn (ToolResultTurn (tool_call_id c) (tool_name c)
                   (tool_text (tool_step_of W c a)))
      (history (after_model W a)).
Proof. unfold tool_step_of. states; reflexivity. Qed.

Lemma after_tool_message_queue (c : ToolCallParameters) (a : FunctionCallAgent) :
  message_queue (after_tool W c a)
  = message_queue (after_model W a)
      ++ [tool_call_event c] ++ [tool_result_event c (tool_text (tool_step_of W c a))].
Proof. unfold tool_step_of. states; rewrite <- ?app_assoc; reflexivity. Qed.

Lemma quiet_turn_continues (a : FunctionCallAgent) (ps : list ToolParam) :
  validate_tools (get_tools (tool_manager a)) = Ok ps ->
  interrupted a = false ->
  should_stop (tool_manager a) = false ->
  quiet_turn W a 0 ->
  exists c, turn W a = (Ok None, after_tool W c a)
            /\ interrupted (after_tool W c a) = false
            /\ should_stop (tool_manager (after_tool W c a)) = false
            /\ get_tools (tool_manager (after_tool W c a)) = get_tools (tool_manager a)
            /\ generate_calls (after_tool W c a) = S (generate_calls a)
            /\ List.length (run_tool_calls (tool_manager (after_tool W c a)))
               = S (List.length (run_tool_calls (tool_manager a))).
Proof.
  intros Hv Hi Hs [[c Hc] [Hg Ht]]. rewrite !Nat.add_0_r in *.
  specialize (Ht c). destruct Ht as [Hstop Hcancel].
  fold (tool_step_of W c a) in Hstop, Hcancel.
  assert (Hi2 : interrupted (after_model W a) = false)
    by (rewrite after_model_interrupted, Hi, Hg; reflexivity).
  assert (Hs2 : should_stop (tool_manager (after_tool W c a)) = false)
    by (rewrite after_tool_tool_manager; unfold should_stop; cbn; now rewrite Hstop).
  exists c. rewrite (turn_model a Hv Hi), (response_of_calls a Hc), Hc, Hi2, Hs2.
  repeat split; trivial.
  - rewrite after_tool_interrupted, Hi2, Hcancel. reflexivity.
  - rewrite after_tool_tool_manager. reflexivity.
  - apply after_tool_generate_calls.
  - rewrite after_tool_tool_manager. cbn. rewrite length_app. simpl. lia.
Qed.

Lemma quiet_loop (n : nat) (a : FunctionCallAgent) (ps : list ToolParam) :
  validate_tools (get_tools (tool_manager a)) = Ok ps ->
  interrupted a = false ->
  should_stop (tool_manager a) = false ->
  (forall k, k < n -> quiet_turn W a k) ->
  exists a',
    turns_loop W n a =
    (Ok (same_message MAX_TURNS_MESSAGE),
     emitted [{| type := AGENT_RESPONSE; content := text_content MAX_TURNS_MESSAGE |}] a')
    /\ generate_calls a' = generate_calls a + n.
Proof.
  revert a. induction n as [|n IH]; intros a Hv Hi Hs Hq.
  - exists a. rewrite turns_loop_O. split; [reflexivity|lia].
  - destruct (quiet_turn_continues Hv Hi Hs (Hq 0 (Nat.lt_0_succ n)))
      as [c [Ht [Hi' [Hs' [Htools [Hg Hr]]]]]].
    rewrite turns_loop_S, Ht.
    destruct (IH (after_tool W c a)) as [a' [Hloop Hcalls]]; trivial.
    + now rewrite Htools.
    + intros k Hk. assert (Hk' : S k < S n) by lia.
      destruct (Hq (S k) Hk') as [Hc [Hgc Htl]].
      unfold quiet_turn. rewrite Hg, Hr.
      replace (S (generate_calls a) + k) with (generate_calls a + S k) by lia.
      replace (S (List.length (run_tool_calls (tool_manager a))) + k)
        with (List.length (run_tool_calls (tool_manager a)) + S k) by lia.
      auto.
    + exists a'. split; [exact Hloop|lia].
Qed.

(** ** The log of appended Turns *)

Lemma results_follow_app (log1 log2 : list Turn) (prev : option Turn) :
  results_follow prev log1 ->
  (forall q, results_follow q log2) ->
  results_follow prev (log1 ++ log2).
Proof.
  intros H1 H2. revert prev H1.
  induction log1 as [|t log1 IH]; intros prev H1; simpl; [apply H2|].
  destruct H1 as [Ht Hrest]. split; [exact Ht|apply IH, Hrest].
Qed.

Lemma results_follow_split (log1 log2 : list Turn) (id nm out : string)
    (prev : option Turn) :
  results_follow prev (log1 ++ ToolResultTurn id nm out :: log2) ->
  (log1 = [] /\ answers prev id nm)
  \/ exists log0 blocks c,
       log1 = log0 ++ [AssistantTurn blocks]
       /\ tool_calls_of blocks = [c] /\ tool_call_id c = id /\ tool_name c = nm.
Proof.
  revert prev. induction log1 as [|t log1 IH]; intros prev H.
  - left. split; [reflexivity|apply H].
  - right. destruct H as [_ H]. destruct (IH _ H) as [[-> Ha]|[log0 [blocks [c [-> Hc]]]]].
    + destruct t as [| blocks |]; try contradiction.
      destruct Ha as [c Hc]. exists [], blocks, c. split; [reflexivity|exact Hc].
    + exists (t :: log0), blocks, c. split; [reflexivity|exact Hc].
Qed.

Lemma sound_log_nil : sound_log [].
Proof. repeat split. simpl. lia. Qed.

Lemma sound_log_app (log1 log2 : list Turn) :
  sound_log log1 -> sound_log log2 -> sound_log (log1 ++ log2).
Proof.
  intros [Hf1 [Hc1 He1]] [Hf2 [Hc2 He2]]. repeat split.
  - intros prev. apply results_follow_app; auto.
  - rewrite answered_app, invocations_app, !length_app. lia.
  - rewrite existsb_app, He1, He2. reflexivity.
Qed.

Lemma response_of_not_empty (a : FunctionCallAgent) :
  fully_empty (AssistantTurn (response_of W a)) = false.
Proof.
  unfold response_of. destruct (gen_blocks _) eqn:E; [reflexivity|].
  reflexivity.
Qed.

Lemma sound_log_assistant (blocks : list Block) :
  fully_empty (AssistantTurn blocks) = false -> sound_log [AssistantTurn blocks].
Proof.
  intros He. repeat split.
  - simpl. lia.
  - cbn [existsb]. rewrite He. reflexivity.
Qed.

Lemma sound_log_call (blocks : list Block) (c : ToolCallParameters) (out : string) :
  tool_calls_of blocks = [c] ->
  sound_log [AssistantTurn blocks; ToolResultTurn (tool_call_id c) (tool_name c) out].
Proof.
  intros Hc. repeat split.
  - exists c. auto.
  - simpl. rewrite Hc. simpl. lia.
  - simpl. destruct blocks; [discriminate|reflexivity].
Qed.

Lemma turn_log (a : FunctionCallAgent) :
  exists log,
    appended (history (snd (turn W a))) = appended (history a) ++ log
    /\ sound_log log.
Proof.
  destruct (turn_cases a) as [e Hv|ps Hv Hi|ps Hv Hi Hc|ps c1 c2 cs Hv Hi Hc
                              |ps c Hv Hi Hc Hi2|ps c Hv Hi Hc Hi2 Hs|ps c Hv Hi Hc Hi2 Hs].
  - exists []. split; [states; now rewrite app_nil_r|apply sound_log_nil].
  - exists [AssistantTurn [TextResult AGENT_INTERRUPT_FAKE_MODEL_RSP]].
    split; [states; reflexivity|now apply sound_log_assistant].
  - exists [AssistantTurn (response_of W a)].
    split; [states; reflexivity|apply sound_log_assistant, response_of_not_empty].
  - exists [AssistantTurn (response_of W a)].
    split; [states; reflexivity|apply sound_log_assistant, response_of_not_empty].
  - exists ([AssistantTurn (response_of W a);
             ToolResultTurn (tool_call_id c) (tool_name c) TOOL_RESULT_INTERRUPT_MESSAGE]
            ++ [AssistantTurn [TextResult TOOL_CALL_INTERRUPT_FAKE_MODEL_RSP]]).
    split; [states; rewrite <- ?app_assoc; reflexivity|].
    apply sound_log_app; [now apply sound_log_call|now apply sound_log_assistant].
  - exists ([AssistantTurn (response_of W a);
             ToolResultTurn (tool_call_id c) (tool_name c) (tool_text (tool_step_of W c a))]
            ++ [AssistantTurn
                  [TextResult (get_final_answer (tool_manager (after_tool W c a)))]]).
    split.
    + unfold with_fake_turn, with_assistant_turn, emitted, history_add_assistant_turn,
        append_turn. cbn. rewrite after_tool_history, after_model_history.
      unfold history_add_assistant_turn, append_turn, history_truncate. cbn.
      rewrite <- !app_assoc. reflexivity.
    + apply sound_log_app; [now apply sound_log_call|now apply sound_log_assistant].
  - exists [AssistantTurn (response_of W a);
            ToolResultTurn (tool_call_id c) (tool_name c) (tool_text (tool_step_of W c a))].
    split; [|now apply sound_log_call].
    rewrite after_tool_history, after_model_history.
    unfold history_add_assistant_turn, append_turn, history_truncate. cbn.
    rewrite <- !app_assoc. reflexivity.
Qed.

Lemma loop_log (n : nat) (a : FunctionCallAgent) :
  exists log,
    appended (history (snd (turns_loop W n a))) = appended (history a) ++ log
    /\ sound_log log.
Proof.
  revert a. induction n as [|n IH]; intros a.
  - exists []. rewrite turns_loop_O. split; [simpl; now rewrite app_nil_r|apply sound_log_nil].
  - rewrite turns_loop_S. destruct (turn_log a) as [log [Ha Hl]].
    destruct (turn W a) as [[[out|]|e] a']; simpl in *; try (now exists log).
    destruct (IH a') as [log' [Ha' Hl']]. exists (log ++ log'). split.
    + rewrite Ha', Ha, app_assoc. reflexivity.
    + now apply sound_log_app.
Qed.

(** ** What a run returns or raises *)

Lemma turn_outcome (a : FunctionCallAgent) :
  match turn W a with
  | (Ok (Some out), a') => normal_outcome out a'
  | (Ok None, _) => True
  | (Raise e, _) => loop_error a e
  end.
Proof.
  rewrite (surjective_pairing (turn W a)).
  destruct (turn_cases a) as [e Hv|ps Hv Hi|ps Hv Hi Hc|ps c1 c2 cs Hv Hi Hc
                              |ps c Hv Hi Hc Hi2|ps c Hv Hi Hc Hi2 Hs|ps c Hv Hi Hc Hi2 Hs];
    unfold normal_outcome, loop_error; auto 6.
  left. pose proof (validate_tools_spec (get_tools (tool_manager a))) as H.
  simpl in H. rewrite Hv in H. exact H.
Qed.

Lemma loop_outcome (n : nat) (a : FunctionCallAgent) :
  match turns_loop W n a with
  | (Ok out, a') => normal_outcome out a'
  | (Raise e, _) => loop_error a e
  end.
Proof.
  revert a. induction n as [|n IH]; intros a.
  - rewrite turns_loop_O. unfold normal_outcome. auto.
  - rewrite turns_loop_S. pose proof (turn_outcome a) as Ht.
    pose proof (turn_tools a) as Htools.
    destruct (turn W a) as [[[out|]|e] a']; simpl in *; trivial.
    specialize (IH a'). destruct (turns_loop W n a') as [[out|e] a'']; trivial.
    unfold loop_error, tool_names in *. now rewrite <- Htools.
Qed.

(** ** Runs during which [cancel()] never runs *)

Lemma completed_not_interruption (answer : string) : ~ interruption (completed answer).
Proof. intros [H|H]; inversion H. Qed.

Lemma turn_never_cancelled (a : FunctionCallAgent) :
  never_cancelled W ->
  interrupted a = false ->
  interrupted (snd (turn W a)) = false
  /\ forall out, fst (turn W a) = Ok (Some out) -> ~ interruption out.
Proof.
  intros [Hg Ht] Hi.
  destruct (turn_cases a) as [e Hv|ps Hv Hi'|ps Hv _ Hc|ps c1 c2 cs Hv _ Hc
                              |ps c Hv _ Hc Hi2|ps c Hv _ Hc Hi2 Hs|ps c Hv _ Hc Hi2 Hs].
  - split; [exact Hi|discriminate].
  - congruence.
  - split; [cbn; rewrite after_model_interrupted, Hi, Hg; reflexivity|].
    intros out [= <-]. apply completed_not_interruption.
  - split; [rewrite after_model_interrupted, Hi, Hg; reflexivity|discriminate].
  - rewrite after_model_interrupted, Hi, Hg in Hi2. discriminate.
  - split.
    + cbn. rewrite after_tool_interrupted, Hi2. unfold tool_step_of. rewrite Ht. reflexivity.
    + intros out [= <-]. apply completed_not_interruption.
  - split; [|discriminate].
    rewrite after_tool_interrupted, Hi2. unfold tool_step_of. rewrite Ht. reflexivity.
Qed.

Lemma loop_never_cancelled (n : nat) (a : FunctionCallAgent) :
  never_cancelled W ->
  interrupted a = false ->
  interrupted (snd (turns_loop W n a)) = false
  /\ forall out, fst (turns_loop W n a) = Ok out -> ~ interruption out.
Proof.
  intros Hw. revert a. induction n as [|n IH]; intros a Hi.
  - rewrite turns_loop_O. split; [exact Hi|].
    intros out [= <-] [H|H]; inversion H.
  - rewrite turns_loop_S. destruct (turn_never_cancelled a Hw Hi) as [Hi' Hout].
    destruct (turn W a) as [[[out|]|e] a']; simpl in *.
    + split; [exact Hi'|]. intros out' [= <-]. now apply Hout.
    + now apply IH.
    + split; [exact Hi'|discriminate].
Qed.

(** ** The whole run *)

Lemma run_impl_eq (tool_input : ToolInput) (a : FunctionCallAgent) :
  run_impl W tool_input a
  = turns_loop W (Z.to_nat (max_turns a)) (entered W tool_input a).
Proof.
  unfold run_impl, entered. destruct (user_prompt W tool_input) as [text images].
  reflexivity.
Qed.

Lemma run_log (tool_input : ToolInput) (a : FunctionCallAgent) :
  exists log,
    appended (history (snd (run_impl W tool_input a)))
    = appended (history a)
      ++ UserTurn (fst (user_prompt W tool_input)) (snd (user_prompt W tool_input)) :: log
    /\ sound_log log.
Proof.
  rewrite run_impl_eq.
  destruct (loop_log (Z.to_nat (max_turns a)) (entered W tool_input a)) as [log [Ha Hl]].
  exists log. split; [|exact Hl]. rewrite Ha. cbn. rewrite <- app_assoc. reflexivity.
Qed.

Lemma run_agent_async_eq (instruction : string) (files : option (list string))
    (resume : bool) (a : FunctionCallAgent) :
  run_agent_async W instruction files resume a
  = run_async W {| instruction := instruction; files := files |}
      (if resume then set_tool_manager (reset (tool_manager a)) a
       else clear (set_tool_manager (reset (tool_manager a)) a)).
Proof. destruct resume; reflexivity. Qed.

Lemma run_async_eq (tool_input : ToolInput) (a : FunctionCallAgent) :
  run_async W tool_input a
  = (out <- turns_loop W (Z.to_nat (max_turns a));; ret (tool_output out))
      (entered W tool_input a).
Proof. unfold run_async, bind. rewrite run_impl_eq. reflexivity. Qed.
End Turn.

(** ** The event consumer *)

Ltac consume :=
  unfold process_one, handle_message, try_except, bind, get, ret, modify,
    save_event, send_json, saved; cbn.

Lemma process_one_no_socket (d : Delivery) (a : FunctionCallAgent) (o : Outside) :
  websocket a = None ->
  process_one d (a, o) =
  match session_id a, save_raises d with
  | Some sid, None => (Ok true, (a, saved sid (message d) o))
  | Some sid, Some e => (Ok (is_Exception e), (a, o))
  | None, _ => (Ok true, (a, o))
  end.
Proof.
  intros Hw. consume. destruct (session_id a) as [sid|]; cbn.
  - destruct (save_raises d) as [e|]; cbn.
    + destruct e; reflexivity.
    + rewrite Hw, andb_false_r. reflexivity.
  - rewrite Hw, andb_false_r. reflexivity.
Qed.

Lemma process_one_failed_send (d : Delivery) (a : FunctionCallAgent) (o : Outside)
    (ws : nat) (e : exn) :
  websocket a = Some ws ->
  EventType_eqb (type (message d)) USER_MESSAGE = false ->
  save_raises d = None ->
  send_raises d = Some e ->
  is_Exception e = true ->
  process_one d (a, o) =
  (Ok true,
   (set_websocket None a,
    match session_id a with
    | Some sid => saved sid (message d) o
    | None => o
    end)).
Proof.
  intros Hw Ht Hsave Hsend He. consume.
  destruct (session_id a) as [sid|]; cbn; rewrite ?Hsave; cbn;
    rewrite Hw, Ht; cbn; rewrite Hsend, He; reflexivity.
Qed.

Lemma process_loop_no_socket (ds : list Delivery) (a : FunctionCallAgent) (o : Outside) :
  websocket a = None ->
  exists o',
    process_loop ds (a, o) = (Ok tt, (a, o'))
    /\ wire o' = wire o
    /\ forall sid,
         session_id a = Some sid ->
         (forall d, In d ds -> save_raises d = None) ->
         events_table o' = events_table o ++ map (fun d => (sid, message d)) ds.
Proof.
  intros Hw. revert o. induction ds as [|d ds IH]; intros o.
  - exists o. repeat split. intros. simpl. now rewrite app_nil_r.
  - cbn [process_loop]. unfold bind. rewrite (@process_one_no_socket d a o Hw).
    destruct (session_id a) as [sid|] eqn:Hsid.
    + destruct (save_raises d) as [e|] eqn:Hsave.
      * destruct (is_Exception e).
        -- destruct (IH o) as [o' [Hrun [Hwire Htab]]]. exists o'.
           split; [exact Hrun|]. split; [exact Hwire|].
           intros sid' _ Hall. rewrite (Hall d (or_introl eq_refl)) in Hsave. discriminate.
        -- exists o. repeat split.
           intros sid' _ Hall. rewrite (Hall d (or_introl eq_refl)) in Hsave. discriminate.
      * destruct (IH (saved sid (message d) o)) as [o' [Hrun [Hwire Htab]]]. exists o'.
        split; [exact Hrun|]. split; [exact Hwire|].
        intros sid' [= <-] Hall. rewrite (Htab sid eq_refl); [|auto using in_cons].
        simpl. rewrite <- app_assoc. reflexivity.
    + destruct (IH o) as [o' [Hrun [Hwire Htab]]]. exists o'.
      split; [exact Hrun|]. split; [exact Hwire|]. discriminate.
Qed.

Lemma process_one_never_raises (d : Delivery) (s : FunctionCallAgent * Outside) :
  exists continue s', process_one d s = (Ok continue, s').
Proof.
  unfold process_one, try_except, bind, ret.
  destruct (handle_message d s) as [[u|e] s'].
  - eauto.
  - destruct e; eauto.
Qed.

Lemma process_loop_never_raises (ds : list Delivery) (s : FunctionCallAgent * Outside) :
  exists s', process_loop ds s = (Ok tt, s').
Proof.
  revert s. induction ds as [|d ds IH]; intros s.
  - exists s. reflexivity.
  - cbn [process_loop]. unfold bind.
    destruct (process_one_never_raises d s) as [continue [s' ->]].
    destruct continue; [apply IH|exists s'; reflexivity].
Qed.

Lemma EventType_eqb_neq (x y : EventType) : x <> y -> EventType_eqb x y = false.
Proof. destruct x, y; simpl; congruence. Qed.

Lemma _process_messages_eq (ds : list Delivery) (s s' : FunctionCallAgent * Outside) :
  process_loop ds s = (Ok tt, s') -> _process_messages ds s = (Ok tt, s').
Proof. intros H. unfold _process_messages, try_except. now rewrite H. Qed.
(** ** Runs whose collaborators may raise *)

Arguments client_generate_with : simpl never.
Arguments run_tool_with : simpl never.

Ltac run_turn_with :=
  unfold turn_with, bind, modify, _validate_tool_parameters, get_tools, get, ret, raise; cbn.

(** A turn with collaborators that may raise is the turn without them,
    unless the model client or the executor raises in it. *)
Lemma turn_with_cases (W : World) (F : Faults) (a : FunctionCallAgent) :
  turn_with W F a = turn W a
  \/ (exists e, fst (turn_with W F a) = Raise e
                /\ ((exists n, generate_raises F n = Some e)
                    \/ (exists n call, run_tool_raises F n call = Some e))).
Proof.
  destruct (validate_tools (tools (tool_manager a))) as [ps|e] eqn:Hv.
  2:{ left. rewrite (turn_duplicate W a Hv). run_turn_with. rewrite Hv. reflexivity. }
  destruct (interrupted a) eqn:Hi.
  { left. rewrite (turn_interrupted W a Hv Hi). run_turn_with. rewrite Hv. cbn.
    rewrite Hi. rewrite add_fake_assistant_turn_eq. reflexivity. }
  rewrite (turn_model W a Hv Hi).
  run_turn_with. rewrite Hv. cbn. rewrite Hi.
  unfold client_generate_with. cbn [generate_calls set_history].
  destruct (generate_raises F (generate_calls a)) as [e|] eqn:Hg.
  { right. exists e. split; [reflexivity|]. left. now exists (generate_calls a). }
  rewrite client_generate_eq. cbn.
  change (match gen_blocks (on_generate W (generate_calls a)) with
          | [] => _ | _ :: _ => _ end) with (response_of W a).
  rewrite emit_all_eq, pending_after_assistant_turn.
  change (emitted _ (set_history _ _)) with (after_model W a).
  destruct (tool_calls_of (response_of W a)) as [|c [|c2 cs]] eqn:Hcalls.
  - left. rewrite put_nowait_eq. reflexivity.
  - rewrite put_nowait_eq.
    change {| type := TOOL_CALL; content := _ |} with (tool_call_event c).
    assert (Hin : In c (tool_calls_of (response_of W a)))
      by (rewrite Hcalls; left; reflexivity).
    change (interrupted (emitted [tool_call_event c] (after_model W a)))
      with (interrupted (after_model W a)).
    destruct (interrupted (after_model W a)).
    + left. rewrite add_tool_call_result_eq by (apply invoked_after_model, Hin).
      rewrite add_fake_assistant_turn_eq. reflexivity.
    + unfold run_tool_with.
      destruct (run_tool_raises F _ c) as [e|] eqn:Ht.
      { right. exists e. split; [reflexivity|]. right. eauto. }
      left. rewrite run_tool_eq.
      rewrite add_tool_call_result_eq
        by (rewrite run_tool_history; apply invoked_after_model, Hin).
      change (with_tool_result c _ _) with (after_tool W c a).
      destruct (should_stop (tool_manager (after_tool W c a))).
      * rewrite add_fake_assistant_turn_eq. reflexivity.
      * reflexivity.
  - left. reflexivity.
Qed.

Lemma turns_loop_with_S (W : World) (F : Faults) (n : nat) (a : FunctionCallAgent) :
  turns_loop_with W F (S n) a
  = match turn_with W F a with
    | (Ok (Some out), a') => (Ok out, a')
    | (Ok None, a') => turns_loop_with W F n a'
    | (Raise e, a') => (Raise e, a')
    end.
Proof.
  cbn [turns_loop_with]. unfold bind. destruct (turn_with W F a) as [[[out|]|e] a'];
    reflexivity.
Qed.

Lemma loop_with_outcome (W : World) (F : Faults) (n : nat) (a : FunctionCallAgent) :
  match turns_loop_with W F n a with
  | (Ok out, a') => normal_outcome out a'
  | (Raise e, _) => loop_error a e \/ collaborator_error F e
  end.
Proof.
  revert a. induction n as [|n IH]; intros a.
  - pose proof (loop_outcome W 0 a) as H. exact H.
  - rewrite turns_loop_with_S.
    destruct (turn_with_cases W F a) as [Hsame|[e [He Hc]]].
    + rewrite Hsame. pose proof (turn_outcome W a) as Ht.
      pose proof (turn_tools W a) as Htools.
      destruct (turn W a) as [[[out|]|e] a']; simpl in *; auto.
      specialize (IH a'). destruct (turns_loop_with W F n a') as [[out|e] a'']; trivial.
      unfold loop_error, tool_names in *. now rewrite <- Htools.
    + destruct (turn_with W F a) as [r a']. cbn in He. subst r.
      right. right. exact Hc.
Qed.

Lemma turn_with_quiet (W : World) (F : Faults) (a : FunctionCallAgent) :
  quiet F -> turn_with W F a = turn W a.
Proof.
  intros [_ [_ [Hg Ht]]].
  destruct (turn_with_cases W F a) as [H|[e [_ [[n Hn]|[n [c Hn]]]]]];
    [exact H|rewrite Hg in Hn|rewrite Ht in Hn]; discriminate.
Qed.

Lemma loop_with_quiet (W : World) (F : Faults) (n : nat) (a : FunctionCallAgent) :
  quiet F -> turns_loop_with W F n a = turns_loop W n a.
Proof.
  intros HF. revert a. induction n as [|n IH]; intros a; [reflexivity|].
  rewrite turns_loop_with_S, turns_loop_S, (turn_with_quiet W a HF).
  destruct (turn W a) as [[[out|]|e] a']; trivial.
Qed.

Lemma first_raise_none {A} (raises : A -> option exn) (l : list A) :
  (forall x, raises x = None) -> first_raise raises l = None.
Proof. intros H. induction l as [|x l IH]; [reflexivity|]. cbn. now rewrite H. Qed.

Lemma first_raise_some {A} (raises : A -> option exn) (l : list A) (e : exn) :
  first_raise raises l = Some e -> exists x, In x l /\ raises x = Some e.
Proof.
  induction l as [|x l IH]; [discriminate|]. cbn.
  destruct (raises x) as [e'|] eqn:Hx.
  - intros [= <-]. exists x. split; [now left|exact Hx].
  - intros H. destruct (IH H) as [y [Hy He]]. exists y. split; [now right|exact He].
Qed.

Lemma user_prompt_with_cases (W : World) (F : Faults) (tool_input : ToolInput) :
  user_prompt_with W F tool_input = Ok (user_prompt W tool_input)
  \/ exists e file,
       user_prompt_with W F tool_input = Raise e
       /\ (relative_path_raises F file = Some e \/ encode_image_raises F file = Some e).
Proof.
  unfold user_prompt_with. destruct (files tool_input) as [[|f fs]|]; [now left| |now left].
  destruct (first_raise (relative_path_raises F) (f :: fs)) as [e|] eqn:H1.
  { right. destruct (first_raise_some _ _ H1) as [file [_ He]]. exists e, file. auto. }
  destruct (first_raise (encode_image_raises F) _) as [e|] eqn:H2; [|now left].
  right. destruct (first_raise_some _ _ H2) as [file [_ He]]. exists e, file. auto.
Qed.

Lemma run_impl_with_eq (W : World) (F : Faults) (tool_input : ToolInput)
    (a : FunctionCallAgent) :
  user_prompt_with W F tool_input = Ok (user_prompt W tool_input) ->
  run_impl_with W F (dict_of tool_input) a
  = turns_loop_with W F (Z.to_nat (max_turns a)) (entered W tool_input a).
Proof.
  intros Hp. unfold run_impl_with, dict_of. cbn [dict_instruction dict_files].
  replace {| instruction := instruction tool_input; files := files tool_input |}
    with tool_input by now destruct tool_input.
  rewrite Hp. destruct (user_prompt W tool_input) as [text images] eqn:Hu.
  unfold entered. rewrite Hu. reflexivity.
Qed.

(** * Main results *)

Ltac distinct := repeat constructor; simpl; intuition discriminate.

(** ** More than one tool call in a turn *)

(** C1.  [turns_loop W (S n) a] is the loop with a turn still to make,
    on the agent as the turns before left it.  When the model's response
    to that turn yields more than one pending tool call, the loop raises
    the error "Only one tool call per turn is supported".  At that point
    the response has been appended to the Ledger as an assistant Turn
    (it is the only Turn the turn appended, so there is no tool-result
    Turn for any of the calls), the calls are still pending, and no tool
    has run. *)
Theorem multiple_tool_calls_rejected (W : World) (a : FunctionCallAgent) (n : nat)
    (c1 c2 : ToolCallParameters) (cs : list ToolCallParameters) :
  NoDup (tool_names a) ->
  interrupted a = false ->
  tool_calls_of (gen_blocks (on_generate W (generate_calls a))) = c1 :: c2 :: cs ->
  let blocks := gen_blocks (on_generate W (generate_calls a)) in
  let a' := snd (turns_loop W (S n) a) in
  fst (turns_loop W (S n) a)
  = Raise (ValueError "Only one tool call per turn is supported")
  /\ history_get_pending_tool_calls (history a') = c1 :: c2 :: cs
  /\ turns (history a') = truncate W (turns (history a)) ++ [AssistantTurn blocks]
  /\ appended (history a') = appended (history a) ++ [AssistantTurn blocks]
  /\ run_tool_calls (tool_manager a') = run_tool_calls (tool_manager a).
Proof.
  intros Hnd Hi Hc blocks a'. subst a'.
  rewrite turns_loop_S, (turn_model W a (validate_tools_NoDup _ Hnd) Hi).
  rewrite (response_of_calls W a Hc), Hc. cbn [fst snd].
  rewrite after_model_history, (response_of_calls W a Hc), after_model_tool_manager.
  fold blocks. repeat split.
  rewrite pending_after_assistant_turn. exact Hc.
Qed.

(** Two tool invocations in one response. *)
Lemma multiple_tool_calls_rejected_witness :
  let W := scripted [says [ToolCall (demo_call "1"); ToolCall (demo_call "2")]] [] in
  let a := entered W hello (fresh_agent [demo_tool "bash"] 5) in
  fst (turns_loop W 5 a) = Raise (ValueError "Only one tool call per turn is supported")
  /\ turns (history (snd (turns_loop W 5 a)))
     = [UserTurn "hello" [];
        AssistantTurn [ToolCall (demo_call "1"); ToolCall (demo_call "2")]].
Proof.
  intros W a.
  assert (Hnd : NoDup (tool_names a)) by distinct.
  destruct (@multiple_tool_calls_rejected W a 4 (demo_call "1") (demo_call "2") []
              Hnd eq_refl eq_refl) as [Hr [_ [Ht _]]].
  split; [exact Hr|exact Ht].
Defined.

(** ** The turn budget *)

(** C2.  A run with turn budget [max_turns] makes at most [max_turns]
    model calls (none when the budget is not positive).  If in each of
    these turns the model asks for exactly one tool call, the tool does
    not signal stop and [cancel()] does not run, the run makes exactly
    that many calls, emits an agent-response event with the message
    "Agent did not complete after max turns" and returns it. *)
Theorem turn_budget_bounds_model_calls (W : World) (tool_input : ToolInput)
    (a : FunctionCallAgent) :
  let a' := snd (run_impl W tool_input a) in
  generate_calls a <= generate_calls a'
  /\ (Z.of_nat (generate_calls a' - generate_calls a) <= Z.max 0 (max_turns a))%Z
  /\ (NoDup (tool_names a) ->
      should_stop (tool_manager a) = false ->
      (forall k, k < Z.to_nat (max_turns a) -> quiet_turn W a k) ->
      fst (run_impl W tool_input a) = Ok (same_message MAX_TURNS_MESSAGE)
      /\ generate_calls a' = generate_calls a + Z.to_nat (max_turns a)
      /\ exists earlier,
           message_queue a'
           = earlier ++ [{| type := AGENT_RESPONSE;
                            content := text_content MAX_TURNS_MESSAGE |}]).
Proof.
  intros a'. subst a'. rewrite run_impl_eq.
  pose proof (loop_generate_calls W (Z.to_nat (max_turns a)) (entered W tool_input a)) as Hb.
  change (generate_calls (entered W tool_input a)) with (generate_calls a) in Hb.
  split; [lia|]. split; [lia|].
  intros Hnd Hs Hq.
  destruct (@quiet_loop W (Z.to_nat (max_turns a)) (entered W tool_input a)
              (map get_tool_param (get_tools (tool_manager a))))
    as [a' [Hloop Hcalls]]; trivial.
  - now apply validate_tools_NoDup.
  - rewrite Hloop. cbn [fst snd]. split; [reflexivity|]. split; [exact Hcalls|].
    exists (message_queue a'). reflexivity.
Qed.

(** Two turns, each asking for a tool, with a budget of two. *)
Lemma turn_budget_bounds_model_calls_witness :
  let W := scripted [says [ToolCall (demo_call "1")]; says [ToolCall (demo_call "2")]] [] in
  let a := fresh_agent [demo_tool "bash"] 2 in
  fst (run_impl W hello a) = Ok (same_message MAX_TURNS_MESSAGE)
  /\ generate_calls (snd (run_impl W hello a)) = 2.
Proof.
  intros W a.
  destruct (turn_budget_bounds_model_calls W hello a) as [_ [_ H]].
  assert (Hnd : NoDup (tool_names a)) by distinct.
  assert (Hq : forall k, k < Z.to_nat (max_turns a) -> quiet_turn W a k).
  { intros [|[|k]] Hk.
    - repeat split. now exists (demo_call "1").
    - repeat split. now exists (demo_call "2").
    - exfalso. change (Z.to_nat (max_turns a)) with 2 in Hk. lia. }
  destruct (H Hnd eq_refl Hq) as [Hr [Hc _]].
  split; [exact Hr|exact Hc].
Defined.

(** ** Interruption before the tool runs *)

(** C3.  When [cancel()] ran during the model call, so that the flag is
    set at the second checkpoint, and the response yields one pending
    tool call, the turn appends the response, a tool-result Turn marking
    the call as interrupted and a synthetic assistant Turn; it emits the
    tool-call and tool-result events and an agent-response-interrupted
    event; it returns the tool-interruption message; the tool is never
    run. *)
Theorem interrupted_before_tool (W : World) (a : FunctionCallAgent) (n : nat)
    (c : ToolCallParameters) :
  NoDup (tool_names a) ->
  interrupted a = false ->
  tool_calls_of (gen_blocks (on_generate W (generate_calls a))) = [c] ->
  gen_cancelled (on_generate W (generate_calls a)) = true ->
  let blocks := gen_blocks (on_generate W (generate_calls a)) in
  let a' := snd (turns_loop W (S n) a) in
  fst (turns_loop W (S n) a) = Ok (same_message TOOL_RESULT_INTERRUPT_MESSAGE)
  /\ turns (history a')
     = truncate W (turns (history a))
       ++ [AssistantTurn blocks;
           ToolResultTurn (tool_call_id c) (tool_name c) TOOL_RESULT_INTERRUPT_MESSAGE;
           AssistantTurn [TextResult TOOL_CALL_INTERRUPT_FAKE_MODEL_RSP]]
  /\ message_queue a'
     = message_queue a ++ thinking_events blocks
       ++ [tool_call_event c;
           tool_result_event c TOOL_RESULT_INTERRUPT_MESSAGE;
           {| type := AGENT_RESPONSE_INTERRUPTED;
              content := text_content TOOL_CALL_INTERRUPT_FAKE_MODEL_RSP |}]
  /\ run_tool_calls (tool_manager a') = run_tool_calls (tool_manager a)
  /\ interrupted a' = true.
Proof.
  intros Hnd Hi Hc Hg blocks a'. subst a'.
  assert (Hi2 : interrupted (after_model W a) = true)
    by (rewrite after_model_interrupted, Hi, Hg; reflexivity).
  rewrite turns_loop_S, (turn_model W a (validate_tools_NoDup _ Hnd) Hi).
  rewrite (response_of_calls W a Hc), Hc, Hi2. cbn [fst snd].
  unfold with_fake_turn, with_tool_result, with_assistant_turn, emitted, response_event.
  cbn. rewrite Hi2, after_model_history, after_model_message_queue,
    after_model_tool_manager, (response_of_calls W a Hc).
  fold blocks. unfold history_add_assistant_turn, append_turn, history_truncate. cbn.
  rewrite <- !app_assoc. repeat split.
Qed.

(** [cancel()] during the model call that asks for a tool. *)
Lemma interrupted_before_tool_witness :
  let W := scripted [{| gen_blocks := [TextResult "listing"; ToolCall (demo_call "1")];
                        gen_cancelled := true |}] [] in
  let a := entered W hello (fresh_agent [demo_tool "bash"] 5) in
  fst (turns_loop W 5 a) = Ok (same_message TOOL_RESULT_INTERRUPT_MESSAGE)
  /\ run_tool_calls (tool_manager (snd (turns_loop W 5 a))) = [].
Proof.
  intros W a.
  assert (Hnd : NoDup (tool_names a)) by distinct.
  destruct (@interrupted_before_tool W a 4 (demo_call "1") Hnd eq_refl eq_refl eq_refl)
    as [Hr [_ [_ [Ht _]]]].
  split; [exact Hr|exact Ht].
Defined.

(** ** Duplicate tool names *)

(** An agent is set up with the same tool twice and no error is raised:
    with no turn to make its run returns normally; with a turn to make
    the error comes from inside the run, the user prompt already in the
    Ledger. *)
Lemma duplicates_pass_setup :
  let W := scripted [] [] in
  let twice := [demo_tool "bash"; demo_tool "bash"] in
  ~ NoDup (tool_names (fresh_agent twice 0))
  /\ fst (run_agent_async W "hello" None false (fresh_agent twice 0))
     = Ok "Agent did not complete after max turns"
  /\ fst (run_agent_async W "hello" None false (fresh_agent twice 1))
     = Raise (ValueError "Tool bash is duplicated")
  /\ turns (history (snd (run_agent_async W "hello" None false (fresh_agent twice 1))))
     = [UserTurn "hello" []].
Proof.
  intros W twice. split; [|repeat split].
  intros Hnd. inversion Hnd as [|? ? Hin _]. apply Hin. left. reflexivity.
Qed.

(** C4, amended.  The validation sorts the tool names and raises "Tool
    x is duplicated" exactly when two adjacent sorted names are equal,
    which is exactly when some name occurs twice.  [turn] runs it first
    thing after truncating the Ledger: with duplicate names a run with a
    positive turn budget raises in its first turn, the user prompt
    already appended and the model not yet called, and a run with no
    turn to make returns the max-turns message. *)
Theorem duplicates_detected_in_each_turn (W : World) (a : FunctionCallAgent) :
  let validation := validate_tools (get_tools (tool_manager a)) in
  ((exists e, validation = Raise e)
   <-> exists l1 x l2, sorted (tool_names a) = l1 ++ x :: x :: l2)
  /\ (NoDup (tool_names a)
      <-> validation = Ok (map get_tool_param (get_tools (tool_manager a))))
  /\ (~ NoDup (tool_names a) ->
      exists x,
        2 <= count_occ string_dec (tool_names a) x
        /\ validation = Raise (ValueError ("Tool " ++ x ++ " is duplicated"))
        /\ turn W a = (Raise (ValueError ("Tool " ++ x ++ " is duplicated")), truncated W a)
        /\ forall tool_input,
             ((0 < max_turns a)%Z ->
              run_impl W tool_input a
              = (Raise (ValueError ("Tool " ++ x ++ " is duplicated")),
                 truncated W (entered W tool_input a)))
             /\ ((max_turns a <= 0)%Z ->
                 fst (run_impl W tool_input a) = Ok (same_message MAX_TURNS_MESSAGE))).
Proof.
  intros validation. subst validation.
  pose proof (validate_tools_spec (get_tools (tool_manager a))) as Hspec.
  cbn zeta in Hspec. fold (tool_names a) in Hspec.
  split; [|split].
  - rewrite <- check_adjacent_raises. unfold validate_tools. fold (tool_names a).
    destruct (check_adjacent (sorted (tool_names a))) as [u|e].
    + split; intros [e He]; discriminate.
    + split; intros _; eauto.
  - split; [apply validate_tools_NoDup|]. intros Hv. rewrite Hv in Hspec. apply Hspec.
  - intros Hdup.
    destruct (validate_tools (get_tools (tool_manager a))) as [ps|e] eqn:Hv;
      [destruct Hspec as [_ Hnd]; contradiction|].
    destruct Hspec as [x [-> Hx]]. exists x. split; [exact Hx|]. split; [reflexivity|].
    split; [apply turn_duplicate, Hv|].
    intros tool_input. rewrite run_impl_eq. split; intros Hbudget.
    + destruct (Z.to_nat (max_turns a)) as [|n] eqn:Hn; [lia|].
      rewrite turns_loop_S, (@turn_duplicate W (entered W tool_input a) (duplicated x) Hv).
      reflexivity.
    + replace (Z.to_nat (max_turns a)) with 0 by lia. reflexivity.
Qed.

(** The same tool registered twice. *)
Lemma duplicates_detected_in_each_turn_witness :
  let W := scripted [] [] in
  let a := fresh_agent [demo_tool "bash"; demo_tool "bash"] 3 in
  exists x,
    2 <= count_occ string_dec (tool_names a) x
    /\ fst (run_impl W hello a) = Raise (ValueError ("Tool " ++ x ++ " is duplicated")).
Proof.
  intros W a.
  destruct (duplicates_detected_in_each_turn W a) as [_ [_ H]].
  assert (Hdup : ~ NoDup (tool_names a)).
  { intros Hnd. inversion Hnd as [|? ? Hin _]. apply Hin. left. reflexivity. }
  destruct (H Hdup) as [x [Hx [_ [_ Hrun]]]].
  exists x. split; [exact Hx|].
  destruct (Hrun hello) as [Hpos _]. rewrite Hpos; [reflexivity|reflexivity].
Defined.

(** ** Transport failure *)

(** C5.  When forwarding an event raises, the exception is caught, the
    websocket reference is cleared and stays cleared; of this event and
    of all later ones nothing more reaches the transport, while the
    database, as long as it accepts them, gets every one of them.  And
    [_process_messages] never raises, whatever the database and the
    transport do. *)
Theorem transport_failure_is_contained (d : Delivery) (rest : list Delivery)
    (a : FunctionCallAgent) (o : Outside) (ws : nat) (e : exn) :
  websocket a = Some ws ->
  type (message d) <> USER_MESSAGE ->
  save_raises d = None ->
  send_raises d = Some e ->
  is_Exception e = true ->
  (exists o',
     _process_messages (d :: rest) (a, o) = (Ok tt, (set_websocket None a, o'))
     /\ wire o' = wire o
     /\ forall sid,
          session_id a = Some sid ->
          (forall d', In d' rest -> save_raises d' = None) ->
          events_table o'
          = events_table o ++ map (fun d' => (sid, message d')) (d :: rest))
  /\ forall ds s, fst (_process_messages ds s) = Ok tt.
Proof.
  intros Hw Ht Hsave Hsend He. split.
  - apply EventType_eqb_neq in Ht.
    destruct (@process_loop_no_socket rest (set_websocket None a)
                (match session_id a with
                 | Some sid => saved sid (message d) o
                 | None => o
                 end) eq_refl) as [o' [Hrun [Hwire Htab]]].
    exists o'. split; [|split].
    + apply _process_messages_eq. cbn [process_loop]. unfold bind.
      rewrite (@process_one_failed_send d a o ws e Hw Ht Hsave Hsend He). exact Hrun.
    + rewrite Hwire. destruct (session_id a); reflexivity.
    + intros sid Hsid Hall. rewrite (Htab sid Hsid Hall), Hsid. cbn.
      rewrite <- app_assoc. reflexivity.
  - intros ds s. unfold _process_messages, try_except.
    destruct (process_loop_never_raises ds s) as [s' ->]. reflexivity.
Qed.

(** The transport fails on the first of three events. *)
Lemma transport_failure_is_contained_witness :
  let ev t := {| type := t; content := [] |} in
  let d := {| message := ev AGENT_THINKING; save_raises := None;
              send_raises := Some (Exception "disconnected") |} in
  let rest := [{| message := ev TOOL_CALL; save_raises := None; send_raises := None |};
               {| message := ev TOOL_RESULT; save_raises := None; send_raises := None |}] in
  let a := fresh_agent [] 1 in
  let o := {| events_table := []; wire := [] |} in
  exists o',
    _process_messages (d :: rest) (a, o) = (Ok tt, (set_websocket None a, o'))
    /\ wire o' = []
    /\ events_table o'
       = [("session", ev AGENT_THINKING); ("session", ev TOOL_CALL);
          ("session", ev TOOL_RESULT)].
Proof.
  intros ev d rest a o.
  assert (Ht : type (message d) <> USER_MESSAGE) by discriminate.
  destruct (@transport_failure_is_contained d rest a o 0 (Exception "disconnected")
              eq_refl Ht eq_refl eq_refl eq_refl) as [[o' [Hrun [Hwire Htab]]] _].
  exists o'. split; [exact Hrun|]. split; [exact Hwire|].
  apply (Htab "session" eq_refl).
  intros d' [<-|[<-|[]]]; reflexivity.
Defined.

(** ** Empty model response *)

(** C6.  When the model client returns no content block, the turn
    appends an assistant Turn holding the placeholder text block
    [COMPLETE_MESSAGE], finds no pending tool call, emits the thinking
    and agent-response events and returns as completed.  And in every
    run, no appended assistant Turn is fully empty. *)
Theorem empty_response_completes (W : World) (a : FunctionCallAgent) (n : nat) :
  NoDup (tool_names a) ->
  interrupted a = false ->
  gen_blocks (on_generate W (generate_calls a)) = [] ->
  let a' := snd (turns_loop W (S n) a) in
  fst (turns_loop W (S n) a) = Ok (completed EmptyString)
  /\ turns (history a')
     = truncate W (turns (history a)) ++ [AssistantTurn [TextResult (COMPLETE_MESSAGE W)]]
  /\ history_get_pending_tool_calls (history a') = []
  /\ message_queue a'
     = message_queue a
       ++ [{| type := AGENT_THINKING; content := text_content (COMPLETE_MESSAGE W) |};
           {| type := AGENT_RESPONSE; content := text_content "Task completed" |}]
  /\ forall input a0,
       exists log,
         appended (history (snd (run_impl W input a0))) = appended (history a0) ++ log
         /\ existsb fully_empty log = false.
Proof.
  intros Hnd Hi Hg a'. subst a'.
  assert (Hr : response_of W a = [TextResult (COMPLETE_MESSAGE W)])
    by (unfold response_of; now rewrite Hg).
  rewrite turns_loop_S, (turn_model W a (validate_tools_NoDup _ Hnd) Hi), Hr.
  change (tool_calls_of [TextResult (COMPLETE_MESSAGE W)])
    with (@nil ToolCallParameters).
  cbn [fst snd]. unfold emitted. cbn.
  rewrite after_model_history, after_model_message_queue, Hr, pending_after_assistant_turn.
  unfold history_add_assistant_turn, append_turn, history_truncate. cbn.
  rewrite <- !app_assoc. repeat split.
  intros input a0. destruct (run_log W input a0) as [log [Ha [_ [_ He]]]].
  eexists. split; [exact Ha|]. cbn [existsb fully_empty]. exact He.
Qed.

(** A model that answers with no block. *)
Lemma empty_response_completes_witness :
  let W := scripted [] [] in
  let a := entered W hello (fresh_agent [demo_tool "bash"] 5) in
  fst (turns_loop W 5 a) = Ok (completed EmptyString)
  /\ turns (history (snd (turns_loop W 5 a)))
     = [UserTurn "hello" []; AssistantTurn [TextResult "Completed the task."]].
Proof.
  intros W a.
  assert (Hnd : NoDup (tool_names a)) by distinct.
  destruct (@empty_response_completes W a 4 Hnd eq_refl eq_refl) as [Hr [Ht _]].
  split; [exact Hr|exact Ht].
Defined.

(** ** What a run returns *)

(** Four runs and what they return: one that completes without a tool
    call, one out of turns, one interrupted at the first checkpoint (by
    a [cancel()] during the tool call of its first turn), one
    interrupted at the second. *)
Lemma four_runs :
  let a := fresh_agent [demo_tool "bash"] 2 in
  let asks := [ToolCall (demo_call "1")] in
  let W1 := scripted [] [] in
  let W3 := scripted [says asks]
              [{| tool_text := "ok"; tool_stop := None; tool_cancelled := true |}] in
  let W4 := scripted [{| gen_blocks := asks; gen_cancelled := true |}] [] in
  let stopped r := should_stop (tool_manager (snd r)) in
  (fst (run_impl W1 hello a) = Ok (completed EmptyString)
   /\ stopped (run_impl W1 hello a) = false)
  /\ (fst (run_impl W1 hello (fresh_agent [demo_tool "bash"] 0))
      = Ok (same_message MAX_TURNS_MESSAGE)
      /\ stopped (run_impl W1 hello (fresh_agent [demo_tool "bash"] 0)) = false)
  /\ (fst (run_impl W3 hello a) = Ok (same_message AGENT_INTERRUPT_MESSAGE)
      /\ stopped (run_impl W3 hello a) = false)
  /\ (fst (run_impl W4 hello a) = Ok (same_message TOOL_RESULT_INTERRUPT_MESSAGE)
      /\ stopped (run_impl W4 hello a) = false).
Proof. vm_compute. repeat split. Qed.

Lemma returned (W : World) (tool_input : ToolInput) (a : FunctionCallAgent)
    (out : ToolImplOutput) :
  fst (run_impl W tool_input a) = Ok out ->
  run_impl W tool_input a = (Ok out, snd (run_impl W tool_input a)).
Proof. destruct (run_impl W tool_input a) as [r a']. simpl. now intros ->. Qed.


(** What [run_impl] returns or raises when its input has both entries
    and its collaborators do not raise. *)
Lemma run_impl_outcome (W : World) (tool_input : ToolInput) (a : FunctionCallAgent) :
  match run_impl W tool_input a with
  | (Ok out, a') => normal_outcome out a'
  | (Raise e, _) => loop_error a e
  end.
Proof.
  rewrite run_impl_eq.
  exact (loop_outcome W (Z.to_nat (max_turns a)) (entered W tool_input a)).
Qed.


(** ** Tool results and tool invocations *)

(** C8.  Among the Turns a run appends, there are no more tool-result
    Turns than tool invocations; every tool-result Turn comes right
    after an assistant Turn that holds exactly one tool invocation (so
    at most one call is acted upon per assistant Turn), and carries the
    identifier of that invocation. *)
Theorem tool_results_match_invocations (W : World) (tool_input : ToolInput)
    (a : FunctionCallAgent) :
  exists log,
    appended (history (snd (run_impl W tool_input a))) = appended (history a) ++ log
    /\ List.length (answered log) <= List.length (invocations log)
    /\ forall log1 id nm out log2,
         log = log1 ++ ToolResultTurn id nm out :: log2 ->
         exists log0 blocks c,
           log1 = log0 ++ [AssistantTurn blocks]
           /\ tool_calls_of blocks = [c]
           /\ tool_call_id c = id
           /\ In c (invocations log1).
Proof.
  destruct (run_log W tool_input a) as [log [Ha [Hf [Hc _]]]].
  eexists. split; [exact Ha|]. split; [exact Hc|].
  intros log1 id nm out log2 Hsplit.
  assert (Hrf : results_follow None (log1 ++ ToolResultTurn id nm out :: log2)).
  { rewrite <- Hsplit. split; [exact I|apply Hf]. }
  destruct (results_follow_split _ _ _ _ _ _ Hrf)
    as [[_ []]|[log0 [blocks [c [-> [Hcalls [Hid _]]]]]]].
  exists log0, blocks, c. repeat split; trivial.
  rewrite invocations_app. apply in_or_app. right. simpl.
  rewrite Hcalls. left. reflexivity.
Qed.

(** ** Resuming a run *)

(** C9.  [run_agent_async] with [resume] true leaves the Turns of the
    Ledger as they are, and the loop then starts on that Ledger with the
    user prompt appended and the flag false.  With [resume] false it
    empties the Ledger and resets the flag, and the loop starts on the
    user prompt alone. *)
Theorem resume_reuses_ledger (W : World) (instruction : string)
    (files : option (list string)) (a : FunctionCallAgent) :
  let tool_input := {| instruction := instruction; files := files |} in
  let user_turn :=
    UserTurn (fst (user_prompt W tool_input)) (snd (user_prompt W tool_input)) in
  let loop := out <- turns_loop W (Z.to_nat (max_turns a));; ret (tool_output out) in
  (exists a1,
     run_agent_async_entry true a = (Ok tt, a1)
     /\ turns (history a1) = turns (history a)
     /\ run_agent_async W instruction files true a = loop (entered W tool_input a1)
     /\ turns (history (entered W tool_input a1)) = turns (history a) ++ [user_turn]
     /\ interrupted (entered W tool_input a1) = false)
  /\ (exists a1,
        run_agent_async_entry false a = (Ok tt, a1)
        /\ turns (history a1) = []
        /\ interrupted a1 = false
        /\ run_agent_async W instruction files false a = loop (entered W tool_input a1)
        /\ turns (history (entered W tool_input a1)) = [user_turn]
        /\ interrupted (entered W tool_input a1) = false).
Proof.
  intros tool_input user_turn loop. split.
  - exists (set_tool_manager (reset (tool_manager a)) a). repeat split.
    rewrite run_agent_async_eq, run_async_eq. reflexivity.
  - exists (clear (set_tool_manager (reset (tool_manager a)) a)). repeat split.
    rewrite run_agent_async_eq, run_async_eq. reflexivity.
Qed.

(** ** Cancelling before a run *)

(** C10.  [run_impl] resets the flag right after appending the user
    prompt and before the first turn, whatever the flag was: a run gives
    the same result and leaves the same agent whether or not [cancel()]
    was called before it, resumed or not.  If [cancel()] does not run
    during the run either, the run does not end interrupted. *)
Theorem cancel_before_run_is_discarded (W : World) (tool_input : ToolInput)
    (a : FunctionCallAgent) :
  run_impl W tool_input a
  = turns_loop W (Z.to_nat (max_turns a))
      (set_interrupted false
         (set_history
            (history_add_user_prompt (fst (user_prompt W tool_input))
               (snd (user_prompt W tool_input)) (history a))
            a))
  /\ run_impl W tool_input (cancel a) = run_impl W tool_input a
  /\ (forall resume,
        run_agent_async W (instruction tool_input) (files tool_input) resume (cancel a)
        = run_agent_async W (instruction tool_input) (files tool_input) resume a)
  /\ (never_cancelled W ->
      interrupted (snd (run_impl W tool_input (cancel a))) = false
      /\ forall out,
           fst (run_impl W tool_input (cancel a)) = Ok out ->
           out <> same_message AGENT_INTERRUPT_MESSAGE
           /\ out <> same_message TOOL_RESULT_INTERRUPT_MESSAGE).
Proof.
  assert (Hsame : run_impl W tool_input (cancel a) = run_impl W tool_input a)
    by (rewrite !run_impl_eq; reflexivity).
  split; [apply run_impl_eq|]. split; [exact Hsame|]. split.
  - intros resume. rewrite !run_agent_async_eq, !run_async_eq.
    destruct resume; reflexivity.
  - intros Hw. rewrite Hsame, run_impl_eq.
    destruct (@loop_never_cancelled W (Z.to_nat (max_turns a)) (entered W tool_input a) Hw
                eq_refl) as [Hi Hout].
    split; [exact Hi|]. intros out Hr. specialize (Hout out Hr).
    unfold interruption in Hout. tauto.
Qed.

(** [cancel()] before a run that nothing disturbs. *)
Lemma cancel_before_run_is_discarded_witness :
  let W := scripted [] [] in
  let a := cancel (fresh_agent [demo_tool "bash"] 3) in
  interrupted (snd (run_impl W hello a)) = false
  /\ fst (run_impl W hello a) = Ok (completed EmptyString).
Proof.
  intros W a.
  destruct (cancel_before_run_is_discarded W hello (fresh_agent [demo_tool "bash"] 3))
    as [_ [_ [_ H]]].
  assert (Hw : never_cancelled W) by (split; [intros [|n]|intros [|n] c]; reflexivity).
  destruct (H Hw) as [Hi _]. split; [exact Hi|reflexivity].
Defined.

(** * Further properties of the agent *)

(** ** Interruption and stop *)

(** The first checkpoint of a turn, the flag set: what the loop returns
    and what it leaves of the Ledger and the counters. *)
Lemma first_checkpoint (W : World) (a : FunctionCallAgent) (n : nat) :
  NoDup (tool_names a) ->
  interrupted a = true ->
  fst (turns_loop W (S n) a) = Ok (same_message AGENT_INTERRUPT_MESSAGE)
  /\ turns (history (snd (turns_loop W (S n) a)))
     = truncate W (turns (history a))
       ++ [AssistantTurn [TextResult AGENT_INTERRUPT_FAKE_MODEL_RSP]]
  /\ generate_calls (snd (turns_loop W (S n) a)) = generate_calls a
  /\ run_tool_calls (tool_manager (snd (turns_loop W (S n) a)))
     = run_tool_calls (tool_manager a).
Proof.
  intros Hnd Hi.
  rewrite turns_loop_S, (turn_interrupted W a (validate_tools_NoDup _ Hnd) Hi).
  repeat split.
Qed.

(** X1.  A turn that starts with the flag set makes no model call and
    runs no tool: it appends the synthetic assistant Turn, emits one
    agent-response-interrupted event and returns the agent-interruption
    message. *)
Theorem interrupted_before_model (W : World) (a : FunctionCallAgent) (n : nat) :
  NoDup (tool_names a) ->
  interrupted a = true ->
  let a' := snd (turns_loop W (S n) a) in
  fst (turns_loop W (S n) a) = Ok (same_message AGENT_INTERRUPT_MESSAGE)
  /\ turns (history a')
     = truncate W (turns (history a))
       ++ [AssistantTurn [TextResult AGENT_INTERRUPT_FAKE_MODEL_RSP]]
  /\ message_queue a'
     = message_queue a
       ++ [{| type := AGENT_RESPONSE_INTERRUPTED;
              content := text_content AGENT_INTERRUPT_FAKE_MODEL_RSP |}]
  /\ generate_calls a' = generate_calls a
  /\ run_tool_calls (tool_manager a') = run_tool_calls (tool_manager a).
Proof.
  intros Hnd Hi a'. subst a'.
  rewrite turns_loop_S, (turn_interrupted W a (validate_tools_NoDup _ Hnd) Hi).
  cbn [fst snd]. unfold with_fake_turn, response_event, truncated. cbn. rewrite Hi.
  repeat split.
Qed.

(** X2.  When the tool of a turn signals stop with a final answer, the
    run ends in that turn: the tool's result and then a synthetic
    assistant Turn carrying the answer are appended, and the answer is
    returned with the result message "Task completed".  A [cancel()]
    during that tool call does not change what is returned; it only
    turns the final event into an agent-response-interrupted event. *)
Theorem stop_signal_ends_run (W : World) (a : FunctionCallAgent) (n : nat)
    (c : ToolCallParameters) (answer : string) :
  NoDup (tool_names a) ->
  interrupted a = false ->
  tool_calls_of (gen_blocks (on_generate W (generate_calls a))) = [c] ->
  gen_cancelled (on_generate W (generate_calls a)) = false ->
  tool_stop (on_run_tool W (List.length (run_tool_calls (tool_manager a))) c)
  = Some answer ->
  let blocks := gen_blocks (on_generate W (generate_calls a)) in
  let step := on_run_tool W (List.length (run_tool_calls (tool_manager a))) c in
  let a' := snd (turns_loop W (S n) a) in
  fst (turns_loop W (S n) a)
  = Ok {| tool_output := answer; tool_result_message := "Task completed" |}
  /\ turns (history a')
     = truncate W (turns (history a))
       ++ [AssistantTurn blocks;
           ToolResultTurn (tool_call_id c) (tool_name c) (tool_text step);
           AssistantTurn [TextResult answer]]
  /\ message_queue a'
     = message_queue a ++ thinking_events blocks
       ++ [tool_call_event c;
           tool_result_event c (tool_text step);
           {| type := if tool_cancelled step
                      then AGENT_RESPONSE_INTERRUPTED else AGENT_RESPONSE;
              content := text_content answer |}]
  /\ run_tool_calls (tool_manager a') = run_tool_calls (tool_manager a) ++ [c]
  /\ interrupted a' = tool_cancelled step.
Proof.
  intros Hnd Hi Hc Hg Hstop blocks step a'. subst a'.
  assert (Hi2 : interrupted (after_model W a) = false)
    by (rewrite after_model_interrupted, Hi, Hg; reflexivity).
  assert (Htm := after_tool_tool_manager W c a).
  unfold tool_step_of in Htm. rewrite Hstop in Htm.
  assert (Hs : should_stop (tool_manager (after_tool W c a)) = true)
    by (rewrite Htm; reflexivity).
  assert (Hiz : interrupted (after_tool W c a) = tool_cancelled step)
    by (rewrite after_tool_interrupted, Hi2; reflexivity).
  rewrite turns_loop_S, (turn_model W a (validate_tools_NoDup _ Hnd) Hi).
  rewrite (response_of_calls W a Hc), Hc, Hi2, Hs. cbn [fst snd].
  unfold with_fake_turn, with_assistant_turn, emitted, response_event. cbn.
  rewrite Hiz, Htm, after_tool_history, after_tool_message_queue, after_model_history,
    after_model_message_queue, (response_of_calls W a Hc).
  fold blocks step. unfold tool_step_of. fold step.
  unfold history_add_assistant_turn, append_turn, history_truncate, get_final_answer,
    completed. cbn.
  rewrite <- !app_assoc. repeat split.
Qed.

(** X3.  When [cancel()] runs while the tool of a turn executes (and the
    tool does not signal stop), the tool's own result is still appended;
    the next turn then makes no further model call, appends the
    synthetic assistant Turn and returns the agent-interruption
    message. *)
Theorem cancel_during_tool (W : World) (a : FunctionCallAgent) (n : nat)
    (c : ToolCallParameters) :
  NoDup (tool_names a) ->
  interrupted a = false ->
  should_stop (tool_manager a) = false ->
  tool_calls_of (gen_blocks (on_generate W (generate_calls a))) = [c] ->
  gen_cancelled (on_generate W (generate_calls a)) = false ->
  tool_stop (on_run_tool W (List.length (run_tool_calls (tool_manager a))) c) = None ->
  tool_cancelled (on_run_tool W (List.length (run_tool_calls (tool_manager a))) c)
  = true ->
  let blocks := gen_blocks (on_generate W (generate_calls a)) in
  let step := on_run_tool W (List.length (run_tool_calls (tool_manager a))) c in
  let a' := snd (turns_loop W (S (S n)) a) in
  fst (turns_loop W (S (S n)) a) = Ok (same_message AGENT_INTERRUPT_MESSAGE)
  /\ turns (history a')
     = truncate W
         (truncate W (turns (history a))
          ++ [AssistantTurn blocks;
              ToolResultTurn (tool_call_id c) (tool_name c) (tool_text step)])
       ++ [AssistantTurn [TextResult AGENT_INTERRUPT_FAKE_MODEL_RSP]]
  /\ generate_calls a' = S (generate_calls a)
  /\ run_tool_calls (tool_manager a') = run_tool_calls (tool_manager a) ++ [c].
Proof.
  intros Hnd Hi Hs0 Hc Hg Hstop Hcancel blocks step a'. subst a'.
  assert (Hi2 : interrupted (after_model W a) = false)
    by (rewrite after_model_interrupted, Hi, Hg; reflexivity).
  assert (Htm := after_tool_tool_manager W c a).
  unfold tool_step_of in Htm. rewrite Hstop in Htm.
  assert (Hs : should_stop (tool_manager (after_tool W c a)) = false)
    by (rewrite Htm; exact Hs0).
  assert (Hiz : interrupted (after_tool W c a) = true).
  { rewrite after_tool_interrupted, Hi2. unfold tool_step_of.
    rewrite Hcancel. reflexivity. }
  assert (Hnd' : NoDup (tool_names (after_tool W c a)))
    by (unfold tool_names; rewrite Htm; exact Hnd).
  rewrite turns_loop_S, (turn_model W a (validate_tools_NoDup _ Hnd) Hi).
  rewrite (response_of_calls W a Hc), Hc, Hi2, Hs.
  destruct (@first_checkpoint W (after_tool W c a) n Hnd' Hiz)
    as [Hr [Ht [Hgc Hrt]]].
  split; [exact Hr|]. split; [|split].
  - rewrite Ht, after_tool_history, after_model_history, (response_of_calls W a Hc).
    unfold history_add_assistant_turn, append_turn, history_truncate, tool_step_of. cbn.
    rewrite <- !app_assoc. reflexivity.
  - rewrite Hgc. apply after_tool_generate_calls.
  - rewrite Hrt, Htm. reflexivity.
Qed.

(** X4.  A [cancel()] that runs during a model call whose answer asks
    for no tool is not honoured: the turn ends the run as completed,
    with an agent-response event, and leaves the flag set. *)
Theorem cancel_during_last_model_call (W : World) (a : FunctionCallAgent) (n : nat) :
  NoDup (tool_names a) ->
  interrupted a = false ->
  tool_calls_of (gen_blocks (on_generate W (generate_calls a))) = [] ->
  gen_cancelled (on_generate W (generate_calls a)) = true ->
  let a' := snd (turns_loop W (S n) a) in
  fst (turns_loop W (S n) a)
  = Ok {| tool_output := EmptyString; tool_result_message := "Task completed" |}
  /\ (exists earlier,
        message_queue a'
        = earlier ++ [{| type := AGENT_RESPONSE;
                         content := text_content "Task completed" |}])
  /\ interrupted a' = true.
Proof.
  intros Hnd Hi Hc Hg a'. subst a'.
  assert (Hr : tool_calls_of (response_of W a) = []).
  { unfold response_of. destruct (gen_blocks _); [reflexivity|exact Hc]. }
  rewrite turns_loop_S, (turn_model W a (validate_tools_NoDup _ Hnd) Hi), Hr.
  cbn [fst snd]. split; [reflexivity|]. split.
  - eexists. reflexivity.
  - change (interrupted (after_model W a) = true).
    rewrite after_model_interrupted, Hi, Hg. reflexivity.
Qed.

(** ** The events of a run *)

Lemma thinking_events_plain (blocks : list Block) :
  filter is_response (thinking_events blocks) = []
  /\ filter from_client (thinking_events blocks) = []
  /\ forall prev, paired prev (thinking_events blocks).
Proof.
  induction blocks as [|b blocks [IH1 [IH2 IH3]]]; [repeat split|].
  destruct b; cbn [thinking_events]; repeat split; trivial; apply IH3.
Qed.

Lemma with_fake_turn_queue (text : string) (a : FunctionCallAgent) :
  message_queue (with_fake_turn text a) = message_queue a ++ [response_event a text].
Proof. reflexivity. Qed.

Lemma response_event_is_response (a : FunctionCallAgent) (text : string) :
  is_response (response_event a text) = true
  /\ from_client (response_event a text) = false.
Proof. unfold response_event, is_response, from_client. cbn. now destruct (interrupted a). Qed.

(** The events one turn emits. *)
Lemma turn_events (W : World) (a : FunctionCallAgent) :
  exists events,
    message_queue (snd (turn W a)) = message_queue a ++ events
    /\ filter from_client events = []
    /\ match fst (turn W a) with
       | Ok (Some _) =>
           exists before e,
             events = before ++ [e]
             /\ is_response e = true /\ filter is_response before = []
       | _ => filter is_response events = []
       end.
Proof.
  destruct (thinking_events_plain (response_of W a)) as [Hr [Hu _]].
  destruct (turn_cases W a) as [e Hv|ps Hv Hi|ps Hv Hi Hc|ps c1 c2 cs Hv Hi Hc
                                |ps c Hv Hi Hc Hi2|ps c Hv Hi Hc Hi2 Hs|ps c Hv Hi Hc Hi2 Hs].
  - exists []. cbn. now rewrite app_nil_r.
  - exists [response_event (truncated W a) AGENT_INTERRUPT_FAKE_MODEL_RSP].
    split; [reflexivity|].
    destruct (response_event_is_response (truncated W a) AGENT_INTERRUPT_FAKE_MODEL_RSP)
      as [H1 H2].
    split; [cbn [filter]; now rewrite H2|].
    now exists [], (response_event (truncated W a) AGENT_INTERRUPT_FAKE_MODEL_RSP).
  - exists (thinking_events (response_of W a)
            ++ [{| type := AGENT_RESPONSE; content := text_content "Task completed" |}]).
    split; [cbn; rewrite after_model_message_queue, <- app_assoc; reflexivity|].
    split; [rewrite filter_app, Hu; reflexivity|]. eauto.
  - exists (thinking_events (response_of W a)).
    split; [apply after_model_message_queue|]. auto.
  - set (a1 := with_tool_result c TOOL_RESULT_INTERRUPT_MESSAGE
                 (emitted [tool_call_event c] (after_model W a))).
    exists ((thinking_events (response_of W a)
             ++ [tool_call_event c; tool_result_event c TOOL_RESULT_INTERRUPT_MESSAGE])
            ++ [response_event a1 TOOL_CALL_INTERRUPT_FAKE_MODEL_RSP]).
    destruct (response_event_is_response a1 TOOL_CALL_INTERRUPT_FAKE_MODEL_RSP) as [H1 H2].
    split; [|split].
    + rewrite with_fake_turn_queue. subst a1. cbn.
      rewrite after_model_message_queue, <- !app_assoc. reflexivity.
    + rewrite !filter_app, Hu. cbn [filter]. rewrite H2. reflexivity.
    + eexists _, _. split; [reflexivity|]. split; [exact H1|].
      rewrite filter_app, Hr. reflexivity.
  - set (text := tool_text (tool_step_of W c a)).
    set (answer := get_final_answer (tool_manager (after_tool W c a))).
    exists ((thinking_events (response_of W a)
             ++ [tool_call_event c; tool_result_event c text])
            ++ [response_event (after_tool W c a) answer]).
    destruct (response_event_is_response (after_tool W c a) answer) as [H1 H2].
    split; [|split].
    + rewrite with_fake_turn_queue, after_tool_message_queue, after_model_message_queue.
      rewrite <- !app_assoc. reflexivity.
    + rewrite !filter_app, Hu. cbn [filter]. rewrite H2. reflexivity.
    + eexists _, _. split; [reflexivity|]. split; [exact H1|].
      rewrite filter_app, Hr. reflexivity.
  - exists (thinking_events (response_of W a)
            ++ [tool_call_event c; tool_result_event c (tool_text (tool_step_of W c a))]).
    split; [|split].
    + rewrite after_tool_message_queue, after_model_message_queue.
      rewrite <- !app_assoc. reflexivity.
    + rewrite filter_app, Hu. reflexivity.
    + rewrite filter_app, Hr. reflexivity.
Qed.

Lemma loop_events (W : World) (n : nat) (a : FunctionCallAgent) :
  exists events,
    message_queue (snd (turns_loop W n a)) = message_queue a ++ events
    /\ filter from_client events = []
    /\ match fst (turns_loop W n a) with
       | Ok _ =>
           exists before e,
             events = before ++ [e]
             /\ is_response e = true /\ filter is_response before = []
       | Raise _ => filter is_response events = []
       end.
Proof.
  revert a. induction n as [|n IH]; intros a.
  - rewrite turns_loop_O. eexists. split; [reflexivity|]. split; [reflexivity|].
    now eexists [], _.
  - rewrite turns_loop_S. destruct (turn_events W a) as [ev1 [Hq [Hu Hr]]].
    destruct (turn W a) as [[[out|]|e] a1]; cbn [fst snd] in *; try (now exists ev1).
    destruct (IH a1) as [ev2 [Hq2 [Hu2 Hr2]]]. exists (ev1 ++ ev2).
    split; [rewrite Hq2, Hq, app_assoc; reflexivity|].
    split; [rewrite filter_app, Hu, Hu2; reflexivity|].
    destruct (fst (turns_loop W n a1)).
    + destruct Hr2 as [before [e [-> [He Hb]]]]. exists (ev1 ++ before), e.
      split; [now rewrite app_assoc|]. split; [exact He|].
      rewrite filter_app, Hr, Hb. reflexivity.
    + rewrite filter_app, Hr, Hr2. reflexivity.
Qed.

(** X5.  No event a run emits is a user-message event (so the consumer
    forwards them all).  A run that returns emits exactly one
    agent-response or agent-response-interrupted event, and it is the
    last event of the run; a run that raises emits none. *)
Theorem one_final_response (W : World) (tool_input : ToolInput) (a : FunctionCallAgent) :
  exists events,
    message_queue (snd (run_impl W tool_input a)) = message_queue a ++ events
    /\ Forall (fun e => type e <> USER_MESSAGE) events
    /\ match fst (run_impl W tool_input a) with
       | Ok _ =>
           exists before e,
             events = before ++ [e]
             /\ (type e = AGENT_RESPONSE \/ type e = AGENT_RESPONSE_INTERRUPTED)
             /\ Forall (fun e' => type e' <> AGENT_RESPONSE
                                  /\ type e' <> AGENT_RESPONSE_INTERRUPTED) before
       | Raise _ =>
           Forall (fun e' => type e' <> AGENT_RESPONSE
                             /\ type e' <> AGENT_RESPONSE_INTERRUPTED) events
       end.
Proof.
  assert (Hnone : forall l, filter is_response l = [] ->
            Forall (fun e' => type e' <> AGENT_RESPONSE
                              /\ type e' <> AGENT_RESPONSE_INTERRUPTED) l).
  { intros l Hl. apply Forall_forall. intros e He.
    assert (Hf : ~ In e (filter is_response l)) by (rewrite Hl; exact (fun H => H)).
    rewrite filter_In in Hf. unfold is_response in Hf.
    split; intros Ht; apply Hf; rewrite Ht; auto. }
  rewrite run_impl_eq.
  destruct (loop_events W (Z.to_nat (max_turns a)) (entered W tool_input a))
    as [events [Hq [Hu Hr]]].
  exists events. split; [exact Hq|]. split.
  - apply Forall_forall. intros e He Ht.
    assert (Hf : ~ In e (filter from_client events)) by (rewrite Hu; exact (fun H => H)).
    apply Hf. rewrite filter_In. split; [exact He|]. unfold from_client. now rewrite Ht.
  - destruct (fst (turns_loop W _ _)).
    + destruct Hr as [before [e [-> [He Hb]]]]. exists before, e.
      split; [reflexivity|]. split; [|now apply Hnone].
      unfold is_response in He. destruct (type e); try discriminate; auto.
    + now apply Hnone.
Qed.

Lemma paired_app (l1 l2 : list RealtimeEvent) (prev : option RealtimeEvent) :
  paired prev l1 -> (forall q, paired q l2) -> paired prev (l1 ++ l2).
Proof.
  intros H1 H2. revert prev H1.
  induction l1 as [|e l1 IH]; intros prev H1; [apply H2|].
  destruct H1 as [He Hrest]. cbn [app paired]. split; [|apply IH, Hrest].
  destruct (type e); trivial.
  destruct He as [c [text [rest' [-> ->]]]]. now exists c, text, (rest' ++ l2).
Qed.

Lemma paired_split (q1 q2 : list RealtimeEvent) (e : RealtimeEvent)
    (prev : option RealtimeEvent) :
  paired prev (q1 ++ e :: q2) ->
  (q1 = [] /\ paired prev (e :: q2))
  \/ exists q0 x, q1 = q0 ++ [x] /\ paired (Some x) (e :: q2).
Proof.
  revert prev. induction q1 as [|y q1 IH]; intros prev H; [now left|].
  right. destruct H as [_ H]. destruct (IH _ H) as [[-> Hp]|[q0 [x [-> Hp]]]].
  - now exists [], y.
  - now exists (y :: q0), x.
Qed.

Lemma paired_call (c : ToolCallParameters) (text : string) (rest : list RealtimeEvent) :
  (forall q, paired q rest) ->
  forall q, paired q (tool_call_event c :: tool_result_event c text :: rest).
Proof.
  intros Hrest q. split; [now exists c, text, rest|].
  split; [now exists c, text|apply Hrest].
Qed.

Lemma paired_response (a : FunctionCallAgent) (text : string) :
  forall q, paired q [response_event a text].
Proof.
  intros q. split; [|exact I]. unfold response_event. cbn. now destruct (interrupted a).
Qed.

Lemma turn_paired (W : World) (a : FunctionCallAgent) :
  exists events,
    message_queue (snd (turn W a)) = message_queue a ++ events
    /\ forall q, paired q events.
Proof.
  destruct (thinking_events_plain (response_of W a)) as [_ [_ Hp]].
  destruct (turn_cases W a) as [e Hv|ps Hv Hi|ps Hv Hi Hc|ps c1 c2 cs Hv Hi Hc
                                |ps c Hv Hi Hc Hi2|ps c Hv Hi Hc Hi2 Hs|ps c Hv Hi Hc Hi2 Hs].
  - exists []. cbn. now rewrite app_nil_r.
  - exists [response_event (truncated W a) AGENT_INTERRUPT_FAKE_MODEL_RSP].
    split; [reflexivity|apply paired_response].
  - exists (thinking_events (response_of W a)
            ++ [{| type := AGENT_RESPONSE; content := text_content "Task completed" |}]).
    split; [cbn; rewrite after_model_message_queue, <- app_assoc; reflexivity|].
    intros q. apply paired_app; [apply Hp|]. intros q'. now split.
  - exists (thinking_events (response_of W a)).
    split; [apply after_model_message_queue|exact Hp].
  - set (a1 := with_tool_result c TOOL_RESULT_INTERRUPT_MESSAGE
                 (emitted [tool_call_event c] (after_model W a))).
    exists (thinking_events (response_of W a)
            ++ tool_call_event c :: tool_result_event c TOOL_RESULT_INTERRUPT_MESSAGE
               :: [response_event a1 TOOL_CALL_INTERRUPT_FAKE_MODEL_RSP]).
    split.
    + rewrite with_fake_turn_queue. subst a1. cbn.
      rewrite after_model_message_queue, <- !app_assoc. reflexivity.
    + intros q. apply paired_app; [apply Hp|]. apply paired_call, paired_response.
  - set (text := tool_text (tool_step_of W c a)).
    set (answer := get_final_answer (tool_manager (after_tool W c a))).
    exists (thinking_events (response_of W a)
            ++ tool_call_event c :: tool_result_event c text
               :: [response_event (after_tool W c a) answer]).
    split.
    + rewrite with_fake_turn_queue, after_tool_message_queue, after_model_message_queue.
      rewrite <- !app_assoc. reflexivity.
    + intros q. apply paired_app; [apply Hp|]. apply paired_call, paired_response.
  - exists (thinking_events (response_of W a)
            ++ tool_call_event c :: tool_result_event c (tool_text (tool_step_of W c a))
               :: []).
    split.
    + rewrite after_tool_message_queue, after_model_message_queue.
      rewrite <- !app_assoc. reflexivity.
    + intros q. apply paired_app; [apply Hp|]. apply paired_call. now intros.
Qed.

Lemma loop_paired (W : World) (n : nat) (a : FunctionCallAgent) :
  exists events,
    message_queue (snd (turns_loop W n a)) = message_queue a ++ events
    /\ forall q, paired q events.
Proof.
  revert a. induction n as [|n IH]; intros a.
  - rewrite turns_loop_O. eexists. split; [reflexivity|]. intros q. now split.
  - rewrite turns_loop_S. destruct (turn_paired W a) as [ev1 [Hq Hp]].
    destruct (turn W a) as [[[out|]|e] a1]; cbn [fst snd] in *; try (now exists ev1).
    destruct (IH a1) as [ev2 [Hq2 Hp2]]. exists (ev1 ++ ev2).
    split; [rewrite Hq2, Hq, app_assoc; reflexivity|].
    intros q. now apply paired_app.
Qed.

(** X6.  In the events of a run every tool-result event comes right
    after the tool-call event of the same call, and every tool-call
    event is followed at once by a tool-result event of that call: no
    call is announced without a result, whether the tool ran or the run
    was interrupted before it. *)
Theorem tool_events_are_paired (W : World) (tool_input : ToolInput)
    (a : FunctionCallAgent) :
  exists events,
    message_queue (snd (run_impl W tool_input a)) = message_queue a ++ events
    /\ (forall q1 e q2,
          events = q1 ++ e :: q2 ->
          type e = TOOL_RESULT ->
          exists q0 c text,
            q1 = q0 ++ [tool_call_event c] /\ e = tool_result_event c text)
    /\ (forall q1 e q2,
          events = q1 ++ e :: q2 ->
          type e = TOOL_CALL ->
          exists c text q3,
            e = tool_call_event c /\ q2 = tool_result_event c text :: q3).
Proof.
  rewrite run_impl_eq.
  destruct (loop_paired W (Z.to_nat (max_turns a)) (entered W tool_input a))
    as [events [Hq Hp]].
  exists events. split; [exact Hq|]. split; intros q1 e q2 -> Ht.
  - destruct (paired_split _ _ _ _ (Hp None)) as [[-> [He _]]|[q0 [x [-> [He _]]]]];
      rewrite Ht in He; destruct He as [c [text [Hprev ->]]]; [discriminate|].
    injection Hprev as ->. now exists q0, c, text.
  - destruct (paired_split _ _ _ _ (Hp None)) as [[-> [He _]]|[q0 [x [-> [He _]]]]];
      rewrite Ht in He; destruct He as [c [text [rest' [-> ->]]]]; now exists c, text, rest'.
Qed.

(** ** The tools a run executes *)

(** What one turn adds to the log of appended Turns and to the calls
    handed to the executor. *)
Lemma turn_tool_runs (W : World) (a : FunctionCallAgent) :
  exists log ran,
    appended (history (snd (turn W a))) = appended (history a) ++ log
    /\ run_tool_calls (tool_manager (snd (turn W a)))
       = run_tool_calls (tool_manager a) ++ ran
    /\ List.length ran <= generate_calls (snd (turn W a)) - generate_calls a
    /\ forall c, In c ran ->
         In c (invocations log) /\ In (tool_call_id c) (answered log).
Proof.
  destruct (turn_cases W a) as [e Hv|ps Hv Hi|ps Hv Hi Hc|ps c1 c2 cs Hv Hi Hc
                                |ps c Hv Hi Hc Hi2|ps c Hv Hi Hc Hi2 Hs|ps c Hv Hi Hc Hi2 Hs].
  - exists [], []. cbn. rewrite !app_nil_r. repeat split; try lia; contradiction.
  - exists [AssistantTurn [TextResult AGENT_INTERRUPT_FAKE_MODEL_RSP]], [].
    cbn. rewrite !app_nil_r. repeat split; try lia; contradiction.
  - exists [AssistantTurn (response_of W a)], []. cbn.
    rewrite after_model_history, after_model_tool_manager, app_nil_r.
    repeat split; try (cbn; lia); contradiction.
  - exists [AssistantTurn (response_of W a)], [].
    rewrite after_model_history, after_model_tool_manager, app_nil_r.
    repeat split; try (cbn; lia); contradiction.
  - exists [AssistantTurn (response_of W a);
            ToolResultTurn (tool_call_id c) (tool_name c) TOOL_RESULT_INTERRUPT_MESSAGE;
            AssistantTurn [TextResult TOOL_CALL_INTERRUPT_FAKE_MODEL_RSP]], [].
    cbn. rewrite after_model_history, after_model_tool_manager, app_nil_r.
    unfold history_add_assistant_turn, append_turn. cbn. rewrite <- !app_assoc.
    repeat split; try lia; contradiction.
  - exists [AssistantTurn (response_of W a);
            ToolResultTurn (tool_call_id c) (tool_name c) (tool_text (tool_step_of W c a));
            AssistantTurn [TextResult (get_final_answer (tool_manager (after_tool W c a)))]],
           [c].
    cbn [fst snd]. split; [|split; [|split]].
    + cbn. rewrite after_tool_history, after_model_history.
      unfold history_add_assistant_turn, append_turn. cbn. rewrite <- !app_assoc.
      reflexivity.
    + cbn. rewrite after_tool_tool_manager. reflexivity.
    + change (generate_calls (with_fake_turn _ (after_tool W c a)))
        with (generate_calls (after_tool W c a)).
      rewrite after_tool_generate_calls. cbn [List.length]. lia.
    + intros c' [<-|[]]. cbn [invocations answered]. rewrite Hc. cbn. auto.
  - exists [AssistantTurn (response_of W a);
            ToolResultTurn (tool_call_id c) (tool_name c) (tool_text (tool_step_of W c a))],
           [c].
    cbn [fst snd]. split; [|split; [|split]].
    + rewrite after_tool_history, after_model_history.
      unfold history_add_assistant_turn, append_turn. cbn. rewrite <- !app_assoc.
      reflexivity.
    + rewrite after_tool_tool_manager. reflexivity.
    + rewrite after_tool_generate_calls. cbn [List.length]. lia.
    + intros c' [<-|[]]. cbn [invocations answered]. rewrite Hc. cbn. auto.
Qed.

Lemma loop_tool_runs (W : World) (n : nat) (a : FunctionCallAgent) :
  exists log ran,
    appended (history (snd (turns_loop W n a))) = appended (history a) ++ log
    /\ run_tool_calls (tool_manager (snd (turns_loop W n a)))
       = run_tool_calls (tool_manager a) ++ ran
    /\ List.length ran <= generate_calls (snd (turns_loop W n a)) - generate_calls a
    /\ forall c, In c ran ->
         In c (invocations log) /\ In (tool_call_id c) (answered log).
Proof.
  revert a. induction n as [|n IH]; intros a.
  - rewrite turns_loop_O. exists [], []. cbn. rewrite !app_nil_r.
    repeat split; try lia; contradiction.
  - rewrite turns_loop_S. destruct (turn_tool_runs W a) as [log [ran [Ha [Hr [Hl Hin]]]]].
    pose proof (turn_generate_calls W a) as Hg.
    destruct (turn W a) as [[[out|]|e] a1]; cbn [fst snd] in *;
      try (now exists log, ran).
    destruct (IH a1) as [log2 [ran2 [Ha2 [Hr2 [Hl2 Hin2]]]]].
    pose proof (loop_generate_calls W n a1) as Hg2.
    exists (log ++ log2), (ran ++ ran2).
    split; [rewrite Ha2, Ha, app_assoc; reflexivity|].
    split; [rewrite Hr2, Hr, app_assoc; reflexivity|].
    split; [rewrite length_app; lia|].
    intros c Hc. rewrite invocations_app, answered_app, !in_app_iff.
    apply in_app_or in Hc. destruct Hc as [Hc|Hc].
    + destruct (Hin c Hc). auto.
    + destruct (Hin2 c Hc). auto.
Qed.

(** X7.  The executor is handed no more calls than the model was called
    in the run, and every call it is handed is a tool invocation of an
    assistant Turn appended in this run whose result Turn was appended
    in this run as well. *)
Theorem tools_run_were_asked_for (W : World) (tool_input : ToolInput)
    (a : FunctionCallAgent) :
  let a' := snd (run_impl W tool_input a) in
  exists log ran,
    appended (history a') = appended (history a) ++ log
    /\ run_tool_calls (tool_manager a') = run_tool_calls (tool_manager a) ++ ran
    /\ List.length ran <= generate_calls a' - generate_calls a
    /\ forall c, In c ran ->
         In c (invocations log) /\ In (tool_call_id c) (answered log).
Proof.
  intros a'. subst a'. rewrite run_impl_eq.
  destruct (loop_tool_runs W (Z.to_nat (max_turns a)) (entered W tool_input a))
    as [log [ran [Ha [Hr [Hl Hin]]]]].
  exists (UserTurn (fst (user_prompt W tool_input)) (snd (user_prompt W tool_input)) :: log),
         ran.
  split; [rewrite Ha; cbn; rewrite <- app_assoc; reflexivity|].
  split; [exact Hr|]. split; [exact Hl|exact Hin].
Qed.

(** ** The Ledger a run leaves *)

Lemma pending_after_final_assistant (h : MessageHistory) (ts : list Turn)
    (blocks : list Block) :
  turns h = ts ++ [AssistantTurn blocks] ->
  history_get_pending_tool_calls h = tool_calls_of blocks.
Proof.
  intros Ht. unfold history_get_pending_tool_calls. rewrite Ht, rev_unit. cbn.
  apply filter_all. reflexivity.
Qed.

Lemma turn_return_ledger (W : World) (a : FunctionCallAgent) (out : ToolImplOutput) :
  fst (turn W a) = Ok (Some out) ->
  out <> same_message MAX_TURNS_MESSAGE
  /\ exists ts blocks,
       turns (history (snd (turn W a))) = ts ++ [AssistantTurn blocks]
       /\ tool_calls_of blocks = [].
Proof.
  destruct (turn_cases W a) as [e Hv|ps Hv Hi|ps Hv Hi Hc|ps c1 c2 cs Hv Hi Hc
                                |ps c Hv Hi Hc Hi2|ps c Hv Hi Hc Hi2 Hs|ps c Hv Hi Hc Hi2 Hs];
    intros [= <-]; (split; [intros H; inversion H|]).
  - now eexists _, _.
  - eexists _, _. cbn. rewrite after_model_history. split; [reflexivity|exact Hc].
  - now eexists _, _.
  - now eexists _, _.
Qed.

Lemma loop_return_ledger (W : World) (n : nat) (a : FunctionCallAgent)
    (out : ToolImplOutput) :
  fst (turns_loop W n a) = Ok out ->
  out <> same_message MAX_TURNS_MESSAGE ->
  exists ts blocks,
    turns (history (snd (turns_loop W n a))) = ts ++ [AssistantTurn blocks]
    /\ tool_calls_of blocks = [].
Proof.
  revert a. induction n as [|n IH]; intros a.
  - rewrite turns_loop_O. intros [= <-] Hne. now contradiction Hne.
  - rewrite turns_loop_S. pose proof (turn_return_ledger W a) as Ht.
    destruct (turn W a) as [[[out1|]|e] a1]; cbn [fst snd] in *.
    + intros [= <-] _. now destruct (Ht out1 eq_refl).
    + apply IH.
    + discriminate.
Qed.

(** X8.  A run that returns without having used up its turns leaves an
    assistant Turn without tool invocation at the end of the Ledger, so
    that no tool call is pending and the next Turn is the user's. *)
Theorem early_return_leaves_assistant_turn (W : World) (tool_input : ToolInput)
    (a : FunctionCallAgent) (out : ToolImplOutput) :
  fst (run_impl W tool_input a) = Ok out ->
  out <> same_message MAX_TURNS_MESSAGE ->
  let a' := snd (run_impl W tool_input a) in
  (exists ts blocks,
     turns (history a') = ts ++ [AssistantTurn blocks] /\ tool_calls_of blocks = [])
  /\ history_get_pending_tool_calls (history a') = [].
Proof.
  rewrite run_impl_eq. intros Hr Hne a'. subst a'.
  destruct (loop_return_ledger W _ _ Hr Hne) as [ts [blocks [Ht Hc]]].
  split; [now exists ts, blocks|].
  rewrite (pending_after_final_assistant _ _ _ Ht). exact Hc.
Qed.

(** ** More on the event consumer *)

Lemma process_one_healthy (d : Delivery) (a : FunctionCallAgent) (o : Outside)
    (ws : nat) (sid : string) :
  websocket a = Some ws ->
  session_id a = Some sid ->
  save_raises d = None ->
  send_raises d = None ->
  process_one d (a, o) =
  (Ok true,
   (a, {| events_table := events_table o ++ [(sid, message d)];
          wire := wire o ++ (if from_client (message d) then [] else [message d]) |})).
Proof.
  intros Hw Hsid Hsave Hsend. consume. rewrite Hsid. cbn. rewrite Hsave. cbn.
  rewrite Hw. unfold from_client.
  destruct (EventType_eqb (type (message d)) USER_MESSAGE); cbn.
  - now rewrite app_nil_r.
  - rewrite Hsend. reflexivity.
Qed.

(** X9.  With a session id, a websocket, and a database and transport
    that do not fail, the consumer persists every event and forwards
    every event that is not a user message, both in the order of the
    queue, and keeps the websocket. *)
Theorem healthy_consumer_keeps_order (ds : list Delivery) (a : FunctionCallAgent)
    (o : Outside) (ws : nat) (sid : string) :
  websocket a = Some ws ->
  session_id a = Some sid ->
  (forall d, In d ds -> save_raises d = None /\ send_raises d = None) ->
  _process_messages ds (a, o) =
  (Ok tt,
   (a, {| events_table := events_table o ++ map (fun d => (sid, message d)) ds;
          wire := wire o
                  ++ filter (fun m => negb (EventType_eqb (type m) USER_MESSAGE))
                       (map message ds) |})).
Proof.
  intros Hw Hsid Hok. apply _process_messages_eq. revert o.
  induction ds as [|d ds IH]; intros o.
  - cbn. rewrite !app_nil_r. now destruct o.
  - destruct (Hok d (or_introl eq_refl)) as [Hsave Hsend].
    cbn [process_loop]. unfold bind.
    rewrite (@process_one_healthy d a o ws sid Hw Hsid Hsave Hsend).
    rewrite IH by (intros d' Hd'; apply Hok; now right). cbn [events_table wire map filter].
    unfold from_client. rewrite <- !app_assoc.
    destruct (EventType_eqb (type (message d)) USER_MESSAGE); reflexivity.
Qed.

(** X10.  When [save_event] raises for an event, the event is neither
    persisted nor forwarded, even with a working websocket, and the
    consumer goes on with the next event as if the failed one had not
    been in the queue. *)
Theorem save_failure_skips_the_event (d : Delivery) (rest : list Delivery)
    (a : FunctionCallAgent) (o : Outside) (sid : string) (e : exn) :
  session_id a = Some sid ->
  save_raises d = Some e ->
  is_Exception e = true ->
  _process_messages (d :: rest) (a, o) = _process_messages rest (a, o).
Proof.
  intros Hsid Hsave He. unfold _process_messages, try_except.
  cbn [process_loop]. unfold bind at 1.
  assert (H1 : process_one d (a, o) = (Ok true, (a, o))).
  { consume. rewrite Hsid. cbn. rewrite Hsave. cbn. destruct e; [reflexivity..|discriminate]. }
  rewrite H1. reflexivity.
Qed.

(** X11.  When the send of an event ends with the task's cancellation,
    the consumer stops there: the event has been persisted, the
    websocket is kept, and the events still in the queue are neither
    persisted nor forwarded. *)
Theorem cancellation_stops_the_consumer (d : Delivery) (rest : list Delivery)
    (a : FunctionCallAgent) (o : Outside) (ws : nat) :
  websocket a = Some ws ->
  type (message d) <> USER_MESSAGE ->
  save_raises d = None ->
  send_raises d = Some CancelledError ->
  _process_messages (d :: rest) (a, o) =
  (Ok tt,
   (a, match session_id a with
       | Some sid => saved sid (message d) o
       | None => o
       end)).
Proof.
  intros Hw Ht Hsave Hsend. apply EventType_eqb_neq in Ht.
  apply _process_messages_eq. cbn [process_loop]. unfold bind.
  assert (H1 : process_one d (a, o)
               = (Ok false, (a, match session_id a with
                                | Some sid => saved sid (message d) o
                                | None => o
                                end))).
  { consume. destruct (session_id a) as [sid|]; cbn; rewrite ?Hsave; cbn;
      rewrite Hw, Ht; cbn; rewrite Hsend; reflexivity. }
  rewrite H1. reflexivity.
Qed.

Lemma process_one_frame (d : Delivery) (a : FunctionCallAgent) (o : Outside) :
  let s' := snd (process_one d (a, o)) in
  session_id (fst s') = session_id a
  /\ (session_id a = None -> events_table (snd s') = events_table o)
  /\ (wire (snd s') = wire o
      \/ (wire (snd s') = wire o ++ [message d] /\ type (message d) <> USER_MESSAGE
          /\ websocket a <> None)).
Proof.
  consume. destruct (session_id a) as [sid|] eqn:Hsid; cbn.
  - destruct (save_raises d) as [e|]; cbn.
    + destruct e; cbn; rewrite ?Hsid; repeat split; auto; discriminate.
    + destruct (EventType_eqb (type (message d)) USER_MESSAGE) eqn:Ht; cbn;
        [rewrite Hsid; repeat split; auto; discriminate|].
      destruct (websocket a) eqn:Hw; cbn; [|rewrite Hsid; repeat split; auto; discriminate].
      destruct (send_raises d) as [e|]; cbn.
      * destruct e; cbn; rewrite ?Hsid; repeat split; auto; discriminate.
      * rewrite Hsid. repeat split; try discriminate. right. repeat split; try discriminate.
        intros Heq. rewrite Heq in Ht. discriminate.
  - destruct (EventType_eqb (type (message d)) USER_MESSAGE) eqn:Ht; cbn;
      [rewrite Hsid; repeat split; auto|].
    destruct (websocket a) eqn:Hw; cbn; [|rewrite Hsid; repeat split; auto].
    destruct (send_raises d) as [e|]; cbn.
    + destruct e; cbn; rewrite ?Hsid; repeat split; auto.
    + rewrite Hsid. repeat split; auto. right. repeat split; try discriminate.
      intros Heq. rewrite Heq in Ht. discriminate.
Qed.

Lemma process_loop_frame (ds : list Delivery) (a : FunctionCallAgent) (o : Outside) :
  let s' := snd (process_loop ds (a, o)) in
  session_id (fst s') = session_id a
  /\ (session_id a = None -> events_table (snd s') = events_table o)
  /\ exists sent,
       wire (snd s') = wire o ++ sent
       /\ Forall (fun m => type m <> USER_MESSAGE /\ In m (map message ds)) sent.
Proof.
  revert a o. induction ds as [|d ds IH]; intros a o.
  - cbn. repeat split. exists []. now rewrite app_nil_r.
  - cbn [process_loop]. unfold bind.
    pose proof (process_one_frame d a o) as [Hsid [Htab Hwire]].
    destruct (process_one_never_raises d (a, o)) as [continue [[a1 o1] Hp]].
    rewrite Hp in *. cbn [fst snd] in *.
    assert (Hsent1 : exists sent1,
               wire o1 = wire o ++ sent1
               /\ Forall (fun m => type m <> USER_MESSAGE
                                   /\ In m (map message (d :: ds))) sent1).
    { destruct Hwire as [->|[-> [Ht _]]].
      - exists []. now rewrite app_nil_r.
      - exists [message d]. split; [reflexivity|].
        constructor; [|constructor]. split; [exact Ht|now left]. }
    destruct continue; [|cbn; auto].
    destruct (IH a1 o1) as [Hsid2 [Htab2 [sent2 [Hw2 Hf2]]]].
    destruct Hsent1 as [sent1 [Hw1 Hf1]].
    split; [congruence|]. split.
    + intros Hnone. rewrite Htab2 by congruence. auto.
    + exists (sent1 ++ sent2). split; [rewrite Hw2, Hw1, app_assoc; reflexivity|].
      apply Forall_app. split; [exact Hf1|].
      eapply Forall_impl; [|exact Hf2]. intros m [Ht Hin]. split; [exact Ht|now right].
Qed.

(** X12.  Whatever the database and the transport do, the consumer
    never forwards a user-message event: what reaches the transport are
    events of the queue of other types.  And an agent without session
    id persists nothing. *)
Theorem user_messages_are_never_forwarded (ds : list Delivery) (a : FunctionCallAgent)
    (o : Outside) :
  let o' := snd (snd (_process_messages ds (a, o))) in
  (exists sent,
     wire o' = wire o ++ sent
     /\ Forall (fun m => type m <> USER_MESSAGE /\ In m (map message ds)) sent)
  /\ (session_id a = None -> events_table o' = events_table o).
Proof.
  destruct (process_loop_never_raises ds (a, o)) as [s' Hs].
  rewrite (_process_messages_eq _ _ Hs).
  pose proof (process_loop_frame ds a o) as [_ [Htab Hsent]].
  rewrite Hs in *. cbn [snd] in *. split; assumption.
Qed.

(** ** The user prompt and the attached files *)

Lemma list_ascii_of_string_app (s1 s2 : string) :
  list_ascii_of_string (s1 ++ s2) = list_ascii_of_string s1 ++ list_ascii_of_string s2.
Proof. induction s1 as [|c s1 IH]; cbn; [reflexivity|now rewrite IH]. Qed.

Lemma last_segment_aux_no_dot (cur l : list ascii) :
  forallb (fun c => negb (Ascii.eqb c "."%char)) l = true ->
  last_segment_aux cur l = rev cur ++ l.
Proof.
  revert cur. induction l as [|c l IH]; intros cur H; cbn.
  - now rewrite app_nil_r.
  - cbn in H. apply andb_true_iff in H. destruct H as [Hc Hl].
    apply negb_true_iff in Hc. rewrite Hc, IH by exact Hl. cbn.
    rewrite <- app_assoc. reflexivity.
Qed.

Lemma last_segment_aux_dot (cur l1 l2 : list ascii) :
  last_segment_aux cur (l1 ++ "."%char :: l2) = last_segment_aux [] l2.
Proof.
  revert cur. induction l1 as [|c l1 IH]; intros cur; cbn; [reflexivity|].
  destruct (Ascii.eqb c "."%char); apply IH.
Qed.

Lemma last_segment_extension (base ext : string) :
  no_dot ext = true -> last_segment (base ++ "." ++ ext) = ext.
Proof.
  intros H. unfold last_segment. rewrite list_ascii_of_string_app. cbn.
  rewrite last_segment_aux_dot, last_segment_aux_no_dot by exact H.
  apply string_of_list_ascii_of_string.
Qed.

Lemma last_segment_no_dot (file : string) :
  no_dot file = true -> last_segment file = file.
Proof.
  intros H. unfold last_segment. rewrite last_segment_aux_no_dot by exact H.
  apply string_of_list_ascii_of_string.
Qed.

(** X13.  A file is attached as a picture exactly when what follows its
    last dot is png, gif, jpeg, webp or jpg, in lower case; a jpg file
    is labelled image/jpeg.  A file name without any dot counts as its
    own extension. *)
Theorem pictures_by_extension (W : World) (base ext : string) :
  no_dot ext = true ->
  let block file :=
    {| media_type := "image/" ++ (if String.eqb ext "jpg" then "jpeg" else ext);
       data := encode_image W (workspace_path W file) |} in
  image_block_of W (base ++ "." ++ ext)%string
  = (if mem_string ext picture_extensions then [block (base ++ "." ++ ext)%string] else [])
  /\ image_block_of W ext
     = (if mem_string ext picture_extensions then [block ext] else []).
Proof.
  intros Hext block.
  assert (H : forall file, last_segment file = ext ->
            image_block_of W file
            = if mem_string ext picture_extensions then [block file] else []).
  { intros file Hl. unfold image_block_of. rewrite Hl. subst block.
    unfold picture_extensions, mem_string. cbn [existsb].
    destruct (String.eqb ext "jpg") eqn:Hj.
    - apply String.eqb_eq in Hj. rewrite Hj. reflexivity.
    - rewrite !orb_false_r. reflexivity. }
  split; apply H; [now apply last_segment_extension|now apply last_segment_no_dot].
Qed.

Lemma prefix_app (s t : string) : String.prefix s (s ++ t) = true.
Proof.
  induction s as [|c s IH]; cbn; [now destruct t|].
  destruct (ascii_dec c c); [exact IH|congruence].
Qed.

Lemma image_block_of_spec (W : World) (file : string) :
  List.length (image_block_of W file) <= 1
  /\ Forall (fun b => In (media_type b)
                        ["image/png"; "image/gif"; "image/jpeg"; "image/webp"])
       (image_block_of W file).
Proof.
  unfold image_block_of.
  set (ext := if String.eqb (last_segment file) "jpg" then "jpeg" else last_segment file).
  destruct (mem_string ext ["png"; "gif"; "jpeg"; "webp"]) eqn:Hm; cbn; [|split; auto].
  split; [lia|]. constructor; [|constructor]. cbn [media_type].
  apply mem_string_In in Hm. cbn in Hm. cbn.
  destruct Hm as [<-|[<-|[<-|[<-|[]]]]]; auto.
Qed.

(** X14.  The user Turn of a run starts with the instruction as given.
    Without attached files it is the instruction alone, with no image.
    There is at most one image block per attached file, and the media
    type of every image block is image/png, image/gif, image/jpeg or
    image/webp. *)
Theorem user_prompt_shape (W : World) (tool_input : ToolInput) :
  let prompt := user_prompt W tool_input in
  String.prefix (instruction tool_input) (fst prompt) = true
  /\ (number_of_files tool_input = 0 -> prompt = (instruction tool_input, []))
  /\ List.length (snd prompt) <= number_of_files tool_input
  /\ Forall (fun b => In (media_type b)
                         ["image/png"; "image/gif"; "image/jpeg"; "image/webp"])
       (snd prompt).
Proof.
  unfold user_prompt, number_of_files.
  destruct (files tool_input) as [[|f fs]|]; cbn [fst snd].
  - repeat split; auto. rewrite <- (prefix_app (instruction tool_input) EmptyString) at 1.
    f_equal. induction (instruction tool_input) as [|c s IH]; cbn; congruence.
  - split; [apply prefix_app|]. split; [discriminate|].
    generalize (f :: fs). intros l. induction l as [|x l [IHl IHf]]; [cbn; auto|].
    cbn [flat_map List.length]. destruct (image_block_of_spec W x) as [H1 H2].
    rewrite length_app. split; [lia|]. apply Forall_app. auto.
  - repeat split; auto. rewrite <- (prefix_app (instruction tool_input) EmptyString) at 1.
    f_equal. induction (instruction tool_input) as [|c s IH]; cbn; congruence.
Qed.

(** ** Folding the reasoning text *)

(** *** White space and the pieces of a string *)

Lemma white_space_shape :
  forallb (fun p => match p with
                    | [] => false
                    | c :: t => negb (continuation c) && forallb continuation t
                    end) white_space = true.
Proof. reflexivity. Qed.

Lemma white_space_in (p : list ascii) :
  In p white_space ->
  exists c t, p = c :: t /\ continuation c = false /\ forallb continuation t = true.
Proof.
  intros H. pose proof white_space_shape as S. rewrite forallb_forall in S.
  specialize (S p H). destruct p as [|c t]; [discriminate|].
  apply andb_true_iff in S as [Hc Ht]. apply negb_true_iff in Hc. now exists c, t.
Qed.

Lemma starts_with_tail (p s1 s2 : list ascii) :
  forallb continuation p = true ->
  (forall c s, s2 = c :: s -> continuation c = false) ->
  starts_with p (s1 ++ s2) = starts_with p s1.
Proof.
  intros Hp H2. revert s1. induction p as [|y p IH]; intros s1; [reflexivity|].
  cbn [forallb] in Hp. apply andb_true_iff in Hp as [Hy Hp].
  destruct s1 as [|z s1]; cbn [app starts_with].
  - destruct s2 as [|c s]; [reflexivity|].
    destruct (Ascii.eqb y c) eqn:E; [|reflexivity].
    apply Ascii.eqb_eq in E. subst c. rewrite (H2 y s eq_refl) in Hy. discriminate.
  - now rewrite IH.
Qed.

Lemma starts_with_firstn (p s : list ascii) :
  starts_with p s = true ->
  List.length p <= List.length s /\ firstn (List.length p) s = p.
Proof.
  revert s. induction p as [|x p IH]; intros s H; [split; [cbn; lia|reflexivity]|].
  destruct s as [|y s]; [discriminate|]. cbn [starts_with] in H.
  apply andb_true_iff in H as [Hx Hp]. apply Ascii.eqb_eq in Hx. subst y.
  destruct (IH s Hp) as [Hl Hf]. cbn [List.length firstn]. rewrite Hf. split; [lia|reflexivity].
Qed.

Lemma find_ext_in {A} (f g : A -> bool) (l : list A) :
  (forall x, In x l -> f x = g x) -> find f l = find g l.
Proof.
  induction l as [|x l IH]; intros H; [reflexivity|]. cbn [find].
  rewrite (H x (or_introl eq_refl)), IH; [reflexivity|].
  intros y Hy. apply H. now right.
Qed.

Lemma space_len_app (s1 s2 : list ascii) :
  s1 <> [] ->
  (forall c s, s2 = c :: s -> continuation c = false) ->
  space_len (s1 ++ s2) = space_len s1.
Proof.
  intros H1 H2. unfold space_len.
  rewrite (find_ext_in (fun p => starts_with p (s1 ++ s2)) (fun p => starts_with p s1));
    [reflexivity|].
  intros p Hp. destruct (@white_space_in p Hp) as [c [t [-> [_ Ht]]]].
  destruct s1 as [|x s1]; [congruence|]. cbn [app starts_with].
  f_equal. now apply starts_with_tail.
Qed.

Lemma space_len_found (s : list ascii) (k : nat) :
  space_len s = S k ->
  In (firstn (S k) s) white_space /\ S k <= List.length s.
Proof.
  unfold space_len. destruct (find _ white_space) as [p|] eqn:F; [|discriminate].
  apply find_some in F as [Hin Hp]. intros <-.
  destruct (@starts_with_firstn _ _ Hp) as [Hl Hf]. now rewrite Hf.
Qed.

Lemma pieces_aux_fuel (fuel1 fuel2 : nat) (s : list ascii) :
  List.length s <= fuel1 -> List.length s <= fuel2 ->
  pieces_aux fuel1 s = pieces_aux fuel2 s.
Proof.
  revert fuel2 s. induction fuel1 as [|f1 IH]; intros fuel2 s H1 H2.
  - destruct s; [|cbn in H1; lia]. now destruct fuel2.
  - destruct s as [|c rest]; [now destruct fuel2|].
    destruct fuel2 as [|f2]; [cbn in H2; lia|].
    cbn [pieces_aux]. cbn [List.length] in H1, H2.
    destruct (space_len (c :: rest)) as [|k]; f_equal; apply IH;
      rewrite ?length_skipn; lia.
Qed.

(** The equation of [pieces]. *)
Lemma pieces_cons (c : ascii) (rest : list ascii) :
  pieces (c :: rest)
  = match space_len (c :: rest) with
    | O => Byte c :: pieces rest
    | S k => Space (firstn (S k) (c :: rest)) :: pieces (skipn k rest)
    end.
Proof.
  unfold pieces. cbn [List.length pieces_aux].
  destruct (space_len (c :: rest)) as [|k]; [reflexivity|].
  f_equal. apply pieces_aux_fuel; rewrite ?length_skipn; lia.
Qed.

(** Induction along the pieces of a string. *)
Lemma pieces_ind (P : list ascii -> Prop) :
  P [] ->
  (forall c rest, space_len (c :: rest) = 0 -> P rest -> P (c :: rest)) ->
  (forall c rest k,
     space_len (c :: rest) = S k -> k <= List.length rest ->
     In (firstn (S k) (c :: rest)) white_space ->
     P (skipn k rest) -> P (c :: rest)) ->
  forall s, P s.
Proof.
  intros Hnil Hbyte Hspace s.
  remember (List.length s) as n eqn:Hn.
  assert (H : List.length s <= n) by lia. clear Hn.
  revert s H. induction n as [|n IH]; intros s H.
  - destruct s; [exact Hnil|cbn in H; lia].
  - destruct s as [|c rest]; [exact Hnil|]. cbn [List.length] in H.
    destruct (space_len (c :: rest)) as [|k] eqn:E.
    + apply Hbyte; [exact E|]. apply IH. lia.
    + destruct (@space_len_found _ _ E) as [Hin Hk]. cbn [List.length] in Hk.
      apply (Hspace c rest k E); [lia|exact Hin|].
      apply IH. rewrite length_skipn. lia.
Qed.

Lemma flat_pieces (s : list ascii) : flat_map bytes_of (pieces s) = s.
Proof.
  induction s as [|c rest E IH|c rest k E Hk Hin IH] using pieces_ind; [reflexivity| |];
    rewrite pieces_cons, E; cbn [flat_map bytes_of firstn app].
  - now rewrite IH.
  - now rewrite IH, firstn_skipn.
Qed.

Lemma pieces_proper (s : list ascii) : Forall proper (pieces s).
Proof.
  induction s as [|c rest E IH|c rest k E Hk Hin IH] using pieces_ind;
    [constructor| |]; rewrite pieces_cons, E; constructor; trivial. exact I.
Qed.

Lemma proper_bytes (u : Piece) : proper u -> bytes_of u <> [].
Proof.
  destruct u as [p|b]; [|discriminate]. intros H.
  destruct (@white_space_in p H) as [c [t [-> _]]]. discriminate.
Qed.

Lemma pieces_app (s1 s2 : list ascii) :
  fresh_start s2 -> pieces (s1 ++ s2) = pieces s1 ++ pieces s2.
Proof.
  intros H2.
  induction s1 as [|c rest E IH|c rest k E Hk Hin IH] using pieces_ind; [reflexivity| |];
    change ((c :: rest) ++ s2) with (c :: (rest ++ s2));
    rewrite (pieces_cons c rest), (pieces_cons c (rest ++ s2));
    change (c :: (rest ++ s2)) with ((c :: rest) ++ s2);
    rewrite (@space_len_app (c :: rest) s2) by (discriminate || exact H2);
    rewrite E.
  - cbn [app]. now rewrite IH.
  - rewrite firstn_app, skipn_app.
    replace (S k - List.length (c :: rest)) with 0 by (cbn [List.length]; lia).
    replace (k - List.length rest) with 0 by lia.
    cbn [firstn skipn]. rewrite app_nil_r, IH. reflexivity.
Qed.

Lemma pieces_prefix_eq (X X' Y Y' : list Piece) :
  Forall proper X -> Forall proper X' ->
  X ++ Y = X' ++ Y' ->
  flat_map bytes_of X = flat_map bytes_of X' ->
  X = X' /\ Y = Y'.
Proof.
  intros HX. revert X'. induction HX as [|u X Hu HX IH]; intros X' HX' Happ Hflat.
  - destruct HX' as [|u' X' Hu' _]; [now split|].
    cbn [flat_map] in Hflat. symmetry in Hflat. apply app_eq_nil in Hflat as [Hb _].
    now apply proper_bytes in Hu'.
  - destruct HX' as [|u' X' Hu' HX'].
    + cbn [flat_map] in Hflat. apply app_eq_nil in Hflat as [Hb _].
      now apply proper_bytes in Hu.
    + cbn [app] in Happ. injection Happ as -> Happ.
      cbn [flat_map] in Hflat. apply app_inv_head in Hflat.
      destruct (IH X' HX' Happ Hflat) as [-> ->]. now split.
Qed.

Lemma pieces_space_head (p f : list ascii) (R : list Piece) :
  pieces (p ++ f) = Space p :: R -> pieces f = R.
Proof.
  destruct p as [|c pt]; cbn [app].
  - intros H. pose proof (pieces_proper f) as HS. rewrite H in HS.
    inversion HS as [|? ? Hp _]. destruct (@white_space_in _ Hp) as [? [? [? _]]].
    discriminate.
  - rewrite pieces_cons. destruct (space_len (c :: pt ++ f)) as [|k] eqn:E; [discriminate|].
    intros H. injection H as Hf <-.
    destruct (@space_len_found _ _ E) as [_ Hk].
    assert (Hl : k = List.length pt).
    { apply (f_equal (@List.length ascii)) in Hf.
      rewrite length_firstn in Hf. cbn [List.length] in Hk. rewrite length_app in *. lia. }
    subst k. rewrite skipn_app, skipn_all, Nat.sub_diag. reflexivity.
Qed.

Lemma pieces_peel (A Y : list Piece) (t : list ascii) :
  pieces (flat_map bytes_of A ++ t) = A ++ Y -> pieces t = Y.
Proof.
  induction A as [|u A IH]; [trivial|]. cbn [flat_map app]. rewrite <- app_assoc.
  destruct u as [p|b]; cbn [bytes_of].
  - intros H. apply pieces_space_head in H. now apply IH.
  - cbn [app]. rewrite pieces_cons.
    destruct (space_len _); [|discriminate]. intros [= H]. now apply IH.
Qed.

(** Pieces that lie together in a string, and are not followed by one
    of its other bytes, are the pieces of their own bytes. *)
Lemma pieces_middle (s : list ascii) (A B C : list Piece) :
  pieces s = A ++ B ++ C ->
  match C with Byte _ :: _ => False | _ => True end ->
  pieces (flat_map bytes_of B) = B.
Proof.
  intros Hs HC.
  pose proof (pieces_proper s) as Hp. rewrite Hs in Hp.
  apply Forall_app in Hp as [_ Hp]. apply Forall_app in Hp as [HB HCp].
  assert (HBC : pieces (flat_map bytes_of B ++ flat_map bytes_of C) = B ++ C).
  { apply (@pieces_peel A). rewrite <- flat_map_app, <- flat_map_app, <- Hs.
    now rewrite flat_pieces. }
  rewrite pieces_app in HBC.
  - apply (@pieces_prefix_eq _ _ _ _ (pieces_proper _) HB HBC). apply flat_pieces.
  - intros c rest Hc. destruct C as [|[p|b] C]; [discriminate| |contradiction].
    inversion HCp as [|? ? Hin _]. destruct (@white_space_in p Hin) as [c' [t [-> [Hc' _]]]].
    cbn in Hc. now injection Hc as <- _.
Qed.

(** *** Words *)

Lemma split_ws_aux_sep (cur : list ascii) (us1 us2 : list Piece) (p : list ascii) :
  split_ws_aux cur (us1 ++ Space p :: us2) = split_ws_aux cur us1 ++ split_ws_aux [] us2.
Proof.
  revert cur. induction us1 as [|[q|b] us1 IH]; intros cur; cbn [app split_ws_aux].
  - reflexivity.
  - now rewrite IH, app_assoc.
  - apply IH.
Qed.

Lemma split_ws_aux_bytes (cur l : list ascii) :
  split_ws_aux cur (map Byte l) = flush_word (rev l ++ cur).
Proof.
  revert cur. induction l as [|x l IH]; intros cur; cbn [map split_ws_aux rev app];
    [reflexivity|].
  now rewrite IH, <- app_assoc.
Qed.

Lemma all_bytes (us : list Piece) :
  forallb is_byte us = true -> us = map Byte (flat_map bytes_of us).
Proof.
  induction us as [|[p|b] us IH]; cbn; [reflexivity|discriminate|].
  intros H. now rewrite <- IH.
Qed.

Lemma bytes_are_bytes (l : list ascii) : forallb is_byte (map Byte l) = true.
Proof. induction l; [reflexivity|assumption]. Qed.

Lemma flat_bytes (l : list ascii) : flat_map bytes_of (map Byte l) = l.
Proof. induction l as [|x l IH]; [reflexivity|]. cbn. now rewrite IH. Qed.

Lemma split_ws_word (w : string) : is_word w -> split_ws w = [w].
Proof.
  intros [Hne Hw]. unfold split_ws. rewrite (all_bytes _ Hw), flat_pieces.
  rewrite split_ws_aux_bytes, app_nil_r. unfold flush_word.
  destruct (rev (list_ascii_of_string w)) as [|x l] eqn:Hr.
  - destruct w; [congruence|]. cbn in Hr. now destruct (rev (list_ascii_of_string w)).
  - rewrite <- Hr, rev_involutive, string_of_list_ascii_of_string. reflexivity.
Qed.

Lemma split_ws_sep (s1 s2 : string) (c : ascii) :
  continuation c = false ->
  (forall l, space_len (c :: l) = 1) ->
  split_ws (s1 ++ String c s2) = split_ws s1 ++ split_ws s2.
Proof.
  intros Hc Hl. unfold split_ws. rewrite list_ascii_of_string_app.
  cbn [list_ascii_of_string]. rewrite pieces_app.
  - rewrite pieces_cons, Hl. cbn [skipn]. apply split_ws_aux_sep.
  - now intros c' rest [= <- _].
Qed.

Lemma flush_word_words (cur : list ascii) :
  pieces (rev cur) = map Byte (rev cur) -> Forall is_word (flush_word cur).
Proof.
  intros H. destruct cur as [|x cur]; [constructor|].
  cbn [flush_word]. constructor; [|constructor]. split.
  - intros He. apply (f_equal list_ascii_of_string) in He.
    rewrite list_ascii_of_string_of_list_ascii in He. cbn in He.
    now destruct (rev cur).
  - rewrite list_ascii_of_string_of_list_ascii, H. apply bytes_are_bytes.
Qed.

Lemma split_ws_aux_words (s : list ascii) (A : list Piece) (cur : list ascii)
    (us : list Piece) :
  pieces s = A ++ map Byte (rev cur) ++ us ->
  Forall is_word (split_ws_aux cur us).
Proof.
  revert A cur. induction us as [|[p|b] us IH]; intros A cur H; cbn [split_ws_aux].
  - apply flush_word_words.
    rewrite <- (flat_bytes (rev cur)) at 1. now apply (@pieces_middle s A _ []).
  - apply Forall_app. split.
    + apply flush_word_words.
      rewrite <- (flat_bytes (rev cur)) at 1.
      now apply (@pieces_middle s A _ (Space p :: us)).
    + apply (IH (A ++ map Byte (rev cur) ++ [Space p]) []).
      rewrite H, <- !app_assoc. reflexivity.
  - apply (IH A (b :: cur)). rewrite H. cbn [rev]. rewrite map_app, <- app_assoc.
    reflexivity.
Qed.

Lemma split_ws_words (s : string) : Forall is_word (split_ws s).
Proof. now apply (@split_ws_aux_words (list_ascii_of_string s) [] []). Qed.

Lemma space_is_fresh : continuation " " = false /\ forall l, space_len (" "%char :: l) = 1.
Proof. split; reflexivity. Qed.

Lemma newline_is_fresh :
  continuation (ascii_of_nat 10) = false
  /\ forall l, space_len (ascii_of_nat 10 :: l) = 1.
Proof. split; reflexivity. Qed.

Lemma split_ws_join (ws : list string) :
  Forall is_word ws -> split_ws (join " " ws) = ws.
Proof.
  induction 1 as [|w ws Hw Hws IH]; [reflexivity|].
  destruct ws as [|w2 ws]; [now apply split_ws_word|].
  change (join " " (w :: w2 :: ws)) with (w ++ String " " (join " " (w2 :: ws)))%string.
  rewrite split_ws_sep by apply space_is_fresh.
  rewrite IH, split_ws_word by exact Hw. reflexivity.
Qed.

Lemma Forall_firstn_skipn {A} (P : A -> Prop) (n : nat) (l : list A) :
  Forall P l -> Forall P (firstn n l) /\ Forall P (skipn n l).
Proof.
  revert l. induction n as [|n IH]; intros l H; [now split|].
  destruct H as [|x l Hx Hl]; [now split|].
  destruct (IH l Hl). cbn. auto.
Qed.

Lemma split_ws_wrap_words (fuel : nat) (ws : list string) :
  Forall is_word ws ->
  List.length ws <= fuel ->
  split_ws (wrap_words fuel ws) = ws.
Proof.
  revert ws. induction fuel as [|fuel IH]; intros ws Hw Hl.
  - destruct ws; [reflexivity|cbn in Hl; lia].
  - destruct ws as [|w ws]; [reflexivity|].
    change (wrap_words (S fuel) (w :: ws))
      with (join " " (firstn 8 (w :: ws))
            ++ String (ascii_of_nat 10) (wrap_words fuel (skipn 8 (w :: ws))))%string.
    rewrite split_ws_sep by apply newline_is_fresh.
    rewrite split_ws_join by (apply Forall_firstn_skipn, Hw).
    rewrite IH.
    + apply firstn_skipn.
    + apply Forall_firstn_skipn, Hw.
    + rewrite length_skipn. cbn [List.length] in *. lia.
Qed.

(** *** Stripping *)

Lemma drop_space_split (us : list Piece) :
  exists sp, us = sp ++ drop_space us /\ all_space sp.
Proof.
  induction us as [|[p|b] us [sp [Hus Hsp]]].
  - exists []. split; [reflexivity|constructor].
  - exists (Space p :: sp). cbn [drop_space app]. split; [congruence|].
    now constructor.
  - exists []. split; [reflexivity|constructor].
Qed.

Lemma split_ws_aux_leading (sp us : list Piece) :
  all_space sp -> split_ws_aux [] (sp ++ us) = split_ws_aux [] us.
Proof.
  induction 1 as [|[p|b] sp Hu _ IH]; [reflexivity|exact IH|discriminate].
Qed.

Lemma split_ws_aux_spaces (cur : list ascii) (sp : list Piece) :
  all_space sp -> split_ws_aux cur sp = flush_word cur.
Proof.
  intros H. revert cur. induction H as [|[p|b] sp Hu _ IH]; intros cur;
    [reflexivity| |discriminate].
  cbn [split_ws_aux]. rewrite IH. apply app_nil_r.
Qed.

Lemma split_ws_aux_trailing (cur : list ascii) (us sp : list Piece) :
  all_space sp -> split_ws_aux cur (us ++ sp) = split_ws_aux cur us.
Proof.
  intros Hsp. revert cur. induction us as [|[p|b] us IH]; intros cur;
    cbn [app split_ws_aux].
  - now apply split_ws_aux_spaces.
  - now rewrite IH.
  - apply IH.
Qed.

Lemma split_ws_strip (s : string) : split_ws (strip s) = split_ws s.
Proof.
  unfold split_ws, strip. rewrite list_ascii_of_string_of_list_ascii.
  set (us := pieces (list_ascii_of_string s)).
  destruct (drop_space_split us) as [A [HA HAs]].
  destruct (drop_space_split (rev (drop_space us))) as [Cr [HC HCs]].
  set (B := rev (drop_space (rev (drop_space us)))) in *.
  assert (HM : drop_space us = B ++ rev Cr).
  { unfold B. rewrite <- rev_app_distr, <- HC. symmetry. apply rev_involutive. }
  assert (Hus : us = A ++ B ++ rev Cr) by (rewrite <- HM; exact HA).
  assert (Hrev : all_space (rev Cr)) by now apply Forall_rev.
  rewrite (@pieces_middle (list_ascii_of_string s) A B (rev Cr) Hus).
  - rewrite Hus, split_ws_aux_leading, split_ws_aux_trailing by assumption.
    reflexivity.
  - destruct (rev Cr) as [|[p|b] C]; [exact I|exact I|].
    inversion Hrev as [|? ? Hb _]. discriminate.
Qed.


(** X15.  Folding a reasoning block for its event neither loses nor
    reorders nor cuts a word: between the opening and the closing fence
    the words of the event text are the words of the reasoning text.
    Words are what [str.split] makes them, parted by the white space of
    Unicode. *)
Theorem folding_keeps_the_words (thinking : string) :
  split_ws (thinking_text thinking)
  = ["```Thinking:"] ++ split_ws thinking ++ ["```"].
Proof.
  unfold thinking_text.
  set (words := split_ws thinking).
  set (wrapped := wrap_words (List.length words) words).
  change ("```Thinking:" ++ nl ++ strip wrapped ++ nl ++ "```")%string
    with ("```Thinking:" ++ String (ascii_of_nat 10)
            (strip wrapped ++ String (ascii_of_nat 10) "```"))%string.
  rewrite !split_ws_sep by apply newline_is_fresh.
  rewrite split_ws_strip. subst wrapped.
  rewrite split_ws_wrap_words; [reflexivity|apply split_ws_words|lia].
Qed.

(** A no-break space parts two words as a space does. *)
Example folding_at_no_break_space :
  thinking_text ("one" ++ no_break_space ++ "two  three")
  = ("```Thinking:" ++ nl ++ "one two three" ++ nl ++ "```")%string.
Proof. vm_compute. reflexivity. Qed.

(** ** Which duplicate is reported *)

Lemma string_leb_refl (x : string) : String.leb x x = true.
Proof. destruct (String.leb_total x x); assumption. Qed.

Lemma check_adjacent_least (l : list string) :
  StronglySorted (fun x y => is_true (String.leb x y)) l ->
  forall e, check_adjacent l = Raise e ->
  exists x,
    e = duplicated x
    /\ 2 <= count_occ string_dec l x
    /\ forall y, 2 <= count_occ string_dec l y -> String.leb x y = true.
Proof.
  induction 1 as [|a l Hs IH Hall]; [discriminate|].
  destruct l as [|b l]; [discriminate|]. cbn [check_adjacent].
  destruct (String.eqb a b) eqn:Hab; intros e He.
  - apply String.eqb_eq in Hab. subst b. injection He as <-. exists a.
    split; [reflexivity|]. split.
    + cbn. destruct (string_dec a a); [lia|congruence].
    + intros y Hy. assert (Hin : In y (a :: a :: l)).
      { apply (count_occ_In string_dec). lia. }
      destruct Hin as [<-|Hin]; [apply string_leb_refl|].
      rewrite Forall_forall in Hall. now apply Hall.
  - apply String.eqb_neq in Hab. destruct (IH e He) as [x [-> [Hx Hleast]]].
    exists x. split; [reflexivity|].
    assert (Hnotin : ~ In a (b :: l)).
    { intros Hin. apply Hab. apply String.leb_antisym.
      - inversion Hall; assumption.
      - destruct Hin as [Heq|Hin]; [subst; apply string_leb_refl|].
        inversion Hs as [|? ? _ Hbl]; subst. rewrite Forall_forall in Hbl. now apply Hbl. }
    assert (Hcount : forall y, 2 <= count_occ string_dec (a :: b :: l) y ->
              2 <= count_occ string_dec (b :: l) y).
    { intros y Hy.
      change (count_occ string_dec (a :: b :: l) y)
        with (if string_dec a y then S (count_occ string_dec (b :: l) y)
              else count_occ string_dec (b :: l) y) in Hy.
      destruct (string_dec a y) as [<-|_]; [|exact Hy].
      exfalso. apply Hnotin. apply (count_occ_In string_dec). lia. }
    split.
    + change (count_occ string_dec (a :: b :: l) x)
        with (if string_dec a x then S (count_occ string_dec (b :: l) x)
              else count_occ string_dec (b :: l) x).
      destruct (string_dec a x); lia.
    + intros y Hy. apply Hleast, Hcount, Hy.
Qed.

(** X16.  When several tool names are duplicated, the error names the
    least of them in the order of the sort. *)
Theorem least_duplicate_is_reported (tool_list : list LLMTool) (e : exn) :
  let names := map name (map get_tool_param tool_list) in
  validate_tools tool_list = Raise e ->
  exists x,
    e = ValueError ("Tool " ++ x ++ " is duplicated")
    /\ 2 <= count_occ string_dec names x
    /\ forall y, 2 <= count_occ string_dec names y -> String.leb x y = true.
Proof.
  intros names. unfold validate_tools. fold names. intros He.
  pose proof (sorted_permutation names) as Hp.
  destruct (check_adjacent (sorted names)) as [u|e'] eqn:Hc; [discriminate|].
  injection He as <-.
  destruct (check_adjacent_least (sorted_strongly names) Hc) as [x [-> [Hx Hleast]]].
  exists x. split; [reflexivity|].
  rewrite (Permutation_count_occ string_dec) in Hp.
  split; [now rewrite Hp|]. intros y Hy. apply Hleast. now rewrite <- Hp.
Qed.

(** ** [clear] before a run *)

(** X17.  After [clear()] a run is a fresh run whether resumed or not:
    it gives the result and leaves the agent that a run with [resume]
    false gives from the agent as it was, and a [cancel()] issued before
    the [clear()] is forgotten. *)
Theorem clear_then_run_is_a_fresh_run (W : World) (instruction : string)
    (files : option (list string)) (resume : bool) (a : FunctionCallAgent) :
  run_agent_async W instruction files resume (clear a)
  = run_agent_async W instruction files false a
  /\ run_agent_async W instruction files resume (clear (cancel a))
     = run_agent_async W instruction files false a
  /\ turns (history (clear a)) = []
  /\ interrupted (clear a) = false
  /\ tool_manager (clear a) = tool_manager a.
Proof.
  rewrite !run_agent_async_eq, !run_async_eq. destruct resume; repeat split.
Qed.

(** * The search clients *)

(** ** Which client is built *)

Lemma api_key_of_settings (settings : option Settings)
    (field : SearchConfig -> option string) (environ : string -> option string)
    (variable : string) (s : Settings) (config : SearchConfig) (v : string) :
  settings = Some s ->
  search_config s = Some config ->
  field config = Some v ->
  v <> EmptyString ->
  api_key_of settings field environ variable = v.
Proof.
  intros -> Hc Hf Hv. unfold api_key_of, secret_value. rewrite Hc, Hf.
  apply String.eqb_neq in Hv. now rewrite Hv, Hv.
Qed.

Lemma api_key_of_cases (settings : option Settings)
    (field : SearchConfig -> option string) (environ : string -> option string)
    (variable : string) :
  (exists s config,
     settings = Some s /\ search_config s = Some config
     /\ field config = Some (api_key_of settings field environ variable)
     /\ api_key_of settings field environ variable <> EmptyString)
  \/ ((forall s config v,
         settings = Some s -> search_config s = Some config ->
         field config = Some v -> v = EmptyString)
      /\ api_key_of settings field environ variable
         = match environ variable with Some v => v | None => EmptyString end).
Proof.
  unfold api_key_of, secret_value.
  destruct settings as [s|]; [|right; split; [discriminate|reflexivity]].
  destruct (search_config s) as [config|] eqn:Hc;
    [|right; split; [intros s' c' v' Hs' Hc'; congruence|reflexivity]].
  destruct (field config) as [v|] eqn:Hf;
    [|right; split; [intros s' c' v' Hs' Hc' Hf'; congruence|reflexivity]].
  destruct (String.eqb v EmptyString) eqn:Hv.
  - right. apply String.eqb_eq in Hv.
    split; [intros s' c' v' Hs' Hc' Hf'; congruence|reflexivity].
  - left. rewrite Hv. apply String.eqb_neq in Hv. now exists s, config.
Qed.

Lemma api_key_of_has_key (settings : option Settings)
    (field : SearchConfig -> option string) (environ : string -> option string)
    (variable : string) :
  api_key_of settings field environ variable <> EmptyString
  <-> has_key settings field environ variable.
Proof.
  unfold has_key. split.
  - intros Hne. destruct (api_key_of_cases settings field environ variable)
      as [[s [config [Hs [Hc [Hf Hv]]]]]|[_ Hk]].
    + left. now exists s, config, (api_key_of settings field environ variable).
    + right. rewrite Hk in Hne. destruct (environ variable) as [v|]; [|congruence].
      now exists v.
  - intros [[s [config [v [Hs [Hc [Hf Hv]]]]]]|[v [He Hv]]].
    + now rewrite (api_key_of_settings field environ variable Hs Hc Hf Hv).
    + destruct (api_key_of_cases settings field environ variable)
        as [[s [config [Hs [Hc [Hf Hne]]]]]|[_ Hk]]; [exact Hne|].
      now rewrite Hk, He.
Qed.



(** X20. The two factories agree: [create_image_search_client] gives a
    client exactly when [create_search_client], given the same further
    keywords, gives the SerpAPI client, and the two then hold the same
    key; the image client has the [max_results] it was asked for. *)
Theorem image_client_iff_serpapi (settings : option Settings)
    (environ : string -> option string) (ddgs : DDGS) (kwargs : list string)
    (max_results image_results : Z) (c : ImageSearchClient) :
  create_image_search_client settings environ kwargs image_results = Ok (Some c)
  <-> (create_search_client settings environ ddgs kwargs max_results
         = Ok (SerpAPISearchClient max_results (image_api_key c))
       /\ image_max_results c = image_results).
Proof.
  unfold create_image_search_client, create_search_client, with_api_key.
  destruct (String.eqb (api_key_of settings serpapi_api_key environ "SERPAPI_API_KEY")
              EmptyString) eqn:Es; cbn [negb].
  - split; [discriminate|]. intros [H _].
    destruct (negb _); [destruct (mem_string _ _); discriminate|].
    destruct (negb _); [destruct (mem_string _ _); discriminate|].
    destruct ddgs; discriminate.
  - destruct (mem_string "api_key" kwargs); cbn [and_then].
    + split; [discriminate|]. intros [H _]. discriminate.
    + split.
      * intros [= <-]. now cbn.
      * intros [[= Hk] Hm]. destruct c as [m k]. cbn in *. now subst.
Qed.

(** ** What a search returns *)

Lemma except_Exception_raise (A : Type) (body : result A) (fallback : A) (e : exn) :
  except_Exception body fallback = Raise e -> e = CancelledError /\ body = Raise e.
Proof.
  destruct body as [x|e']; cbn; [discriminate|].
  destruct e'; cbn; try discriminate. now intros [= <-].
Qed.

Lemma except_Exception_ok (A : Type) (body : result A) (fallback out : A) :
  except_Exception body fallback = Ok out -> out = fallback \/ body = Ok out.
Proof.
  destruct body as [x|e']; cbn.
  - intros [= <-]. now right.
  - destruct (is_Exception e'); [|discriminate]. intros [= <-]. now left.
Qed.

Lemma and_then_ok (A B : Type) (m : result A) (k : A -> result B) (out : B) :
  and_then m k = Ok out -> exists x, m = Ok x /\ k x = Ok out.
Proof.
  destruct m as [x|e]; cbn; [|discriminate]. intros H. now exists x.
Qed.

Lemma and_then_raise (A B : Type) (m : result A) (k : A -> result B) (e : exn) :
  and_then m k = Raise e -> m = Raise e \/ exists x, m = Ok x /\ k x = Raise e.
Proof.
  destruct m as [x|e']; cbn.
  - intros H. right. now exists x.
  - intros [= <-]. now left.
Qed.

Lemma subscript_not_cancelled (v : json) (key : string) :
  subscript v key <> Raise CancelledError.
Proof.
  destruct v; cbn; try discriminate. destruct (lookup key fields); discriminate.
Qed.

Lemma get_default_not_cancelled (v : json) (key : string) (default : json) :
  get_default v key default <> Raise CancelledError.
Proof.
  destruct v; cbn; try discriminate. destruct (lookup key fields); discriminate.
Qed.

Lemma iterate_not_cancelled (v : json) : iterate v <> Raise CancelledError.
Proof. destruct v; cbn; discriminate. Qed.

Lemma serp_results_not_cancelled (max_results : Z) (results : list json) :
  forall results_processed search_response,
    serp_results max_results results_processed results search_response
    <> Raise CancelledError.
Proof.
  induction results as [|r rest IH]; intros p acc; cbn; [discriminate|].
  destruct (p >=? max_results)%Z; [discriminate|].
  intros H.
  apply and_then_raise in H as [H|[title [_ H]]];
    [now apply subscript_not_cancelled in H|].
  apply and_then_raise in H as [H|[link [_ H]]];
    [now apply subscript_not_cancelled in H|].
  apply and_then_raise in H as [H|[snippet [_ H]]];
    [now apply subscript_not_cancelled in H|].
  now apply IH in H.
Qed.

Lemma serp_results_spec (max_results : Z) (results : list json) :
  forall results_processed search_response out,
    serp_results max_results results_processed results search_response = Ok out ->
    exists new,
      out = search_response ++ new
      /\ Forall2 serp_entry
           (firstn (Z.to_nat (max_results - results_processed)) results) new.
Proof.
  induction results as [|r rest IH]; intros p acc out; cbn [serp_results].
  - intros [= <-]. exists []. rewrite app_nil_r, firstn_nil. now split.
  - destruct (p >=? max_results)%Z eqn:Hp.
    + intros [= <-]. exists []. rewrite app_nil_r.
      replace (Z.to_nat (max_results - p)) with 0%nat by lia. now split.
    + intros H.
      apply and_then_ok in H as [title [Ht H]].
      apply and_then_ok in H as [link [Hl H]].
      apply and_then_ok in H as [snippet [Hs H]].
      apply IH in H as [new [-> Hnew]].
      exists ([("title", title); ("url", link); ("content", snippet)] :: new).
      split; [now rewrite <- app_assoc|].
      replace (Z.to_nat (max_results - p))
        with (S (Z.to_nat (max_results - (p + 1)))) by lia.
      cbn [firstn]. constructor; [|exact Hnew].
      now exists title, link, snippet.
Qed.

Lemma Forall2_serp_entry_length (items : list json) (out : list SearchResult) :
  Forall2 serp_entry items out -> List.length out = List.length items.
Proof. intros H. symmetry. exact (Forall2_length H). Qed.


Lemma serp_results_complete (max_results : Z) (results : list json) :
  forall results_processed search_response,
    Forall (fun r => exists entry, serp_entry r entry)
      (firstn (Z.to_nat (max_results - results_processed)) results) ->
    exists out,
      serp_results max_results results_processed results search_response = Ok out.
Proof.
  induction results as [|r rest IH]; intros p acc Hall; cbn [serp_results].
  - now exists acc.
  - destruct (p >=? max_results)%Z eqn:Hp; [now exists acc|].
    replace (Z.to_nat (max_results - p))
      with (S (Z.to_nat (max_results - (p + 1)))) in Hall by lia.
    cbn [firstn] in Hall. inversion Hall as [|? ? [entry Hr] Hrest]; subst.
    destruct Hr as [title [link [snippet [-> [-> [-> _]]]]]]. cbn [and_then].
    now apply IH.
Qed.

Lemma lookup_some_nonempty (key : string) (fields : list (string * json)) (v : json) :
  lookup key fields = Some v -> truthy (JDict fields) = true.
Proof. destruct fields; [discriminate|reflexivity]. Qed.

(** X22. When the response is a 200 whose body is an object with a list
    of organic results, and each of the first [max_results] of them has
    a title, a link and a snippet, the SerpAPI query returns one entry
    for each of these, in order: as many as there are results, up to
    [max_results].  Results after the first [max_results] are not
    looked at. *)
Theorem serp_search_returns_first_results (max_results : Z)
    (fields : list (string * json)) (items : list json) :
  lookup "organic_results" fields = Some (JList items) ->
  Forall (fun r => exists entry, serp_entry r entry)
    (firstn (Z.to_nat max_results) items) ->
  exists out,
    _search_query_by_serp_api max_results (Response 200 (Ok (JDict fields))) = Ok out
    /\ List.length out = Nat.min (Z.to_nat max_results) (List.length items)
    /\ Forall2 serp_entry (firstn (Z.to_nat max_results) items) out.
Proof.
  intros Hl Hall.
  assert (Hall' : Forall (fun r => exists entry, serp_entry r entry)
                    (firstn (Z.to_nat (max_results - 0)) items))
    by now rewrite Z.sub_0_r.
  destruct (serp_results_complete max_results items 0 [] Hall') as [out Hout].
  exists out.
  assert (Hrun : _search_query_by_serp_api max_results (Response 200 (Ok (JDict fields)))
                 = Ok out).
  { unfold _search_query_by_serp_api.
    change (200 =? 200)%Z with true. cbn [and_then].
    rewrite (lookup_some_nonempty _ _ Hl).
    unfold subscript. rewrite Hl. cbn [and_then iterate].
    rewrite Hout. reflexivity. }
  split; [exact Hrun|].
  apply serp_results_spec in Hout as [new [-> Hnew]].
  rewrite Z.sub_0_r in Hnew. cbn [app].
  split; [|exact Hnew].
  rewrite (Forall2_serp_entry_length Hnew). apply length_firstn.
Qed.

Lemma jina_results_not_cancelled (search_results : list json) :
  forall search_response,
    jina_results search_results search_response <> Raise CancelledError.
Proof.
  induction search_results as [|r rest IH]; intros acc; cbn; [discriminate|].
  intros H.
  apply and_then_raise in H as [H|[title [_ H]]];
    [now apply get_default_not_cancelled in H|].
  apply and_then_raise in H as [H|[url [_ H]]];
    [now apply get_default_not_cancelled in H|].
  apply and_then_raise in H as [H|[description [_ H]]];
    [now apply get_default_not_cancelled in H|].
  now apply IH in H.
Qed.

Lemma get_default_ok (v : json) (key : string) (x : json) :
  get_default v key (JStr EmptyString) = Ok x ->
  exists fields, v = JDict fields /\ x = field_or_empty key fields.
Proof.
  destruct v as [| | | | |fields]; cbn; try discriminate.
  unfold field_or_empty. intros H. exists fields. split; [reflexivity|].
  destruct (lookup key fields); now injection H as <-.
Qed.

Lemma jina_results_spec (search_results : list json) :
  forall search_response out,
    jina_results search_results search_response = Ok out ->
    exists objects,
      search_results = map JDict objects
      /\ out = search_response ++ map jina_entry objects.
Proof.
  induction search_results as [|r rest IH]; intros acc out; cbn [jina_results].
  - intros [= <-]. exists []. now rewrite app_nil_r.
  - intros H.
    apply and_then_ok in H as [title [Ht H]].
    apply and_then_ok in H as [url [Hu H]].
    apply and_then_ok in H as [description [Hd H]].
    apply get_default_ok in Ht as [fields [-> ->]].
    apply get_default_ok in Hu as [fields' [[= <-] ->]].
    apply get_default_ok in Hd as [fields' [[= <-] ->]].
    apply IH in H as [objects [-> ->]].
    exists (fields :: objects). split; [reflexivity|].
    now rewrite <- app_assoc.
Qed.

Lemma jina_results_objects (objects : list (list (string * json))) :
  forall search_response,
    jina_results (map JDict objects) search_response
    = Ok (search_response ++ map jina_entry objects).
Proof.
  induction objects as [|fields rest IH]; intros acc; cbn [map jina_results].
  - now rewrite app_nil_r.
  - cbn [get_default]. unfold jina_entry at 1, field_or_empty.
    destruct (lookup "title" fields), (lookup "url" fields),
      (lookup "description" fields); cbn [and_then];
      rewrite IH, <- app_assoc; reflexivity.
Qed.


(** X24. With an API key, a 200 response whose body is an object with
    a list of objects as [data] gives one entry per object, in order,
    each with the title, the url and the description of the object, the
    empty string for a field it does not have. *)
Theorem jina_search_keeps_every_result (api_key : string)
    (fields : list (string * json)) (objects : list (list (string * json))) :
  api_key <> EmptyString ->
  lookup "data" fields = Some (JList (map JDict objects)) ->
  _search_query_by_jina api_key (Response 200 (Ok (JDict fields)))
  = Ok (map jina_entry objects).
Proof.
  intros Hk Hl. unfold _search_query_by_jina.
  apply String.eqb_neq in Hk. rewrite Hk.
  change (200 =? 200)%Z with true. cbn [and_then].
  unfold subscript. rewrite Hl. cbn [and_then].
  destruct objects as [|o os]; [reflexivity|].
  change (truthy (JList (map JDict (o :: os)))) with true.
  cbn [iterate and_then]. rewrite jina_results_objects. reflexivity.
Qed.

(** * The further properties on concrete runs *)

(** A run cancelled before its first turn. *)
Lemma interrupted_before_model_witness :
  let W := scripted [says [ToolCall (demo_call "1")]] [] in
  let a := cancel (entered W hello (fresh_agent [demo_tool "bash"] 5)) in
  fst (turns_loop W 5 a) = Ok (same_message AGENT_INTERRUPT_MESSAGE)
  /\ generate_calls (snd (turns_loop W 5 a)) = 0.
Proof.
  intros W a.
  assert (Hnd : NoDup (tool_names a)) by distinct.
  destruct (@interrupted_before_model W a 4 Hnd eq_refl) as [Hr [_ [_ [Hg _]]]].
  split; [exact Hr|exact Hg].
Defined.

(** A tool that ends the run with its answer. *)
Lemma stop_signal_ends_run_witness :
  let W := scripted [says [ToolCall (demo_call "1")]]
             [{| tool_text := "done"; tool_stop := Some "42"; tool_cancelled := false |}] in
  let a := entered W hello (fresh_agent [demo_tool "bash"] 5) in
  fst (turns_loop W 5 a)
  = Ok {| tool_output := "42"; tool_result_message := "Task completed" |}
  /\ turns (history (snd (turns_loop W 5 a)))
     = [UserTurn "hello" [];
        AssistantTurn [ToolCall (demo_call "1")];
        ToolResultTurn "1" "bash" "done";
        AssistantTurn [TextResult "42"]].
Proof.
  intros W a.
  assert (Hnd : NoDup (tool_names a)) by distinct.
  destruct (@stop_signal_ends_run W a 4 (demo_call "1") "42" Hnd
              eq_refl eq_refl eq_refl eq_refl) as [Hr [Ht _]].
  split; [exact Hr|exact Ht].
Defined.

(** A [cancel()] while the first tool runs. *)
Lemma cancel_during_tool_witness :
  let W := scripted [says [ToolCall (demo_call "1")]]
             [{| tool_text := "listing"; tool_stop := None; tool_cancelled := true |}] in
  let a := entered W hello (fresh_agent [demo_tool "bash"] 5) in
  fst (turns_loop W 5 a) = Ok (same_message AGENT_INTERRUPT_MESSAGE)
  /\ generate_calls (snd (turns_loop W 5 a)) = 1
  /\ run_tool_calls (tool_manager (snd (turns_loop W 5 a))) = [demo_call "1"].
Proof.
  intros W a.
  assert (Hnd : NoDup (tool_names a)) by distinct.
  destruct (@cancel_during_tool W a 3 (demo_call "1") Hnd
              eq_refl eq_refl eq_refl eq_refl eq_refl eq_refl) as [Hr [_ [Hg Hc]]].
  split; [exact Hr|]. split; [exact Hg|exact Hc].
Defined.

(** A [cancel()] during a model call that asks for no tool. *)
Lemma cancel_during_last_model_call_witness :
  let W := scripted [{| gen_blocks := [TextResult "all done"]; gen_cancelled := true |}] [] in
  let a := entered W hello (fresh_agent [demo_tool "bash"] 5) in
  fst (turns_loop W 5 a)
  = Ok {| tool_output := EmptyString; tool_result_message := "Task completed" |}
  /\ interrupted (snd (turns_loop W 5 a)) = true.
Proof.
  intros W a.
  assert (Hnd : NoDup (tool_names a)) by distinct.
  destruct (@cancel_during_last_model_call W a 4 Hnd eq_refl eq_refl eq_refl)
    as [Hr [_ Hi]].
  split; [exact Hr|exact Hi].
Defined.

Lemma completing_run :
  run_impl (scripted [] []) hello (fresh_agent [demo_tool "bash"] 5)
  = (Ok (completed EmptyString),
     snd (run_impl (scripted [] []) hello (fresh_agent [demo_tool "bash"] 5))).
Proof. vm_compute. reflexivity. Qed.

(** A run that completes in its first turn. *)
Lemma early_return_leaves_assistant_turn_witness :
  let W := scripted [] [] in
  let a' := snd (run_impl W hello (fresh_agent [demo_tool "bash"] 5)) in
  (exists ts blocks,
     turns (history a') = ts ++ [AssistantTurn blocks] /\ tool_calls_of blocks = [])
  /\ history_get_pending_tool_calls (history a') = [].
Proof.
  intros W a'.
  assert (Hr : fst (run_impl W hello (fresh_agent [demo_tool "bash"] 5))
               = Ok (completed EmptyString))
    by (unfold W; rewrite completing_run; reflexivity).
  assert (Hm : completed EmptyString <> same_message MAX_TURNS_MESSAGE) by discriminate.
  exact (@early_return_leaves_assistant_turn W hello (fresh_agent [demo_tool "bash"] 5)
           (completed EmptyString) Hr Hm).
Defined.

(** Three events, the second a user message, with nothing failing. *)
Lemma healthy_consumer_keeps_order_witness :
  let ev t := {| type := t; content := [] |} in
  let deliver t := {| message := ev t; save_raises := None; send_raises := None |} in
  let a := fresh_agent [] 1 in
  _process_messages [deliver TOOL_CALL; deliver USER_MESSAGE; deliver TOOL_RESULT]
    (a, {| events_table := []; wire := [] |})
  = (Ok tt,
     (a, {| events_table := [("session", ev TOOL_CALL); ("session", ev USER_MESSAGE);
                             ("session", ev TOOL_RESULT)];
            wire := [ev TOOL_CALL; ev TOOL_RESULT] |})).
Proof.
  intros ev deliver a.
  apply (@healthy_consumer_keeps_order
           [deliver TOOL_CALL; deliver USER_MESSAGE; deliver TOOL_RESULT]
           a {| events_table := []; wire := [] |} 0 "session" eq_refl eq_refl).
  intros d [<-|[<-|[<-|[]]]]; split; reflexivity.
Defined.

(** The database refuses the first event. *)
Lemma save_failure_skips_the_event_witness :
  let ev t := {| type := t; content := [] |} in
  let d := {| message := ev TOOL_CALL; save_raises := Some (Exception "locked");
              send_raises := None |} in
  let rest := [{| message := ev TOOL_RESULT; save_raises := None; send_raises := None |}] in
  let a := fresh_agent [] 1 in
  let o := {| events_table := []; wire := [] |} in
  _process_messages (d :: rest) (a, o) = _process_messages rest (a, o).
Proof.
  intros ev d rest a o.
  exact (@save_failure_skips_the_event d rest a o "session" (Exception "locked")
           eq_refl eq_refl eq_refl).
Defined.

(** The consumer task is cancelled while it sends the first event. *)
Lemma cancellation_stops_the_consumer_witness :
  let ev t := {| type := t; content := [] |} in
  let d := {| message := ev TOOL_CALL; save_raises := None;
              send_raises := Some CancelledError |} in
  let rest := [{| message := ev TOOL_RESULT; save_raises := None; send_raises := None |}] in
  let a := fresh_agent [] 1 in
  _process_messages (d :: rest) (a, {| events_table := []; wire := [] |})
  = (Ok tt, (a, {| events_table := [("session", ev TOOL_CALL)]; wire := [] |})).
Proof.
  intros ev d rest a.
  assert (Ht : type (message d) <> USER_MESSAGE) by discriminate.
  exact (@cancellation_stops_the_consumer d rest a {| events_table := []; wire := [] |} 0
           eq_refl Ht eq_refl eq_refl).
Defined.

(** A photograph. *)
Lemma pictures_by_extension_witness :
  let W := scripted [] [] in
  image_block_of W "uploads/cat.jpg"
  = [{| media_type := "image/jpeg"; data := "uploads/cat.jpg" |}]
  /\ image_block_of W "jpg" = [{| media_type := "image/jpeg"; data := "jpg" |}].
Proof.
  intros W.
  exact (@pictures_by_extension W "uploads/cat" "jpg" eq_refl).
Defined.

(** Four tools, two names used twice. *)
Lemma least_duplicate_is_reported_witness :
  let tool_list := [demo_tool "web"; demo_tool "bash"; demo_tool "web"; demo_tool "bash"] in
  exists x,
    ValueError "Tool bash is duplicated" = ValueError ("Tool " ++ x ++ " is duplicated")
    /\ 2 <= count_occ string_dec (map name (map get_tool_param tool_list)) x
    /\ forall y, 2 <= count_occ string_dec (map name (map get_tool_param tool_list)) y ->
                 String.leb x y = true.
Proof.
  intros tool_list.
  exact (@least_duplicate_is_reported tool_list (ValueError "Tool bash is duplicated")
           eq_refl).
Defined.


(** Three organic results, two asked for; the third is not an object. *)
Lemma serp_search_returns_first_results_witness :
  let organic t :=
    JDict [("title", JStr t); ("link", JStr "https://example.org"); ("snippet", JStr "...")] in
  let fields := [("organic_results", JList [organic "one"; organic "two"; JNull])] in
  exists out,
    _search_query_by_serp_api 2 (Response 200 (Ok (JDict fields))) = Ok out
    /\ List.length out = 2.
Proof.
  intros organic fields.
  assert (Hall : Forall (fun r => exists entry, serp_entry r entry)
                   (firstn (Z.to_nat 2) [organic "one"; organic "two"; JNull])).
  { repeat constructor.
    - exists [("title", JStr "one"); ("url", JStr "https://example.org");
              ("content", JStr "...")].
      exists (JStr "one"), (JStr "https://example.org"), (JStr "...").
      repeat split; reflexivity.
    - exists [("title", JStr "two"); ("url", JStr "https://example.org");
              ("content", JStr "...")].
      exists (JStr "two"), (JStr "https://example.org"), (JStr "...").
      repeat split; reflexivity. }
  destruct (@serp_search_returns_first_results 2 fields
              [organic "one"; organic "two"; JNull] eq_refl Hall) as [out [Hrun [Hlen _]]].
  exists out. split; [exact Hrun|exact Hlen].
Defined.

(** Two results, the second without a description. *)
Lemma jina_search_keeps_every_result_witness :
  let first := [("title", JStr "one"); ("url", JStr "u1"); ("description", JStr "d1")] in
  let second := [("title", JStr "two"); ("url", JStr "u2")] in
  _search_query_by_jina "key"
    (Response 200 (Ok (JDict [("code", JNum 200); ("data", JList [JDict first; JDict second])])))
  = Ok [[("title", JStr "one"); ("url", JStr "u1"); ("content", JStr "d1")];
        [("title", JStr "two"); ("url", JStr "u2"); ("content", JStr EmptyString)]].
Proof.
  intros first second.
  assert (Hk : "key" <> EmptyString) by discriminate.
  exact (@jina_search_keeps_every_result "key"
           [("code", JNum 200); ("data", JList [JDict first; JDict second])]
           [first; second] Hk eq_refl).
Defined.
